(** * ask-ai: chunking, document store and retrieval

    A shallow embedding of the ingestion scripts ([final.py], [nick.py]) and
    of the retriever ([sad.py]), followed by the properties of the
    specification that they satisfy or fail to satisfy.

    Conventions of the embedding:
    - Python [int] is [Z]; [str] is [string], one [ascii] per code point
      (texts are taken in the Latin-1 range; the two messages that carry a
      symbol outside it are kept as the bytes of the source file);
    - a function that may raise returns a [result];
    - the SQLite tables are lists of rows in scan (rowid) order; a
      connection works on a private copy of the tables that becomes the
      stored one at [commit];
    - the embedding model, [uuid4], the clock and the temporary-file names
      are supplied by an environment record. *)

From Stdlib Require Import ZArith String Ascii List Lia Bool Floats Permutation
  Sorted DecimalString.
From Stdlib Require Import DecimalNat.
From stdpp Require Import base gmap strings.
Import ListNotations.
Local Open Scope string_scope.
Local Open Scope Z_scope.
Local Open Scope list_scope.

(* ================================================================== *)
(** * Part I: the program                                              *)
(* ================================================================== *)

(** ** Python strings *)
Module PyStr.

(** [str.isspace] on a single code point below 256: TAB..CR, FS..US,
    SPACE, NEL and NBSP. *)
Definition is_space (c : ascii) : bool :=
  let n := N_of_ascii c in
  (((9 <=? n) && (n <=? 13)) || ((28 <=? n) && (n <=? 32))
   || (n =? 133) || (n =? 160))%N.

(** [bool(s)] for a string: non-empty. *)
Definition truthy (s : string) : bool :=
  match s with EmptyString => false | String _ _ => true end.

(** One step of [str.split()] read from the right: the pair is the word
    that starts at the current position (empty when the position holds
    white space or the end) and the words after it. *)
Definition push_word (w : string) (ws : list string) : list string :=
  if truthy w then w :: ws else ws.

Fixpoint split_from (s : string) : string * list string :=
  match s with
  | EmptyString => (EmptyString, [])
  | String c s' =>
      let '(w, ws) := split_from s' in
      if is_space c then (EmptyString, push_word w ws)
      else (String c w, ws)
  end.

(** [s.split()]: the maximal runs of non-space characters, in order. *)
Definition split (s : string) : list string :=
  let '(w, ws) := split_from s in push_word w ws.

(** [s.lstrip()], [s.rstrip()], [s.strip()]. *)
Fixpoint lstrip (s : string) : string :=
  match s with
  | EmptyString => EmptyString
  | String c s' => if is_space c then lstrip s' else s
  end.

Fixpoint rstrip (s : string) : string :=
  match s with
  | EmptyString => EmptyString
  | String c s' =>
      let r := rstrip s' in
      if is_space c && negb (truthy r) then EmptyString else String c r
  end.

Definition strip (s : string) : string := rstrip (lstrip s).

(** [sep.join(ws)]. *)
Definition join (sep : string) (ws : list string) : string :=
  String.concat sep ws.

(** [len(l)]. *)
Definition len {A} (l : list A) : Z := Z.of_nat (length l).

(** [l[i:j]] with Python's treatment of negative and out-of-range
    bounds. *)
Definition clamp_index (n k : Z) : Z :=
  if k <? 0 then Z.max 0 (k + n) else Z.min k n.

Definition slice {A} (l : list A) (i j : Z) : list A :=
  let i' := clamp_index (len l) i in
  let j' := clamp_index (len l) j in
  firstn (Z.to_nat (j' - i')) (skipn (Z.to_nat i') l).

(** Predicates on strings used to state properties: a string without white
    space, a word (non-empty, without white space), a string of white space
    only, and a string whose last character is not white space. *)
Fixpoint nonspace (s : string) : bool :=
  match s with
  | EmptyString => true
  | String c s' => negb (is_space c) && nonspace s'
  end.

Definition is_word (w : string) : bool := truthy w && nonspace w.

Fixpoint whitespace_only (s : string) : bool :=
  match s with
  | EmptyString => true
  | String c s' => is_space c && whitespace_only s'
  end.

Fixpoint last_nonspace (s : string) : bool :=
  match s with
  | EmptyString => false
  | String c s' => if truthy s' then last_nonspace s' else negb (is_space c)
  end.

(** [str(n)] for a natural number. *)
Definition str_of_nat (n : nat) : string :=
  NilEmpty.string_of_uint (Nat.to_uint n).

End PyStr.

(** ** Exceptions and results *)

Inductive exn : Type :=
| ValueError (msg : string)
| FileNotFoundError (msg : string)
| TypeError (msg : string)
| IntegrityError (msg : string)
| FuelExhausted.
(** [FuelExhausted] is not a Python exception: it marks that the bounded
    unrolling of a [while] loop was too short.  [chunk_text] is shown never
    to produce it. *)

Inductive result (A : Type) : Type :=
| Return (a : A)
| Raise (e : exn).
Arguments Return {A} a.
Arguments Raise {A} e.

Definition bind {A B} (r : result A) (k : A -> result B) : result B :=
  match r with
  | Return a => k a
  | Raise e => Raise e
  end.

Notation "'let*' x ':=' r 'in' k" := (bind r (fun x => k))
  (at level 10, x name, r at level 200, k at level 200).

(** ** The chunker ([chunk_text], identical in final.py and nick.py) *)
Module Chunker.
Import PyStr.

(** The body of one iteration: the window's end and its text. *)
Definition window_end (n size start : Z) : Z := Z.min (start + size) n.

Definition window_text (words : list string) (start end_ : Z) : string :=
  strip (join " " (slice words start end_)).

(** The [while start < n] loop, unrolled at most [fuel] times. *)
Fixpoint chunk_loop (fuel : nat) (words : list string) (n size step : Z)
         (start : Z) (chunks : list string) : option (list string) :=
  match fuel with
  | O => None
  | S fuel' =>
      if start <? n then
        let end_ := window_end n size start in
        let chunk := window_text words start end_ in
        let chunks := if truthy chunk then chunks ++ [chunk] else chunks in
        if end_ =? n then Some chunks
        else chunk_loop fuel' words n size step (start + step) chunks
      else Some chunks
  end.

(** The overlap after the defensive normalisation. *)
Definition normalize_overlap (size overlap : Z) : Z :=
  if overlap >=? size then Z.max 0 (size / 4) else overlap.

Definition chunk_text (text : string) (chunk_size_words chunk_overlap_words : Z)
  : result (list string) :=
  if chunk_size_words <=? 0 then
    Raise (ValueError "chunk_size_words must be > 0")
  else
    let chunk_overlap_words :=
      normalize_overlap chunk_size_words chunk_overlap_words in
    let words := split text in
    let n := len words in
    let step := chunk_size_words - chunk_overlap_words in
    match chunk_loop (S (length words)) words n chunk_size_words step 0 [] with
    | Some chunks => Return chunks
    | None => Raise FuelExhausted
    end.

(** *** Specification-side views of the chunker

    The windows [(start, end)] that the loop visits, in order.  The
    recursion is the loop's, with the text of the window left out. *)
Fixpoint window_loop (fuel : nat) (n size step start : Z)
  : option (list (Z * Z)) :=
  match fuel with
  | O => None
  | S fuel' =>
      if start <? n then
        let end_ := window_end n size start in
        if end_ =? n then Some [(start, end_)]
        else option_map (cons (start, end_))
               (window_loop fuel' n size step (start + step))
      else Some []
  end.

Definition chunk_windows (text : string) (size overlap : Z) : list (Z * Z) :=
  let words := split text in
  let step := size - normalize_overlap size overlap in
  match window_loop (S (length words)) (len words) size step 0 with
  | Some ws => ws
  | None => []
  end.

(** The words of a window. *)
Definition window_words (words : list string) (w : Z * Z) : list string :=
  slice words (fst w) (snd w).

(** Putting the chunks back together: all words of the first chunk, and
    of every later chunk the words after the [overlap] shared ones. *)
Definition reassemble (overlap : nat) (chunks : list string) : list string :=
  match chunks with
  | [] => []
  | c :: rest => split c ++ flat_map (fun c' => skipn overlap (split c')) rest
  end.

(** The last [k] elements of a list. *)
Definition lastn {A} (k : nat) (l : list A) : list A :=
  skipn (length l - k) l.

End Chunker.

(** ** The document store (final.py; nick.py has the same
    [add_document_from_file] and [reindex_document]) *)
Module Store.
Import PyStr Chunker.

(** A stored embedding, after [json.loads]. *)
Definition embedding : Type := list float.

(** Rows of the two tables. [d_path] is the nullable column [path]. *)
Record document : Type := Document {
  d_id : string;
  d_title : string;
  d_path : option string;
  d_uploaded_at : string
}.

Record chunk : Type := Chunk {
  c_id : string;
  c_document_id : string;
  c_chunk_index : Z;
  c_text : string;
  c_embedding : embedding
}.

(** The database: both tables, rows in scan order.  The tables exist
    ([create_tables] has run, as final.py does when it is loaded). *)
Record db : Type := Db {
  documents : list document;
  chunks : list chunk
}.

(** What the functions read besides their arguments: the embedding model
    ([get_model().encode(...).tolist()]), [str(uuid.uuid4())] as the
    sequence of values it returns, the clock, and the names
    [tempfile.NamedTemporaryFile] picks. *)
Record env : Type := Env {
  encode : string -> embedding;
  uuid4 : nat -> string;
  utcnow : string;
  mktemp : nat -> string
}.

(** The state outside the function: the committed database, the files
    (path to content), and how many values [uuid4] and
    [NamedTemporaryFile] have handed out. *)
Record world : Type := World {
  w_db : db;
  w_fs : gmap string string;
  w_uuids : nat;
  w_tmps : nat
}.

Definition set_db (w : world) (d : db) : world :=
  World d (w_fs w) (w_uuids w) (w_tmps w).
Definition set_fs (w : world) (fs : gmap string string) : world :=
  World (w_db w) fs (w_uuids w) (w_tmps w).
Definition set_uuids (w : world) (k : nat) : world :=
  World (w_db w) (w_fs w) k (w_tmps w).
Definition set_tmps (w : world) (k : nat) : world :=
  World (w_db w) (w_fs w) (w_uuids w) k.

(** *** SQL statements on the connection's copy of the tables *)

(** [INSERT INTO documents ...]: [id] is the primary key. *)
Definition insert_document (d : document) (tx : db) : result db :=
  if existsb (fun d' => (d_id d' =? d_id d)%string) (documents tx) then
    Raise (IntegrityError "UNIQUE constraint failed: documents.id")
  else Return (Db (documents tx ++ [d]) (chunks tx)).

(** [INSERT INTO chunks ...]: [id] is the primary key and [document_id]
    references [documents(id)] ([PRAGMA foreign_keys = ON]). *)
Definition insert_chunk (c : chunk) (tx : db) : result db :=
  if existsb (fun c' => (c_id c' =? c_id c)%string) (chunks tx) then
    Raise (IntegrityError "UNIQUE constraint failed: chunks.id")
  else if existsb (fun d => (d_id d =? c_document_id c)%string) (documents tx)
  then Return (Db (documents tx) (chunks tx ++ [c]))
  else Raise (IntegrityError "FOREIGN KEY constraint failed").

(** [DELETE FROM chunks WHERE document_id = ?]. *)
Definition delete_chunks (document_id : string) (tx : db) : db :=
  Db (documents tx)
     (List.filter (fun c => negb (c_document_id c =? document_id)%string) (chunks tx)).

(** [SELECT path FROM documents WHERE id = ?] followed by [fetchone()]:
    [None] when no row matches, else the row's [path]. *)
Definition select_path (document_id : string) (tx : db) : option (option string) :=
  match List.filter (fun d => (d_id d =? document_id)%string) (documents tx) with
  | [] => None
  | d :: _ => Some (d_path d)
  end.

(** [os.path.basename] for POSIX paths. *)
Fixpoint has_slash (s : string) : bool :=
  match s with
  | EmptyString => false
  | String c s' => (c =? "/")%char || has_slash s'
  end.

Fixpoint basename (s : string) : string :=
  match s with
  | EmptyString => EmptyString
  | String c s' =>
      if has_slash s' then basename s'
      else if (c =? "/")%char then s' else s
  end.

(** [str(n)] for an integer. *)
Definition str_of_int (n : Z) : string := NilZero.string_of_int (Z.to_int n).

(** *** The embedding loop

    [for idx, piece in enumerate(chunks)]: one [encode], one [uuid4] and
    one [INSERT] per chunk.  The second component is the number of
    [uuid4] values used so far. *)
Fixpoint insert_chunks (E : env) (document_id : string) (idx : Z)
         (pieces : list string) (uuids : nat) (tx : db) : result db * nat :=
  match pieces with
  | [] => (Return tx, uuids)
  | piece :: rest =>
      let emb := encode E piece in
      let chunk_id := uuid4 E uuids in
      match insert_chunk (Chunk chunk_id document_id idx piece emb) tx with
      | Return tx' => insert_chunks E document_id (idx + 1) rest (S uuids) tx'
      | Raise e => (Raise e, S uuids)
      end
  end.

(** *** [add_document_from_file]

    A connection that is dropped without [commit] leaves the stored
    tables as they were. *)
Definition add_document_from_file (E : env) (file_path : string)
           (title : option string) (chunk_size_words chunk_overlap_words : Z)
           (w : world) : result (string * Z) * world :=
  match w_fs w !! file_path with
  | None => (Raise (FileNotFoundError (file_path +:+ " not found")), w)
  | Some text =>
      if negb (truthy (strip text)) then (Raise (ValueError "File is empty"), w)
      else
        let title :=
          match title with Some t => t | None => basename file_path end in
        let doc_id := uuid4 E (w_uuids w) in
        let uploaded_at := utcnow E in
        let w := set_uuids w (S (w_uuids w)) in
        let tx := w_db w in
        match insert_document (Document doc_id title (Some file_path) uploaded_at) tx with
        | Raise e => (Raise e, w)
        | Return tx =>
            match chunk_text text chunk_size_words chunk_overlap_words with
            | Raise e => (Raise e, w)
            | Return chunks =>
                match insert_chunks E doc_id 0 chunks (w_uuids w) tx with
                | (Raise e, k) => (Raise e, set_uuids w k)
                | (Return tx, k) =>
                    (Return (doc_id, len chunks), set_db (set_uuids w k) tx)
                end
            end
        end
  end.

(** *** [add_document_from_text] (final.py only) *)
Definition add_document_from_text (E : env) (text : string) (title : string)
           (chunk_size_words chunk_overlap_words : Z) (w : world)
  : result string * world :=
  if negb (truthy (strip text)) then (Return "❌ No text provided", w)
  else
    let tmp_path := mktemp E (w_tmps w) in
    let w := set_tmps (set_fs w (<[tmp_path := text]> (w_fs w))) (S (w_tmps w)) in
    match add_document_from_file E tmp_path (Some title)
            chunk_size_words chunk_overlap_words w with
    | (Raise e, w) => (Raise e, w)
    | (Return (doc_id, n_chunks), w) =>
        let w := set_fs w (delete tmp_path (w_fs w)) in
        (Return ("✅ Added text as document ID " +:+ doc_id +:+ " with "
                 +:+ str_of_int n_chunks +:+ " chunks."), w)
    end.

(** *** [reindex_document] *)
Definition reindex_document (E : env) (document_id : string)
           (new_file_path : option string)
           (chunk_size_words chunk_overlap_words : Z) (w : world)
  : result Z * world :=
  let tx := w_db w in
  let resolved : result (option string) :=
    match new_file_path with
    | None =>
        match select_path document_id tx with
        | None => Raise (ValueError "document_id not found")
        | Some path => Return path
        end
    | Some p => Return (Some p)
    end in
  match resolved with
  | Raise e => (Raise e, w)
  | Return None =>
      (* [os.path.exists(None)] *)
      (Raise (TypeError "stat: path should be string, bytes, os.PathLike or integer, not NoneType"), w)
  | Return (Some new_file_path) =>
      match w_fs w !! new_file_path with
      | None => (Raise (FileNotFoundError (new_file_path +:+ " not found")), w)
      | Some text =>
          let tx := delete_chunks document_id tx in
          match chunk_text text chunk_size_words chunk_overlap_words with
          | Raise e => (Raise e, w)
          | Return chunks =>
              match insert_chunks E document_id 0 chunks (w_uuids w) tx with
              | (Raise e, k) => (Raise e, set_uuids w k)
              | (Return tx, k) => (Return (len chunks), set_db (set_uuids w k) tx)
              end
          end
      end
  end.

(** *** Specification-side views of the store *)

(** The rows of one document, in scan order. *)
Definition chunks_of (document_id : string) (d : db) : list chunk :=
  List.filter (fun c => (c_document_id c =? document_id)%string) (chunks d).

(** The rows of the other documents. *)
Definition chunks_not_of (document_id : string) (d : db) : list chunk :=
  List.filter (fun c => negb (c_document_id c =? document_id)%string) (chunks d).

(** The rows the embedding loop builds for [pieces], numbered from [idx],
    with the [uuid4] values from the [uuids]-th on. *)
Fixpoint fresh_rows (E : env) (document_id : string) (idx : Z)
         (pieces : list string) (uuids : nat) : list chunk :=
  match pieces with
  | [] => []
  | piece :: rest =>
      Chunk (uuid4 E uuids) document_id idx piece (encode E piece)
      :: fresh_rows E document_id (idx + 1) rest (S uuids)
  end.

Definition known_document (document_id : string) (d : db) : bool :=
  existsb (fun x => (d_id x =? document_id)%string) (documents d).

(** A concrete environment and concrete worlds for the examples. *)
Definition demo_env : env :=
  Env (fun s => [1%float; 0%float])
      (fun k => "uuid-" +:+ str_of_nat k)
      "2025-01-01 00:00:00"
      (fun k => "/tmp/tmp" +:+ str_of_nat k +:+ ".txt").

Definition empty_world : world := World (Db [] []) ∅ 0 0.

(** No documents; an empty file and a file with two words. *)
Definition ghost_world : world :=
  World (Db [] []) (<["empty.txt" := ""]> (<["notes.txt" := "hello world"]> ∅)) 0 0.

(** Document doc-1 with three rows of an earlier version and a changed
    file behind its path; document doc-2 with one row. *)
Definition stale_world : world :=
  World
    (Db [Document "doc-1" "notes" (Some "notes.txt") "2024-12-31 23:59:59";
         Document "doc-2" "other" (Some "other.txt") "2024-12-31 23:59:59"]
        [Chunk "c-1" "doc-1" 0 "old one" [0%float; 1%float];
         Chunk "c-2" "doc-2" 0 "other text" [1%float; 1%float];
         Chunk "c-3" "doc-1" 1 "old two" [0%float; 1%float];
         Chunk "c-4" "doc-1" 2 "old three" [0%float; 1%float]])
    (<["notes.txt" := "hello world again"]> ∅) 0 0.

End Store.

(** ** The retriever (sad.py) *)
Module Retriever.
Import PyStr Store.
Local Open Scope float_scope.

(** *** numpy on vectors of floats

    [np.dot] of two 1-D arrays and [np.linalg.norm] of one; the sum is
    taken from left to right.  [np.dot] raises when the lengths differ.
    Float division by zero gives [nan] or an infinity (with a warning),
    never an exception: that is IEEE 754 division, which [/] is. *)
Definition dot (a b : list float) : float :=
  fold_left (fun acc xy => acc + fst xy * snd xy) (combine a b) 0.

Definition norm (a : list float) : float := sqrt (dot a a).

Definition cosine_similarity (a b : embedding) : result float :=
  if (length a =? length b)%nat then
    Return (dot a b / (norm a * norm b))
  else Raise (ValueError "shapes not aligned").

(** An entry of [similarities]: [(sim, doc_id, chunk_idx, chunk_text)]. *)
Record scored : Type := Scored {
  s_sim : float;
  s_doc_id : string;
  s_chunk_idx : Z;
  s_text : string
}.

(** The scan: one entry per row, in the order of the rows. *)
Fixpoint score_rows (query_embedding : embedding) (rows : list chunk)
  : result (list scored) :=
  match rows with
  | [] => Return []
  | r :: rest =>
      let* sim := cosine_similarity query_embedding (c_embedding r) in
      let* tl := score_rows query_embedding rest in
      Return (Scored sim (c_document_id r) (c_chunk_index r) (c_text r) :: tl)
  end.

(** *** [list.sort(key=..., reverse=True)]

    CPython reverses the list, sorts it in ascending order with a stable
    sort that compares keys with [<] only, and reverses the result.  The
    ascending sort is taken as insertion from the left, each element going
    before the first one that is greater: when [<] is a strict weak order
    on the keys (no NaN among them) every stable sort returns this list,
    and so does it on a list of two elements whatever the keys. *)
Fixpoint insert_sorted {A} (lt : A -> A -> bool) (x : A) (l : list A) : list A :=
  match l with
  | [] => [x]
  | y :: l' => if lt x y then x :: y :: l' else y :: insert_sorted lt x l'
  end.

Definition sort_asc {A} (lt : A -> A -> bool) (l : list A) : list A :=
  fold_left (fun acc x => insert_sorted lt x acc) l [].

Definition sort_reverse {A} (lt : A -> A -> bool) (l : list A) : list A :=
  rev (sort_asc lt (rev l)).

(** The key comparison of [similarities.sort(key=lambda x: x[0], ...)]. *)
Definition sim_lt (x y : scored) : bool := s_sim x <? s_sim y.

(** Lines 47 to 57: score every row and sort. *)
Definition rank_chunks (query_embedding : embedding) (rows : list chunk)
  : result (list scored) :=
  let* similarities := score_rows query_embedding rows in
  Return (sort_reverse sim_lt similarities).

(** *** Context expansion and deduplication *)

(** [SELECT text FROM chunks WHERE document_id=? AND chunk_index BETWEEN ?
    AND ?] with the bounds [chunk_idx - 1] and [chunk_idx + 1]. *)
Definition nearby (d : db) (doc_id : string) (chunk_idx : Z) : list string :=
  map c_text
    (List.filter
       (fun c => (c_document_id c =? doc_id)%string
                 && (chunk_idx - 1 <=? c_chunk_index c)%Z
                 && (c_chunk_index c <=? chunk_idx + 1)%Z)
       (chunks d)).

Definition context_chunks (d : db) (top_chunks : list scored) : list string :=
  flat_map (fun h => s_text h :: nearby d (s_doc_id h) (s_chunk_idx h))
           top_chunks.

(** The loop with the set [seen]. *)
Fixpoint dedupe_loop (cs : list string) (seen : gset string)
         (final_context : list string) : list string :=
  match cs with
  | [] => final_context
  | c :: rest =>
      if decide (c ∈ seen) then dedupe_loop rest seen final_context
      else dedupe_loop rest ({[c]} ∪ seen) (final_context ++ [c])
  end.

Definition dedupe (cs : list string) : list string := dedupe_loop cs ∅ [].

(** *** [retrieve_chunks] *)
Definition retrieve_chunks (E : env) (query : string) (k : Z) (w : world)
  : result (list string) :=
  let query_embedding := encode E query in
  let rows := chunks (w_db w) in
  let* similarities := rank_chunks query_embedding rows in
  let top_chunks := slice similarities 0 k in
  Return (dedupe (context_chunks (w_db w) top_chunks)).

(** *** Specification-side definitions *)

(** The first occurrences of a list, in order. *)
Fixpoint first_occurrences (l : list string) : list string :=
  match l with
  | [] => []
  | x :: l' =>
      x :: List.filter (fun y => negb (y =? x)%string) (first_occurrences l')
  end.

(** The rows within one position of [(doc_id, chunk_idx)]. *)
Definition neighbours (d : db) (doc_id : string) (chunk_idx : Z) : list chunk :=
  List.filter (fun c => (chunk_idx - 1 <=? c_chunk_index c)%Z
                        && (c_chunk_index c <=? chunk_idx + 1)%Z)
              (chunks_of doc_id d).

(** A list of entries in descending order of similarity: every earlier
    entry has a similarity greater than or equal to every later one. *)
Definition descending (l : list scored) : Prop :=
  forall i j x y, (i < j)%nat -> l !! i = Some x -> l !! j = Some y ->
                  (s_sim y <=? s_sim x) = true.

(** What an entry says about its row, without the similarity. *)
Definition entry_of_row (c : chunk) : string * Z * string :=
  (c_document_id c, c_chunk_index c, c_text c).
Definition entry_of_scored (h : scored) : string * Z * string :=
  (s_doc_id h, s_chunk_idx h, s_text h).

(** The order of the floats that are not NaN, as a lexicographic order on
    triples of integers: the class (negative infinity, negative, zero,
    positive, positive infinity), then exponent and mantissa. *)
Definition sf_key (f : spec_float) : option (Z * Z * Z) :=
  match f with
  | S754_nan => None
  | S754_zero _ => Some (0, 0, 0)%Z
  | S754_infinity s => Some (if s then -2 else 2, 0, 0)%Z
  | S754_finite s m e =>
      Some (if s then (-1, - e, - Zpos m) else (1, e, Zpos m))%Z
  end.

Definition fkey (x : float) : option (Z * Z * Z) := sf_key (Prim2SF x).

Definition key_lt (a b : Z * Z * Z) : Prop :=
  (fst (fst a) < fst (fst b) \/
   (fst (fst a) = fst (fst b) /\
    (snd (fst a) < snd (fst b) \/
     (snd (fst a) = snd (fst b) /\ snd a < snd b))))%Z.






(** A store with a chunk whose embedding is the zero vector, scanned
    first, and a chunk in the direction of the query of [demo_env]. *)
Definition zero_world : world :=
  World
    (Db [Document "d-zero" "zero" (Some "zero.txt") "2024-12-31 23:59:59";
         Document "d-a" "a" (Some "a.txt") "2024-12-31 23:59:59"]
        [Chunk "c-1" "d-zero" 0 "zero" [0; 0];
         Chunk "c-2" "d-a" 0 "match" [1; 0]])
    ∅ 0 0.

(** A document of five chunks, the chunk at index 2 closest to the query
    of [demo_env]. *)
Definition five_world : world :=
  World
    (Db [Document "d-5" "five" (Some "five.txt") "2024-12-31 23:59:59"]
        [Chunk "c-0" "d-5" 0 "t0" [0; 1];
         Chunk "c-1" "d-5" 1 "t1" [0; 1];
         Chunk "c-2" "d-5" 2 "t2" [1; 0];
         Chunk "c-3" "d-5" 3 "t3" [0; 1];
         Chunk "c-4" "d-5" 4 "t4" [0; 1]])
    ∅ 0 0.

(** Two chunks with the same similarity, then a closer one. *)
Definition tie_world : world :=
  World
    (Db [Document "d-1" "one" (Some "one.txt") "2024-12-31 23:59:59";
         Document "d-2" "two" (Some "two.txt") "2024-12-31 23:59:59";
         Document "d-3" "three" (Some "three.txt") "2024-12-31 23:59:59"]
        [Chunk "c-1" "d-1" 0 "first" [0; 1];
         Chunk "c-2" "d-2" 0 "second" [0; 2];
         Chunk "c-3" "d-3" 0 "best" [1; 0]])
    ∅ 0 0.

(** Document d-a with two chunks, the first in the direction of the
    query of [demo_env] and the second orthogonal to it; document d-b
    with one chunk in between. *)
Definition reorder_world : world :=
  World
    (Db [Document "d-a" "a" (Some "a.txt") "2024-12-31 23:59:59";
         Document "d-b" "b" (Some "b.txt") "2024-12-31 23:59:59"]
        [Chunk "c-1" "d-a" 0 "a0" [1; 0];
         Chunk "c-2" "d-a" 1 "a1" [0; 1];
         Chunk "c-3" "d-b" 0 "b0" [1; 1]])
    ∅ 0 0.

End Retriever.

(** ** More of the store: metadata, listing and the UI handlers *)
Module StoreOps.
Import PyStr Chunker Store.

(** *** [update_document_metadata] (nick.py)

    [UPDATE documents SET ... WHERE id = ?] with the fields that are not
    [None], then [commit]; the result is [cur.rowcount > 0]. *)
Definition set_fields (title path : option string) (d : document) : document :=
  Document (d_id d)
           (match title with Some t => t | None => d_title d end)
           (match path with Some p => Some p | None => d_path d end)
           (d_uploaded_at d).

Definition update_document_metadata (document_id : string)
           (title path : option string) (w : world) : bool * world :=
  match title, path with
  | None, None => (false, w)
  | _, _ =>
      let tx := w_db w in
      let updated :=
        length (List.filter (fun d => (d_id d =? document_id)%string)
                            (documents tx)) in
      let docs :=
        map (fun d => if (d_id d =? document_id)%string
                      then set_fields title path d else d)
            (documents tx) in
      (0 <? updated, set_db w (Db docs (chunks tx)))%nat
  end.

(** *** [list_documents] (final.py)

    The dict comprehension over [SELECT id, title FROM documents]: a later
    row with the same label replaces an earlier one. *)
Definition label (title doc_id : string) : string :=
  title +:+ " (" +:+ doc_id +:+ ")".

Definition list_documents (w : world) : gmap string string :=
  fold_left (fun m d => <[label (d_title d) (d_id d) := d_id d]> m)
            (documents (w_db w)) ∅.

(** *** The handlers of the UI (final.py)

    [file] is [None] or the uploaded file, given by its [name];
    [chunk_size] and [chunk_overlap] are the values of [int(...)]. *)
Definition handle_file_upload (E : env) (file : option string)
           (chunk_size chunk_overlap : Z) (w : world) : result string * world :=
  match file with
  | None => (Return "❌ No file uploaded", w)
  | Some name =>
      match add_document_from_file E name None chunk_size chunk_overlap w with
      | (Raise e, w) => (Raise e, w)
      | (Return (doc_id, n_chunks), w) =>
          (Return ("✅ Added " +:+ name +:+ " as document ID " +:+ doc_id
                   +:+ " with " +:+ str_of_int n_chunks +:+ " chunks."), w)
      end
  end.

Definition handle_text_upload (E : env) (text title : string)
           (chunk_size chunk_overlap : Z) (w : world) : result string * world :=
  add_document_from_text E text title chunk_size chunk_overlap w.

Definition handle_update (E : env) (doc_id new_text : string)
           (new_file : option string) (chunk_size chunk_overlap : Z)
           (w : world) : result string * world :=
  match new_file with
  | Some name =>
      match reindex_document E doc_id (Some name) chunk_size chunk_overlap w with
      | (Raise e, w) => (Raise e, w)
      | (Return n_chunks, w) =>
          (Return ("🔄 Updated document " +:+ doc_id +:+ " with "
                   +:+ str_of_int n_chunks +:+ " chunks from new file."), w)
      end
  | None =>
      if truthy (strip new_text) then
        let tmp_path := mktemp E (w_tmps w) in
        let w :=
          set_tmps (set_fs w (<[tmp_path := new_text]> (w_fs w))) (S (w_tmps w)) in
        match reindex_document E doc_id (Some tmp_path)
                chunk_size chunk_overlap w with
        | (Raise e, w) => (Raise e, w)
        | (Return n_chunks, w) =>
            let w := set_fs w (delete tmp_path (w_fs w)) in
            (Return ("🔄 Updated document " +:+ doc_id +:+ " with "
                     +:+ str_of_int n_chunks +:+ " chunks from new text."), w)
        end
      else (Return "❌ No new content provided.", w)
  end.

(** *** Specification-side definitions *)

(** The supply of [uuid4] values is fresh from the [k]-th on: no two of
    them are equal and none is the id of a stored row. *)
Definition fresh_uuids (E : env) (k : nat) (d : db) : Prop :=
  (forall i j, (k <= i)%nat -> (k <= j)%nat -> uuid4 E i = uuid4 E j -> i = j) /\
  (forall j x, (k <= j)%nat -> In x (documents d) -> d_id x <> uuid4 E j) /\
  (forall j c, (k <= j)%nat -> In c (chunks d) -> c_id c <> uuid4 E j).

(** What a row says besides its id. *)
Definition row_content (c : chunk) : string * Z * string * embedding :=
  (c_document_id c, c_chunk_index c, c_text c, c_embedding c).

(** A string without an opening parenthesis. *)
Fixpoint no_paren (s : string) : bool :=
  match s with
  | EmptyString => true
  | String c s' => negb (c =? "(")%char && no_paren s'
  end.

(** A world with one file of five words and nothing stored. *)
Definition notes_world : world :=
  World (Db [] []) (<["docs/notes.txt" := "one two  three four five"]> ∅) 0 0.

(** Two documents, with titles that differ and ids without
    parenthesis. *)
Definition two_docs_world : world :=
  World
    (Db [Document "id-1" "notes" (Some "notes.txt") "2024-12-31 23:59:59";
         Document "id-2" "notes (old)" None "2024-12-31 23:59:59"]
        [Chunk "c-1" "id-1" 0 "one" [0%float; 1%float]])
    (<["fresh.txt" := "new words"]> ∅) 0 0.

(** The part of a string after its last opening parenthesis (the whole
    string when it has none). *)
Fixpoint after_last_paren (s : string) : string :=
  match s with
  | EmptyString => EmptyString
  | String c s' =>
      if no_paren s' then (if (c =? "(")%char then s' else s)
      else after_last_paren s'
  end.

(** A store that satisfies the constraints of the schema: the ids of the
    documents and of the chunks are primary keys, and every chunk
    references a stored document. *)
Definition wellformed (d : db) : Prop :=
  List.NoDup (map d_id (documents d)) /\
  List.NoDup (map c_id (chunks d)) /\
  forall c, In c (chunks d) -> known_document (c_document_id c) d = true.

End StoreOps.

(** ** The uploader (uploader.py)

    [upload_table] reads a table and sends its rows to a remote table in
    batches of [BATCH_SIZE], trying each batch up to [MAX_RETRIES] times.
    The remote service is an oracle: the outcome of its [n]-th call is
    [service n]; a call that is not [Accepted] stores nothing.  The state
    counts the calls, the sleeps and the batches given up, and keeps the
    rows stored remotely and the row counts of the progress lines. *)
Module Uploader.
Import PyStr.

Definition BATCH_SIZE : nat := 50.
Definition MAX_RETRIES : nat := 5.

(** What [supabase.table(...).insert(records).execute()] does: it returns,
    raises [httpx.HTTPError], or raises something else. *)
Inductive outcome : Type :=
  | Accepted
  | HTTPError
  | Failed (e : exn).

(** [range(start, stop, step)] for a positive step. *)
Fixpoint range_loop (fuel i stop step : nat) : list nat :=
  match fuel with
  | O => []
  | S fuel' =>
      if (i <? stop)%nat then i :: range_loop fuel' (i + step) stop step
      else []
  end.

Definition range (start stop step : nat) : list nat :=
  range_loop stop start stop step.

Section Upload.
Context {V : Type}.

(** [dict(pairs)]: a later pair with the same key replaces an earlier
    one. *)
Definition dict (pairs : list (string * V)) : gmap string V :=
  fold_left (fun m kv => <[fst kv := snd kv]> m) pairs ∅.

Record remote : Type := Remote {
  r_calls : nat;
  r_rows : list (gmap string V);
  r_sleeps : nat;
  r_skipped : nat;
  r_progress : list nat
}.

Definition called (r : remote) : remote :=
  Remote (S (r_calls r)) (r_rows r) (r_sleeps r) (r_skipped r) (r_progress r).
Definition stored (r : remote) (records : list (gmap string V)) : remote :=
  Remote (r_calls r) (r_rows r ++ records) (r_sleeps r) (r_skipped r)
         (r_progress r).
Definition slept (r : remote) : remote :=
  Remote (r_calls r) (r_rows r) (S (r_sleeps r)) (r_skipped r) (r_progress r).
Definition skipped (r : remote) : remote :=
  Remote (r_calls r) (r_rows r) (r_sleeps r) (S (r_skipped r)) (r_progress r).
Definition reported (r : remote) (n : nat) : remote :=
  Remote (r_calls r) (r_rows r) (r_sleeps r) (r_skipped r) (r_progress r ++ [n]).

Variable service : nat -> outcome.

(** [for attempt in range(MAX_RETRIES)]: [break] on success, sleep or
    give up on [HTTPError], anything else propagates. *)
Fixpoint attempt_loop (attempts : list nat) (records : list (gmap string V))
         (r : remote) : result unit * remote :=
  match attempts with
  | [] => (Return tt, r)
  | attempt :: rest =>
      match service (r_calls r) with
      | Accepted => (Return tt, stored (called r) records)
      | Failed e => (Raise e, called r)
      | HTTPError =>
          if (attempt <? MAX_RETRIES - 1)%nat
          then attempt_loop rest records (slept (called r))
          else attempt_loop rest records (skipped (called r))
      end
  end.

Definition records_of (columns : list string) (batch : list (list V))
  : list (gmap string V) :=
  map (fun row => dict (combine columns row)) batch.

Definition batch_at (rows : list (list V)) (i : nat) : list (list V) :=
  slice rows (Z.of_nat i) (Z.of_nat (i + BATCH_SIZE)).

(** [for i in range(0, total, BATCH_SIZE)]. *)
Fixpoint batch_loop (columns : list string) (rows : list (list V))
         (starts : list nat) (r : remote) : result unit * remote :=
  match starts with
  | [] => (Return tt, r)
  | i :: rest =>
      let batch := batch_at rows i in
      let records := records_of columns batch in
      match attempt_loop (range 0 MAX_RETRIES 1) records r with
      | (Raise e, r) => (Raise e, r)
      | (Return _, r) =>
          batch_loop columns rows rest
            (reported r (Nat.min (i + BATCH_SIZE) (length rows)))
      end
  end.

(** [upload_table], given the columns and the rows of the table. *)
Definition upload_table (columns : list string) (rows : list (list V))
           (r : remote) : result unit * remote :=
  let total := length rows in
  batch_loop columns rows (range 0 total BATCH_SIZE) r.

(** *** Specification-side definitions *)

(** The batches, in order. *)
Definition batches (rows : list (list V)) : list (list (list V)) :=
  map (batch_at rows) (range 0 (length rows) BATCH_SIZE).

End Upload.

(** A service that accepts every call, and one whose first
    [MAX_RETRIES] calls fail. *)
Definition always_accepts (n : nat) : outcome := Accepted.
Definition down_at_first (n : nat) : outcome :=
  if (n <? MAX_RETRIES)%nat then HTTPError else Accepted.

(** The number of batches of [total] rows. *)
Definition batch_count (total : nat) : nat :=
  ((total + BATCH_SIZE - 1) / BATCH_SIZE)%nat.

End Uploader.

(* ================================================================== *)
(** * Part II: properties                                              *)
(* ================================================================== *)

(** ** Strings: [split], [join] and [strip] *)
Module PyStrFacts.
Import PyStr.

Lemma truthy_false s : truthy s = false -> s = EmptyString.
Proof. destruct s; simpl; congruence. Qed.

Lemma append_nil_l s : EmptyString +:+ s = s.
Proof. reflexivity. Qed.

Lemma append_cons c a b : String c a +:+ b = String c (a +:+ b).
Proof. reflexivity. Qed.

Lemma truthy_app_r a b : truthy b = true -> truthy (a +:+ b) = true.
Proof. destruct a; [rewrite append_nil_l|rewrite append_cons]; auto. Qed.

Lemma is_word_truthy w : is_word w = true -> truthy w = true.
Proof. unfold is_word. intros H. apply andb_true_iff in H. tauto. Qed.

Lemma is_word_nonspace w : is_word w = true -> nonspace w = true.
Proof. unfold is_word. intros H. apply andb_true_iff in H. tauto. Qed.

(** What [split_from] returns: a pending word without white space, and
    complete words. *)
Lemma split_from_words s :
  nonspace (fst (split_from s)) = true /\
  Forall (fun w => is_word w = true) (snd (split_from s)).
Proof.
  induction s as [|c s [IHw IHws]]; simpl; [auto|].
  destruct (split_from s) as [w ws]; simpl in *.
  destruct (is_space c) eqn:Hc; simpl.
  - split; [reflexivity|]. unfold push_word.
    destruct (truthy w) eqn:Hw; [|assumption].
    constructor; [|assumption]. unfold is_word. now rewrite Hw, IHw.
  - rewrite Hc, IHw. auto.
Qed.

(** Every element of [s.split()] is a word. *)
Lemma split_words s : Forall (fun w => is_word w = true) (split s).
Proof.
  unfold split. pose proof (split_from_words s) as [Hw Hws].
  destruct (split_from s) as [w ws]; simpl in *. unfold push_word.
  destruct (truthy w) eqn:E; [|assumption].
  constructor; [|assumption]. unfold is_word. now rewrite E, Hw.
Qed.

Lemma split_from_app_nonspace w s :
  nonspace w = true ->
  split_from (w +:+ s) = (w +:+ fst (split_from s), snd (split_from s)).
Proof.
  induction w as [|c w IH]; simpl; intros H.
  - rewrite !append_nil_l. now destruct (split_from s).
  - apply andb_true_iff in H as [Hc Hw].
    rewrite !append_cons. simpl. rewrite (IH Hw).
    apply negb_true_iff in Hc. now rewrite Hc.
Qed.

Lemma append_empty_r s : s +:+ EmptyString = s.
Proof. induction s as [|c s IH]; [reflexivity|]. now rewrite append_cons, IH. Qed.

Lemma split_word_space w s :
  is_word w = true -> split (w +:+ " " +:+ s) = w :: split s.
Proof.
  intros H. unfold split.
  rewrite (split_from_app_nonspace _ _ (is_word_nonspace _ H)).
  rewrite append_cons, append_nil_l. simpl.
  destruct (split_from s) as [w' ws']; simpl.
  rewrite append_empty_r. unfold push_word at 1.
  now rewrite (is_word_truthy _ H).
Qed.

Lemma split_word w : is_word w = true -> split w = [w].
Proof.
  intros H. unfold split.
  rewrite <- (append_empty_r w) at 1.
  rewrite (split_from_app_nonspace _ _ (is_word_nonspace _ H)). simpl.
  rewrite append_empty_r. unfold push_word.
  now rewrite (is_word_truthy _ H).
Qed.

(** [split] undoes [" ".join] on a list of words. *)
Lemma split_join ws :
  Forall (fun w => is_word w = true) ws -> split (join " " ws) = ws.
Proof.
  induction 1 as [|w ws Hw Hws IH]; [reflexivity|].
  destruct ws as [|w2 ws].
  - simpl. now apply split_word.
  - change (join " " (w :: w2 :: ws)) with (w +:+ " " +:+ join " " (w2 :: ws)).
    rewrite split_word_space by assumption. now rewrite IH.
Qed.

Lemma lstrip_id s :
  match s with EmptyString => True | String c _ => is_space c = false end ->
  lstrip s = s.
Proof. destruct s; simpl; [auto|]. now intros ->. Qed.

Lemma rstrip_id s : last_nonspace s = true -> rstrip s = s.
Proof.
  induction s as [|c s IH]; simpl; [discriminate|].
  destruct (truthy s) eqn:Hs.
  - intros H. rewrite (IH H), Hs. simpl. now rewrite andb_false_r.
  - intros H. apply truthy_false in Hs. subst s. simpl.
    apply negb_true_iff in H. now rewrite H.
Qed.

Lemma last_nonspace_app a b :
  truthy b = true -> last_nonspace (a +:+ b) = last_nonspace b.
Proof.
  intros Hb. induction a as [|c a IH]; simpl; [reflexivity|].
  now rewrite truthy_app_r.
Qed.

Lemma word_last_nonspace w : is_word w = true -> last_nonspace w = true.
Proof.
  unfold is_word. induction w as [|c w IH]; simpl; [discriminate|].
  intros H. apply andb_true_iff in H as [Hc Hw].
  destruct (truthy w) eqn:E; [|assumption]. apply IH. rewrite ?E. exact Hw.
Qed.

Lemma join_cons2 w w2 ws :
  join " " (w :: w2 :: ws) = w +:+ " " +:+ join " " (w2 :: ws).
Proof. reflexivity. Qed.

Lemma join_truthy w ws :
  is_word w = true -> truthy (join " " (w :: ws)) = true.
Proof.
  intros H. destruct ws as [|w2 ws].
  - simpl. now apply is_word_truthy.
  - rewrite join_cons2. apply is_word_truthy in H.
    destruct w; simpl in *; congruence.
Qed.

Lemma join_last_nonspace ws :
  ws <> [] -> Forall (fun w => is_word w = true) ws ->
  last_nonspace (join " " ws) = true.
Proof.
  intros Hne H. induction H as [|w ws Hw Hws IH]; [congruence|].
  destruct ws as [|w2 ws].
  - simpl. now apply word_last_nonspace.
  - inversion Hws; subst.
    rewrite join_cons2, last_nonspace_app by reflexivity.
    rewrite last_nonspace_app by now apply join_truthy.
    apply IH. discriminate.
Qed.

(** [strip] leaves a joined non-empty list of words unchanged. *)
Lemma strip_join ws :
  ws <> [] -> Forall (fun w => is_word w = true) ws ->
  strip (join " " ws) = join " " ws.
Proof.
  intros Hne H. unfold strip. rewrite lstrip_id.
  - apply rstrip_id. now apply join_last_nonspace.
  - destruct H as [|w ws Hw Hws]; [congruence|].
    assert (Hc : match w with
                 | EmptyString => False
                 | String c _ => is_space c = false end).
    { unfold is_word in Hw. destruct w; simpl in *; [discriminate|].
      apply andb_true_iff in Hw as [Hc _]. now apply negb_true_iff in Hc. }
    destruct ws as [|w2 ws].
    + simpl. destruct w; [contradiction|assumption].
    + rewrite join_cons2. destruct w; [contradiction|assumption].
Qed.

(** [text.strip()] is empty exactly when [text] is white space only. *)
Lemma lstrip_whitespace s : whitespace_only s = true <-> lstrip s = EmptyString.
Proof.
  induction s as [|c s IH]; simpl; [tauto|].
  destruct (is_space c); simpl; [assumption|]. split; discriminate.
Qed.

Lemma rstrip_truthy s : truthy s = true -> lstrip s = s -> truthy (rstrip s) = true.
Proof.
  destruct s as [|c s]; simpl; [discriminate|].
  intros _. destruct (is_space c) eqn:Hc; simpl.
  - intros H. exfalso.
    assert (Hl : forall t, (String.length (lstrip t) <= String.length t)%nat).
    { induction t as [|d t IHt]; simpl; [lia|].
      destruct (is_space d); simpl; lia. }
    specialize (Hl s). rewrite H in Hl. simpl in Hl. lia.
  - reflexivity.
Qed.

Lemma lstrip_idempotent s : lstrip (lstrip s) = lstrip s.
Proof.
  induction s as [|c s IH]; simpl; [reflexivity|].
  destruct (is_space c) eqn:Hc; [assumption|]. simpl. now rewrite Hc.
Qed.

Lemma strip_empty_iff s : strip s = EmptyString <-> whitespace_only s = true.
Proof.
  rewrite lstrip_whitespace. unfold strip. split.
  - intros H. destruct (truthy (lstrip s)) eqn:E.
    + pose proof (rstrip_truthy _ E (lstrip_idempotent s)) as Ht.
      rewrite H in Ht. discriminate.
    + now apply truthy_false.
  - now intros ->.
Qed.

End PyStrFacts.

Module ChunkerFacts.
Import PyStr PyStrFacts Chunker.

Abbreviation words_ok ws := (Forall (fun w => is_word w = true) ws).

Lemma len_nonneg {A} (l : list A) : 0 <= len l.
Proof. unfold len. lia. Qed.

Lemma clamp_index_in_range n k : 0 <= k <= n -> clamp_index n k = k.
Proof. unfold clamp_index. intros H. destruct (Z.ltb_spec k 0); lia. Qed.

Lemma slice_in_range {A} (l : list A) s e :
  0 <= s <= e -> e <= len l ->
  slice l s e = firstn (Z.to_nat (e - s)) (skipn (Z.to_nat s) l).
Proof.
  intros Hs He. unfold slice.
  now rewrite !clamp_index_in_range by lia.
Qed.

Lemma length_slice {A} (l : list A) s e :
  0 <= s <= e -> e <= len l -> length (slice l s e) = Z.to_nat (e - s).
Proof.
  intros Hs He. rewrite slice_in_range by assumption.
  rewrite length_firstn, length_skipn. unfold len in He. lia.
Qed.

Lemma slice_words_ok ws s e : words_ok ws -> words_ok (slice ws s e).
Proof.
  intros H. unfold slice. apply Forall_take. now apply Forall_drop.
Qed.

Lemma window_end_bounds n size s :
  0 < size -> s < n -> s < window_end n size s <= n.
Proof. unfold window_end. lia. Qed.

(** Inside the loop a window is never empty, so [strip] changes nothing
    and the chunk is appended. *)
Lemma window_text_join words s e :
  words_ok words -> 0 <= s < e -> e <= len words ->
  window_text words s e = join " " (slice words s e) /\
  truthy (window_text words s e) = true /\
  split (window_text words s e) = slice words s e.
Proof.
  intros Hw Hs He. unfold window_text.
  pose proof (slice_words_ok _ s e Hw) as Hsl.
  assert (Hlen : length (slice words s e) = Z.to_nat (e - s))
    by (apply length_slice; lia).
  destruct (slice words s e) as [|w ws] eqn:E; [simpl in Hlen; lia|].
  rewrite strip_join by (assumption || discriminate).
  repeat split.
  - apply join_truthy. now inversion Hsl.
  - now apply split_join.
Qed.

(** The loop appends the texts of the windows of [window_loop]. *)
Lemma chunk_loop_windows words size step :
  words_ok words -> 0 < size -> 0 <= step ->
  forall fuel start acc, 0 <= start ->
    chunk_loop fuel words (len words) size step start acc =
    option_map (fun ws => acc ++ map (fun w => join " " (window_words words w)) ws)
               (window_loop fuel (len words) size step start).
Proof.
  intros Hw Hsize Hstep. induction fuel as [|fuel IH]; intros start acc Hs.
  - reflexivity.
  - simpl. destruct (Z.ltb_spec start (len words)) as [Hlt|Hge].
    + pose proof (window_end_bounds _ _ _ Hsize Hlt) as Hb.
      destruct (window_text_join words start (window_end (len words) size start))
        as (Htxt & Htr & _); [assumption|lia|lia|].
      rewrite Htr, Htxt.
      destruct (Z.eqb_spec (window_end (len words) size start) (len words)).
      * reflexivity.
      * rewrite IH by lia.
        destruct (window_loop fuel (len words) size step (start + step));
          simpl; [|reflexivity].
        now rewrite <- app_assoc.
    + simpl. now rewrite app_nil_r.
Qed.

(** With a step of at least one the loop ends within [n - start + 1]
    iterations. *)
Lemma window_loop_terminates n size step :
  1 <= step ->
  forall fuel start,
    (Z.to_nat (n - start) < fuel)%nat ->
    exists ws, window_loop fuel n size step start = Some ws.
Proof.
  intros Hstep. induction fuel as [|fuel IH]; intros start Hf; [lia|].
  simpl. destruct (Z.ltb_spec start n); [|eauto].
  destruct (Z.eqb_spec (window_end n size start) n); [eauto|].
  destruct (IH (start + step)) as [ws Hws]; [lia|].
  rewrite Hws. simpl. eauto.
Qed.

Lemma normalize_overlap_lt size overlap :
  0 < size -> normalize_overlap size overlap < size.
Proof.
  intros H. unfold normalize_overlap.
  destruct (Z.geb_spec overlap size); [|lia].
  assert (0 <= size / 4 < size); [|lia].
  split; [apply Z.div_pos; lia|apply Z.div_lt; lia].
Qed.

Lemma normalize_overlap_small size overlap :
  overlap < size -> normalize_overlap size overlap = overlap.
Proof. unfold normalize_overlap. destruct (Z.geb_spec overlap size); lia. Qed.

Lemma normalize_overlap_clamped size overlap :
  0 < size -> size <= overlap -> normalize_overlap size overlap = size / 4.
Proof.
  intros H Hov. unfold normalize_overlap.
  destruct (Z.geb_spec overlap size); [|lia].
  assert (0 <= size / 4) by (apply Z.div_pos; lia). lia.
Qed.

(** [chunk_text] in terms of the windows: for a positive size it returns
    the joined words of each window of [chunk_windows]. *)
Lemma chunk_text_windows text size overlap :
  0 < size ->
  chunk_text text size overlap =
  Return (map (fun w => join " " (window_words (split text) w))
              (chunk_windows text size overlap)).
Proof.
  intros Hsize. unfold chunk_text, chunk_windows.
  destruct (Z.leb_spec size 0); [lia|].
  pose proof (normalize_overlap_lt size overlap Hsize) as Hov.
  rewrite chunk_loop_windows by (lia || apply split_words).
  destruct (window_loop_terminates (len (split text)) size
              (size - normalize_overlap size overlap) ltac:(lia)
              (S (length (split text))) 0) as [ws Hws].
  { unfold len. lia. }
  rewrite Hws. reflexivity.
Qed.

(** *** The shape of the window sequence *)

Lemma window_loop_head fuel n size step s ws :
  window_loop fuel n size step s = Some ws ->
  (n <= s /\ ws = []) \/
  (s < n /\ exists rest, ws = (s, window_end n size s) :: rest).
Proof.
  destruct fuel as [|fuel]; simpl; [discriminate|].
  destruct (Z.ltb_spec s n) as [Hlt|Hge]; [|intros [= <-]; auto].
  intros H. right. split; [assumption|].
  destruct (Z.eqb_spec (window_end n size s) n).
  - injection H as <-. eauto.
  - destruct (window_loop fuel n size step (s + step)); simpl in H;
      [|discriminate].
    injection H as <-. eauto.
Qed.

Lemma window_loop_bounds n size step :
  0 < size -> 0 <= step ->
  forall fuel s ws, 0 <= s ->
    window_loop fuel n size step s = Some ws ->
    Forall (fun w => 0 <= fst w < snd w /\ snd w <= n) ws.
Proof.
  intros Hsize Hstep. induction fuel as [|fuel IH]; intros s ws Hs;
    simpl; [discriminate|].
  destruct (Z.ltb_spec s n) as [Hlt|]; [|intros [= <-]; constructor].
  pose proof (window_end_bounds n size s Hsize Hlt) as Hb.
  destruct (Z.eqb_spec (window_end n size s) n).
  - intros [= <-]. repeat constructor; simpl; lia.
  - destruct (window_loop fuel n size step (s + step)) as [rest|] eqn:E;
      simpl; [|discriminate].
    intros [= <-]. constructor; [simpl; lia|].
    apply (IH (s + step)); [lia|assumption].
Qed.

(** Two consecutive windows: the first is full and ends before [n]; the
    second starts [step] further. *)
Lemma window_loop_adjacent n size step :
  forall fuel s ws k w1 w2,
    window_loop fuel n size step s = Some ws ->
    ws !! k = Some w1 -> ws !! S k = Some w2 ->
    snd w1 = fst w1 + size /\ snd w1 < n /\
    fst w2 = fst w1 + step /\ fst w2 < n /\
    snd w2 = window_end n size (fst w2).
Proof.
  induction fuel as [|fuel IH]; intros s ws k w1 w2; simpl; [discriminate|].
  destruct (Z.ltb_spec s n) as [Hlt|]; [|intros [= <-]; discriminate].
  destruct (Z.eqb_spec (window_end n size s) n) as [|Hne].
  { intros [= <-]. destruct k; discriminate. }
  destruct (window_loop fuel n size step (s + step)) as [rest|] eqn:E;
    simpl; [|discriminate].
  intros [= <-]. destruct k as [|k]; simpl.
  - intros [= <-] H2. simpl.
    destruct (window_loop_head _ _ _ _ _ _ E) as [[_ ->]|[Hlt' [r ->]]];
      [discriminate|].
    injection H2 as <-. simpl. unfold window_end in *. lia.
  - intros H1 H2. exact (IH _ _ _ _ _ E H1 H2).
Qed.

(** With a step no larger than the window the loop leaves through the
    [end == n] test: the last window ends at [n], and no index is
    skipped. *)
Lemma window_loop_last n size step :
  0 < size -> step <= size ->
  forall fuel s ws,
    window_loop fuel n size step s = Some ws -> s < n ->
    exists w, last ws = Some w /\ snd w = n.
Proof.
  intros Hsize Hstep. induction fuel as [|fuel IH]; intros s ws;
    simpl; [discriminate|].
  destruct (Z.ltb_spec s n) as [Hlt|]; [|lia].
  destruct (Z.eqb_spec (window_end n size s) n) as [He|Hne].
  { intros [= <-] _. eexists. split; [reflexivity|assumption]. }
  destruct (window_loop fuel n size step (s + step)) as [rest|] eqn:E;
    simpl; [|discriminate].
  intros [= <-] _.
  destruct (IH _ _ E) as (w & Hw & Hn); [unfold window_end in Hne; lia|].
  exists w. split; [|assumption].
  destruct rest; [discriminate|]. exact Hw.
Qed.

Lemma window_loop_cover n size step :
  0 < size -> step <= size ->
  forall fuel s ws,
    window_loop fuel n size step s = Some ws ->
    forall i, s <= i < n -> exists w, In w ws /\ fst w <= i < snd w.
Proof.
  intros Hsize Hstep. induction fuel as [|fuel IH]; intros s ws;
    simpl; [discriminate|].
  destruct (Z.ltb_spec s n) as [Hlt|]; [|intros _ i Hi; lia].
  destruct (Z.eqb_spec (window_end n size s) n) as [He|Hne].
  { intros [= <-] i Hi. eexists. split; [left; reflexivity|simpl; lia]. }
  destruct (window_loop fuel n size step (s + step)) as [rest|] eqn:E;
    simpl; [|discriminate].
  intros [= <-] i Hi.
  destruct (Z.lt_ge_cases i (window_end n size s)) as [Hin|Hout].
  - eexists. split; [left; reflexivity|simpl; lia].
  - destruct (IH _ _ E i) as (w & Hw & Hiw);
      [unfold window_end in *; lia|].
    exists w. split; [right|]; assumption.
Qed.

(** *** Reassembling the words from the chunks *)

Lemma window_words_in_range words w :
  0 <= fst w <= snd w -> snd w <= len words ->
  window_words words w =
  firstn (Z.to_nat (snd w - fst w)) (skipn (Z.to_nat (fst w)) words).
Proof. intros. unfold window_words. now apply slice_in_range. Qed.

Lemma window_loop_reassemble words size ov :
  0 <= ov < size ->
  forall fuel s ws, 0 <= s ->
    window_loop fuel (len words) size (size - ov) s = Some ws ->
    flat_map (fun w => skipn (Z.to_nat ov) (window_words words w)) ws =
    skipn (Z.to_nat (s + ov)) words.
Proof.
  intros Hov. induction fuel as [|fuel IH]; intros s ws Hs;
    simpl; [discriminate|].
  destruct (Z.ltb_spec s (len words)) as [Hlt|Hge].
  2:{ intros [= <-]. simpl. symmetry. apply skipn_all2. unfold len in Hge. lia. }
  pose proof (window_end_bounds (len words) size s ltac:(lia) Hlt) as Hb.
  destruct (Z.eqb_spec (window_end (len words) size s) (len words)) as [He|Hne].
  - intros [= <-]. simpl. rewrite app_nil_r, He.
    rewrite window_words_in_range by (simpl; lia). simpl.
    rewrite firstn_all2 by (rewrite length_skipn; unfold len; lia).
    rewrite skipn_skipn. f_equal. lia.
  - destruct (window_loop fuel (len words) size (size - ov) (s + (size - ov)))
      as [rest|] eqn:E; simpl; [|discriminate].
    intros [= <-]. simpl.
    assert (Hs' : 0 <= s + (size - ov)) by lia.
    rewrite (IH _ _ Hs' E).
    assert (Hend : window_end (len words) size s = s + size)
      by (unfold window_end in *; lia).
    rewrite window_words_in_range by (simpl; lia). simpl. rewrite Hend.
    rewrite skipn_firstn_comm, skipn_skipn.
    replace (Z.to_nat (s + (size - ov) + ov))
      with (Z.to_nat (s + size - s) - Z.to_nat ov + (Z.to_nat ov + Z.to_nat s))%nat
      by lia.
    rewrite <- skipn_skipn with (x := (Z.to_nat (s + size - s) - Z.to_nat ov)%nat).
    rewrite firstn_skipn. f_equal. lia.
Qed.

Lemma flat_map_map {A B C} (f : A -> B) (g : B -> list C) (l : list A) :
  flat_map g (map f l) = flat_map (fun x => g (f x)) l.
Proof. induction l as [|x l IH]; simpl; [reflexivity|]. now rewrite IH. Qed.

Lemma split_window words w :
  words_ok words -> split (join " " (window_words words w)) = window_words words w.
Proof. intros H. apply split_join. now apply slice_words_ok. Qed.

Lemma len_zero {A} (l : list A) : len l <= 0 -> l = [].
Proof. destruct l; [reflexivity|]. unfold len. simpl. lia. Qed.

Lemma firstn_min_length {A} (k : nat) (l : list A) :
  firstn (Nat.min k (length l)) l = firstn k l.
Proof.
  destruct (Nat.le_gt_cases k (length l)) as [H|H].
  - now rewrite Nat.min_l.
  - rewrite Nat.min_r by lia. now rewrite firstn_all, firstn_all2 by lia.
Qed.

(** The chunks of [chunk_text], put back together, are the words of the
    text. *)
Lemma chunk_windows_reassemble text size ov :
  0 <= ov < size ->
  reassemble (Z.to_nat ov)
    (map (fun w => join " " (window_words (split text) w))
         (chunk_windows text size ov)) = split text.
Proof.
  intros Hov. unfold chunk_windows.
  rewrite normalize_overlap_small by lia.
  pose proof (split_words text) as Hw.
  set (words := split text) in *.
  destruct (window_loop (S (length words)) (len words) size (size - ov) 0)
    as [ws|] eqn:E.
  2:{ destruct (window_loop_terminates (len words) size (size - ov) ltac:(lia)
                  (S (length words)) 0) as [ws' Hws'];
        [unfold len; lia|congruence]. }
  pose proof (window_loop_reassemble words size ov Hov _ _ _ (Z.le_refl 0) E)
    as Hre.
  destruct (window_loop_head _ _ _ _ _ _ E) as [[Hn ->]|[Hlt [rest ->]]].
  - simpl. symmetry. now apply len_zero.
  - simpl in *. rewrite split_window by assumption.
    rewrite flat_map_map.
    erewrite flat_map_ext; [|intros w; rewrite split_window by assumption;
                              reflexivity].
    pose proof (window_end_bounds (len words) size 0 ltac:(lia) Hlt) as Hb.
    set (e := window_end (len words) size 0) in *.
    clear E. rewrite window_words_in_range in * by (simpl; lia).
    cbn [fst snd] in *. rewrite Z.sub_0_r, Z.add_0_l in *.
    change (Z.to_nat 0) with 0%nat in *. rewrite !drop_0 in *.
    rewrite <- (firstn_skipn (Z.to_nat ov) (firstn (Z.to_nat e) words)) at 1.
    rewrite <- app_assoc, Hre.
    rewrite firstn_firstn.
    rewrite <- (firstn_skipn (Z.to_nat ov) words) at 3. f_equal.
    destruct (Z.eq_dec e (len words)) as [He|He].
    + replace (Z.to_nat e) with (length words) by (unfold len in He; lia).
      apply firstn_min_length.
    + f_equal. unfold e, window_end in *. lia.
Qed.

(** *** Consecutive chunks share the overlap words *)

Lemma adjacent_windows_share words size ov w1 w2 :
  0 <= ov < size -> 0 <= fst w1 ->
  snd w1 = fst w1 + size -> snd w1 < len words ->
  fst w2 = fst w1 + (size - ov) ->
  snd w2 = window_end (len words) size (fst w2) ->
  lastn (Z.to_nat ov) (window_words words w1) =
  firstn (Z.to_nat ov) (window_words words w2) /\
  length (firstn (Z.to_nat ov) (window_words words w2)) = Z.to_nat ov.
Proof.
  intros Hov Hs1 He1 Hn Hs2 He2.
  assert (Hb2 : fst w2 + ov <= snd w2 <= len words)
    by (rewrite He2; unfold window_end; lia).
  unfold lastn. rewrite !window_words_in_range by lia.
  rewrite skipn_firstn_comm, skipn_skipn, firstn_firstn.
  rewrite !length_firstn, !length_skipn.
  unfold len in *. split; [|lia].
  f_equal; [lia|f_equal; lia].
Qed.

Lemma in_reassemble ov chunks w :
  In w (reassemble ov chunks) -> exists c, In c chunks /\ In w (split c).
Proof.
  unfold reassemble. destruct chunks as [|c rest]; [contradiction|].
  rewrite in_app_iff, in_flat_map. intros [H|(c' & Hc' & H)].
  - exists c. split; [now left|assumption].
  - exists c'. split; [now right|].
    rewrite <- (firstn_skipn ov (split c')). apply in_or_app. now right.
Qed.

(** C1. For a positive window size and an overlap in [0, size), the
    chunker returns, for a text of [n] words, chunks that together contain
    every word: each chunk holds the words of one window [start, end) of
    the word list, every index below [n] lies in a window, consecutive
    chunks share exactly [overlap] words (the last ones of the earlier
    chunk are the first ones of the later), dropping the shared words and
    concatenating gives the word list back, and the last window ends at
    [n]. *)
Theorem chunk_text_covers_words (text : string) (size overlap : Z) :
  0 < size -> 0 <= overlap < size ->
  exists chunks,
    chunk_text text size overlap = Return chunks /\
    map split chunks =
      map (window_words (split text)) (chunk_windows text size overlap) /\
    (forall i, 0 <= i < len (split text) ->
       exists w, In w (chunk_windows text size overlap) /\
                 fst w <= i < snd w) /\
    (forall w, In w (split text) ->
       exists c, In c chunks /\ In w (split c)) /\
    (forall k c1 c2, chunks !! k = Some c1 -> chunks !! S k = Some c2 ->
       lastn (Z.to_nat overlap) (split c1) =
         firstn (Z.to_nat overlap) (split c2) /\
       length (firstn (Z.to_nat overlap) (split c2)) = Z.to_nat overlap) /\
    reassemble (Z.to_nat overlap) chunks = split text /\
    (0 < len (split text) ->
       exists w, last (chunk_windows text size overlap) = Some w /\
                 snd w = len (split text)).
Proof.
  intros Hsize Hov. eexists. split; [apply chunk_text_windows; lia|].
  pose proof (split_words text) as Hw.
  pose proof (chunk_windows_reassemble text size overlap Hov) as Hre.
  assert (Hsplit :
    map split (map (fun w => join " " (window_words (split text) w))
                   (chunk_windows text size overlap)) =
    map (window_words (split text)) (chunk_windows text size overlap)).
  { rewrite map_map. apply map_ext. intros w. now apply split_window. }
  unfold chunk_windows in *.
  rewrite normalize_overlap_small in * by lia.
  set (words := split text) in *.
  destruct (window_loop_terminates (len words) size (size - overlap)
              ltac:(lia) (S (length words)) 0) as [ws E];
    [unfold len; lia|].
  rewrite E in *.
  assert (Hstep0 : 0 <= size - overlap) by lia.
  assert (Hstep1 : size - overlap <= size) by lia.
  pose proof (window_loop_bounds _ _ _ Hsize Hstep0 _ _ _ (Z.le_refl 0) E)
    as Hbounds.
  split; [assumption|]. split; [|split; [|split; [|split]]].
  - intros i Hi.
    apply (window_loop_cover _ _ _ Hsize Hstep1 _ _ _ E). lia.
  - intros w Hin. apply (in_reassemble (Z.to_nat overlap)).
    now rewrite Hre.
  - intros k c1 c2 H1 H2.
    rewrite list_lookup_fmap in H1, H2.
    destruct (ws !! k) as [w1|] eqn:E1; [|discriminate].
    destruct (ws !! S k) as [w2|] eqn:E2; [|discriminate].
    injection H1 as <-. injection H2 as <-.
    rewrite !split_window by assumption.
    destruct (window_loop_adjacent _ _ _ _ _ _ _ _ _ E E1 E2)
      as (He1 & Hn & Hs2 & _ & He2).
    apply (adjacent_windows_share words size overlap); try assumption.
    apply list_elem_of_lookup_2 in E1.
    rewrite Forall_forall in Hbounds. apply Hbounds in E1. lia.
  - exact Hre.
  - intros Hn. now apply (window_loop_last _ _ _ Hsize Hstep1 _ _ _ E).
Qed.

Lemma chunk_text_covers_words_witness :
  0 < 3 /\ 0 <= 1 < 3 /\
  exists chunks,
    chunk_text "a b c d e f g h" 3 1 = Return chunks /\
    reassemble 1 chunks = ["a"; "b"; "c"; "d"; "e"; "f"; "g"; "h"]%string.
Proof.
  split; [lia|]. split; [lia|].
  destruct (chunk_text_covers_words "a b c d e f g h" 3 1)
    as (chunks & Hc & _ & _ & _ & _ & Hre & _); [lia|lia|].
  exists chunks. split; [exact Hc|exact Hre].
Defined.

(** C2. The worked example of the specification: the text of eight
    one-letter words, window size 3 and overlap 1. *)
Example chunk_text_abc :
  chunk_text "a b c d e f g h" 3 1 = Return ["a b c"; "c d e"; "e f g"; "g h"].
Proof. vm_compute. reflexivity. Qed.

(** *** Errors and the normalisation of the overlap *)

Lemma chunk_text_returns text size overlap :
  0 < size -> exists chunks, chunk_text text size overlap = Return chunks.
Proof. intros H. eexists. now apply chunk_text_windows. Qed.

Lemma chunk_text_raises text size overlap :
  size <= 0 ->
  chunk_text text size overlap = Raise (ValueError "chunk_size_words must be > 0").
Proof. intros H. unfold chunk_text. destruct (Z.leb_spec size 0); [reflexivity|lia]. Qed.

(** C3. The chunker raises exactly when the window size is not positive
    (and then it is the [ValueError] of the size check).  For a positive
    size, an overlap of at least the size is replaced by [size // 4]: the
    call returns what the call with overlap [size // 4] returns, it does
    not raise, and the step is at least 1. *)
Theorem chunk_text_error_iff (text : string) (size overlap : Z) :
  ((exists e, chunk_text text size overlap = Raise e) <-> size <= 0) /\
  (size <= 0 ->
     chunk_text text size overlap =
     Raise (ValueError "chunk_size_words must be > 0")) /\
  (0 < size -> size <= overlap ->
     chunk_text text size overlap = chunk_text text size (size / 4) /\
     (exists chunks, chunk_text text size overlap = Return chunks) /\
     normalize_overlap size overlap = size / 4 /\
     1 <= size - normalize_overlap size overlap).
Proof.
  split; [|split].
  - split.
    + intros [e He]. destruct (Z.le_gt_cases size 0) as [|Hpos]; [assumption|].
      destruct (chunk_text_returns text size overlap) as [cs Hcs]; [lia|].
      congruence.
    + intros H. eexists. now apply chunk_text_raises.
  - apply chunk_text_raises.
  - intros Hsize Hov.
    pose proof (normalize_overlap_lt size overlap Hsize) as Hlt.
    pose proof (normalize_overlap_clamped size overlap Hsize Hov) as Hcl.
    split; [|split; [now apply chunk_text_returns|split; [assumption|lia]]].
    unfold chunk_text. rewrite Hcl.
    rewrite (normalize_overlap_small size (size / 4)) by lia. reflexivity.
Qed.

Lemma chunk_text_error_iff_witness :
  chunk_text "a b c d e f g h" 3 7 = chunk_text "a b c d e f g h" 3 (3 / 4) /\
  chunk_text "a b c" 0 0 = Raise (ValueError "chunk_size_words must be > 0").
Proof.
  destruct (chunk_text_error_iff "a b c d e f g h" 3 7) as (_ & _ & H).
  destruct (chunk_text_error_iff "a b c" 0 0) as (_ & H0 & _).
  split; [apply H; lia|apply H0; lia].
Defined.

(** *** Negative overlap *)





End ChunkerFacts.

(** ** The document store *)
Module StoreFacts.
Import PyStr PyStrFacts Chunker ChunkerFacts Store.

Lemma fresh_rows_index E d idx pieces k :
  map c_chunk_index (fresh_rows E d idx pieces k) =
  map (fun i => idx + Z.of_nat i) (seq 0 (length pieces)).
Proof.
  revert idx k. induction pieces as [|p ps IH]; intros idx k; simpl;
    [reflexivity|].
  rewrite IH, <- seq_shift, map_map. f_equal; [f_equal; lia|].
  apply map_ext. intros i. lia.
Qed.

Lemma fresh_rows_text E d idx pieces k :
  map c_text (fresh_rows E d idx pieces k) = pieces.
Proof.
  revert idx k. induction pieces as [|p ps IH]; intros idx k; simpl;
    [reflexivity|]. now rewrite IH.
Qed.

Lemma fresh_rows_length E d idx pieces k :
  length (fresh_rows E d idx pieces k) = length pieces.
Proof. now rewrite <- (length_map c_text), fresh_rows_text. Qed.

Lemma fresh_rows_document E d idx pieces k :
  List.Forall (fun c => c_document_id c = d) (fresh_rows E d idx pieces k).
Proof.
  revert idx k. induction pieces as [|p ps IH]; intros idx k; simpl;
    constructor; [reflexivity|apply IH].
Qed.

(** A successful embedding loop appends exactly the rows of
    [fresh_rows]. *)
Lemma insert_chunks_return E d pieces :
  forall idx k tx tx' k',
    insert_chunks E d idx pieces k tx = (Return tx', k') ->
    chunks tx' = chunks tx ++ fresh_rows E d idx pieces k /\
    documents tx' = documents tx /\
    k' = (k + length pieces)%nat.
Proof.
  induction pieces as [|p ps IH]; intros idx k tx tx' k'; simpl.
  - intros [= <- <-]. rewrite app_nil_r. auto with arith.
  - destruct (insert_chunk _ tx) as [tx1|e] eqn:Hins; [|discriminate].
    intros H. apply IH in H as (Hc & Hd & Hk).
    unfold insert_chunk in Hins.
    destruct (existsb _ (chunks tx)); [discriminate|].
    destruct (existsb _ (documents tx)); [|discriminate].
    injection Hins as <-. simpl in *.
    rewrite Hc, <- app_assoc. simpl. repeat split; [assumption|lia].
Qed.

Lemma filter_document_fresh E d idx pieces k :
  List.filter (fun c => (c_document_id c =? d)%string) (fresh_rows E d idx pieces k)
  = fresh_rows E d idx pieces k.
Proof.
  revert idx k. induction pieces as [|p ps IH]; intros idx k; simpl;
    [reflexivity|].
  rewrite String.eqb_refl. now rewrite IH.
Qed.

Lemma filter_document_others d (l : list chunk) :
  List.filter (fun c => (c_document_id c =? d)%string)
         (List.filter (fun c => negb (c_document_id c =? d)%string) l) = [].
Proof.
  induction l as [|c l IH]; simpl; [reflexivity|].
  destruct (c_document_id c =? d)%string eqn:E; simpl; [assumption|].
  now rewrite E.
Qed.

Lemma seq_index_NoDup n : List.NoDup (map Z.of_nat (seq 0 n)).
Proof.
  apply Finite.Injective_map_NoDup; [|apply seq_NoDup].
  intros a b. apply Nat2Z.inj.
Qed.

(** C4. After a successful [reindex_document] the rows stored for the
    document are exactly the rows built from the chunks of the text just
    read: their number is the returned count, their [chunk_index] values
    are 0, 1, ..., count-1 in this order (so without gap or duplicate), and
    the table consists of the rows of the other documents followed by
    these rows, so no earlier row of the document is left. *)
Theorem reindex_leaves_one_run (E : env) (document_id : string)
        (new_file_path : option string) (size overlap : Z)
        (w w' : world) (n : Z) :
  reindex_document E document_id new_file_path size overlap w = (Return n, w') ->
  len (chunks_of document_id (w_db w')) = n /\
  map c_chunk_index (chunks_of document_id (w_db w')) =
    map Z.of_nat (seq 0 (Z.to_nat n)) /\
  List.NoDup (map c_chunk_index (chunks_of document_id (w_db w'))) /\
  (exists path text pieces,
     w_fs w !! path = Some text /\
     chunk_text text size overlap = Return pieces /\
     chunks_of document_id (w_db w') =
       fresh_rows E document_id 0 pieces (w_uuids w)) /\
  chunks (w_db w') =
    chunks_not_of document_id (w_db w) ++ chunks_of document_id (w_db w') /\
  documents (w_db w') = documents (w_db w).
Proof.
  unfold reindex_document. intros H.
  destruct (match new_file_path with
            | Some p => Return (Some p)
            | None => _ end) as [[path|]|e]; try discriminate.
  destruct (w_fs w !! path) as [text|] eqn:Hfs; [|discriminate].
  destruct (chunk_text text size overlap) as [pieces|e] eqn:Hct; [|discriminate].
  destruct (insert_chunks E document_id 0 pieces (w_uuids w)
              (delete_chunks document_id (w_db w))) as [[tx|e] k] eqn:Hins;
    [|discriminate].
  injection H as <- <-. simpl.
  apply insert_chunks_return in Hins as (Hc & Hd & Hk). simpl in Hc, Hd.
  assert (Hrows : chunks_of document_id tx =
                  fresh_rows E document_id 0 pieces (w_uuids w)).
  { unfold chunks_of. rewrite Hc, List.filter_app, filter_document_others.
    apply filter_document_fresh. }
  rewrite Hrows. unfold len. rewrite fresh_rows_length, fresh_rows_index.
  rewrite Nat2Z.id. simpl.
  repeat split; [apply seq_index_NoDup| |assumption|assumption].
  exists path, text, pieces. auto.
Qed.

Lemma reindex_leaves_one_run_witness :
  exists w',
    reindex_document demo_env "doc-1" None 2 0 stale_world = (Return 2, w') /\
    map c_chunk_index (chunks_of "doc-1" (w_db w')) = [0; 1] /\
    map c_text (chunks (w_db w')) = ["other text"; "hello world"; "again"]%string.
Proof.
  pose (r := reindex_document demo_env "doc-1" None 2 0 stale_world).
  assert (Hr : r = (Return 2, snd r)) by (vm_compute; reflexivity).
  exists (snd r). split; [exact Hr|].
  destruct (reindex_leaves_one_run _ _ _ _ _ _ _ _ Hr) as (_ & Hidx & _).
  split; [exact Hidx|]. vm_compute. reflexivity.
Defined.

(** *** Errors of [reindex_document] *)

(** Without a new file, an unknown id is reported as such. *)
Lemma reindex_stored_path_unknown E d size overlap w :
  known_document d (w_db w) = false ->
  reindex_document E d None size overlap w =
  (Raise (ValueError "document_id not found"), w).
Proof.
  unfold known_document, reindex_document, select_path. intros H.
  assert (Hf : List.filter (fun x => (d_id x =? d)%string) (documents (w_db w)) = []).
  { induction (documents (w_db w)) as [|x l IH]; simpl in *; [reflexivity|].
    apply orb_false_iff in H as [Hx Hl]. rewrite Hx. now apply IH. }
  now rewrite Hf.
Qed.

(** A path that is not a file is reported as not found, whether it was
    passed in or read from the document's row. *)
Lemma reindex_missing_file E d new_file_path p size overlap w :
  match new_file_path with
  | Some q => q = p
  | None => select_path d (w_db w) = Some (Some p)
  end ->
  w_fs w !! p = None ->
  reindex_document E d new_file_path size overlap w =
  (Raise (FileNotFoundError (p +:+ " not found")), w).
Proof.
  unfold reindex_document. intros Hp Hfs.
  destruct new_file_path as [q|]; [subst q|rewrite Hp]; now rewrite Hfs.
Qed.

Lemma chunk_text_no_words text size overlap :
  0 < size -> split text = [] -> chunk_text text size overlap = Return [].
Proof.
  intros Hsize Hw. rewrite chunk_text_windows by assumption.
  unfold chunk_windows. rewrite Hw. simpl. reflexivity.
Qed.

Lemma chunk_text_some_words text size overlap :
  0 < size -> split text <> [] ->
  exists c cs, chunk_text text size overlap = Return (c :: cs).
Proof.
  intros Hsize Hw. rewrite chunk_text_windows by assumption.
  unfold chunk_windows.
  pose proof (normalize_overlap_lt size overlap Hsize) as Hov.
  destruct (window_loop_terminates (len (split text)) size
              (size - normalize_overlap size overlap) ltac:(lia)
              (S (length (split text))) 0) as [ws E]; [unfold len; lia|].
  rewrite E.
  destruct (window_loop_head _ _ _ _ _ _ E) as [[Hn ->]|[_ [rest ->]]].
  - apply len_zero in Hn. contradiction.
  - simpl. eauto.
Qed.

(** With a new file the id is not looked up.  For an id that no document
    has, the call returns 0 when the file has no words, and otherwise stops
    at the first [INSERT] with an [IntegrityError]. *)
Lemma reindex_new_file_unknown_document E d p text size overlap w :
  known_document d (w_db w) = false ->
  w_fs w !! p = Some text -> 0 < size ->
  (split text = [] ->
   reindex_document E d (Some p) size overlap w =
   (Return 0, set_db (set_uuids w (w_uuids w)) (delete_chunks d (w_db w)))) /\
  (split text <> [] ->
   exists msg w',
     reindex_document E d (Some p) size overlap w =
     (Raise (IntegrityError msg), w')).
Proof.
  intros Hd Hfs Hsize. unfold reindex_document. rewrite Hfs. split.
  - intros Hw. now rewrite chunk_text_no_words.
  - intros Hw.
    destruct (chunk_text_some_words text size overlap Hsize Hw) as (c & cs & ->).
    simpl. unfold insert_chunk. simpl.
    destruct (existsb _ (List.filter _ (chunks (w_db w)))); [eauto|].
    unfold known_document in Hd. rewrite Hd. eauto.
Qed.

(** C5 (what the code does where the claim fails). [ghost_world] has no
    document.  Re-indexing the id ghost from a new, readable file is not
    reported as an unknown document: with a file without words the call
    returns 0 and changes nothing, with a file with words it raises the
    [IntegrityError] of the foreign key.  Only the call without a new file
    raises the error of the unknown id. *)
Theorem reindex_unknown_document_new_file (E : env) :
  known_document "ghost" (w_db ghost_world) = false /\
  reindex_document E "ghost" (Some "empty.txt") 200 50 ghost_world =
    (Return 0, ghost_world) /\
  fst (reindex_document E "ghost" (Some "notes.txt") 200 50 ghost_world) =
    Raise (IntegrityError "FOREIGN KEY constraint failed") /\
  fst (reindex_document E "ghost" None 200 50 ghost_world) =
    Raise (ValueError "document_id not found").
Proof. repeat split; vm_compute; reflexivity. Qed.

(** *** Ingesting blank text *)

Lemma strip_blank text : whitespace_only text = true -> truthy (strip text) = false.
Proof. intros H. apply strip_empty_iff in H. now rewrite H. Qed.

(** C6 (as the code has it). For a text that is empty or white space
    only, ingestion from a file raises [ValueError] and ingestion of pasted
    text returns the message that no text was provided, without raising; in
    both cases the world, and so the documents table, is unchanged. *)
Theorem blank_text_creates_no_document (E : env) (text : string)
        (size overlap : Z) (w : world) :
  whitespace_only text = true ->
  (forall path title,
     w_fs w !! path = Some text ->
     add_document_from_file E path title size overlap w =
     (Raise (ValueError "File is empty"), w)) /\
  (forall title,
     add_document_from_text E text title size overlap w =
     (Return "❌ No text provided", w)).
Proof.
  intros H. apply strip_blank in H. split.
  - intros path title Hfs. unfold add_document_from_file. now rewrite Hfs, H.
  - intros title. unfold add_document_from_text. now rewrite H.
Qed.

Lemma blank_text_creates_no_document_witness :
  whitespace_only "" = true /\
  add_document_from_file demo_env "empty.txt" None 200 50 ghost_world =
    (Raise (ValueError "File is empty"), ghost_world) /\
  add_document_from_text demo_env "" "pasted_text" 200 50 ghost_world =
    (Return "❌ No text provided", ghost_world).
Proof.
  split; [reflexivity|].
  destruct (blank_text_creates_no_document demo_env "" 200 50 ghost_world
              eq_refl) as [Hfile Htext].
  split; [apply Hfile; vm_compute; reflexivity|apply Htext].
Defined.

(** C6 (the claim fails on the pasted-text path). Pasting three spaces
    does not raise: the call returns a message. *)
Lemma add_document_from_text_blank_returns :
  ~ exists e,
      fst (add_document_from_text demo_env "   " "pasted_text" 200 50 empty_world)
      = Raise e.
Proof. intros [e He]. vm_compute in He. discriminate. Qed.

End StoreFacts.

(** ** Floats: the order of the numbers, and NaN *)
Module FloatFacts.
Import Retriever.
Local Open Scope float_scope.

Ltac solve_cmp :=
  unfold key_lt; simpl;
  first [ left; split; [reflexivity|lia]
        | right; left; split; reflexivity
        | right; left; split; [reflexivity|f_equal; f_equal; lia]
        | right; right; split; [reflexivity|lia] ].

(** The comparison of two spec floats is the comparison of their keys. *)
Lemma SFcompare_key f1 f2 :
  match sf_key f1, sf_key f2 with
  | Some a, Some b =>
      (SFcompare f1 f2 = Some Lt /\ key_lt a b) \/
      (SFcompare f1 f2 = Some Eq /\ a = b) \/
      (SFcompare f1 f2 = Some Gt /\ key_lt b a)
  | _, _ => SFcompare f1 f2 = None
  end.
Proof.
  destruct f1 as [s1|s1| |s1 m1 e1], f2 as [s2|s2| |s2 m2 e2]; simpl;
    try reflexivity;
    try (destruct s1; solve_cmp);
    try (destruct s2; solve_cmp);
    try (destruct s1, s2; solve_cmp).
  destruct s1, s2; simpl; try solve_cmp.
  - destruct (Z.compare_spec e1 e2); try solve_cmp.
    change (Pos.compare_cont Eq m1 m2) with (Pos.compare m1 m2).
    destruct (Pos.compare_spec m1 m2); simpl; subst; solve_cmp.
  - destruct (Z.compare_spec e1 e2); try solve_cmp.
    change (Pos.compare_cont Eq m1 m2) with (Pos.compare m1 m2).
    destruct (Pos.compare_spec m1 m2); simpl; subst; solve_cmp.
Qed.

Lemma is_nan_key x : is_nan x = true <-> fkey x = None.
Proof.
  unfold fkey, is_nan. rewrite FloatAxioms.eqb_spec. unfold SFeqb.
  pose proof (SFcompare_key (Prim2SF x) (Prim2SF x)) as H.
  destruct (sf_key (Prim2SF x)) as [k|].
  - destruct H as [[-> H]|[[-> H]|[-> H]]]; simpl;
      [exfalso; unfold key_lt in H; lia|split; discriminate
      |exfalso; unfold key_lt in H; lia].
  - rewrite H. simpl. tauto.
Qed.

Lemma not_nan_key x : is_nan x = false -> exists k, fkey x = Some k.
Proof.
  intros H. destruct (fkey x) as [k|] eqn:E; [eauto|].
  apply is_nan_key in E. congruence.
Qed.

Lemma ltb_key x y a b :
  fkey x = Some a -> fkey y = Some b -> ((x <? y) = true <-> key_lt a b).
Proof.
  unfold fkey. intros Hx Hy. rewrite FloatAxioms.ltb_spec. unfold SFltb.
  pose proof (SFcompare_key (Prim2SF x) (Prim2SF y)) as H.
  rewrite Hx, Hy in H. unfold key_lt in *.
  destruct H as [[-> H]|[[-> H]|[-> H]]]; subst; split; try discriminate;
    try tauto; intros; lia.
Qed.

Lemma eqb_key x y a b :
  fkey x = Some a -> fkey y = Some b -> ((x =? y) = true <-> a = b).
Proof.
  unfold fkey. intros Hx Hy. rewrite FloatAxioms.eqb_spec. unfold SFeqb.
  pose proof (SFcompare_key (Prim2SF x) (Prim2SF y)) as H.
  rewrite Hx, Hy in H. unfold key_lt in *.
  destruct H as [[-> H]|[[-> H]|[-> H]]]; subst; split; try discriminate;
    try tauto; intros; subst; lia.
Qed.

Lemma leb_key x y a b :
  fkey x = Some a -> fkey y = Some b -> ((x <=? y) = true <-> ~ key_lt b a).
Proof.
  unfold fkey. intros Hx Hy. rewrite FloatAxioms.leb_spec. unfold SFleb.
  pose proof (SFcompare_key (Prim2SF x) (Prim2SF y)) as H.
  rewrite Hx, Hy in H. unfold key_lt in *.
  destruct H as [[-> H]|[[-> H]|[-> H]]]; subst; split; try discriminate;
    try tauto; intros; try lia.
Qed.

(** NaN is neither less than, nor equal to, nor greater than anything. *)
Lemma nan_unordered x y :
  is_nan x = true ->
  (x <? y) = false /\ (y <? x) = false /\ (x =? y) = false /\
  (x <=? y) = false /\ (y <=? x) = false.
Proof.
  intros H. apply is_nan_key in H. unfold fkey in H.
  rewrite !FloatAxioms.ltb_spec, !FloatAxioms.leb_spec, FloatAxioms.eqb_spec.
  unfold SFltb, SFleb, SFeqb.
  destruct (Prim2SF x); try discriminate.
  destruct (Prim2SF y); auto.
Qed.

(** On the floats that are not NaN, [<?] is a strict weak order, [=?] is
    its equivalence and [<=?] its negation the other way round. *)
Lemma ltb_trans x y z :
  is_nan x = false -> is_nan y = false -> is_nan z = false ->
  (x <? y) = true -> (y <? z) = true -> (x <? z) = true.
Proof.
  intros Hx Hy Hz.
  destruct (not_nan_key _ Hx) as [a Ha], (not_nan_key _ Hy) as [b Hb],
           (not_nan_key _ Hz) as [c Hc].
  rewrite (ltb_key _ _ _ _ Ha Hb), (ltb_key _ _ _ _ Hb Hc),
          (ltb_key _ _ _ _ Ha Hc).
  unfold key_lt. lia.
Qed.

Lemma ltb_irrefl x : (x <? x) = false.
Proof.
  destruct (is_nan x) eqn:Hx; [now apply nan_unordered|].
  destruct (not_nan_key _ Hx) as [a Ha].
  apply not_true_is_false. rewrite (ltb_key _ _ _ _ Ha Ha).
  unfold key_lt. lia.
Qed.

Lemma ltb_false_iff x y a b :
  fkey x = Some a -> fkey y = Some b -> ((x <? y) = false <-> ~ key_lt a b).
Proof.
  intros Ha Hb. rewrite <- (ltb_key _ _ _ _ Ha Hb).
  destruct (x <? y); split; congruence.
Qed.

Lemma ltb_negative_trans x y z :
  is_nan x = false -> is_nan y = false -> is_nan z = false ->
  (x <? y) = false -> (y <? z) = false -> (x <? z) = false.
Proof.
  intros Hx Hy Hz.
  destruct (not_nan_key _ Hx) as [a Ha], (not_nan_key _ Hy) as [b Hb],
           (not_nan_key _ Hz) as [c Hc].
  rewrite (ltb_false_iff _ _ _ _ Ha Hb), (ltb_false_iff _ _ _ _ Hb Hc),
          (ltb_false_iff _ _ _ _ Ha Hc).
  unfold key_lt. lia.
Qed.

Lemma eqb_not_ltb x y s :
  is_nan x = false -> is_nan y = false ->
  (x =? s) = true -> (y =? s) = true -> (x <? y) = false.
Proof.
  intros Hx Hy Hxs Hys.
  destruct (is_nan s) eqn:Hs.
  { destruct (nan_unordered s x Hs) as (_ & _ & _ & _ & _).
    rewrite FloatAxioms.eqb_spec in Hxs. unfold SFeqb in Hxs.
    apply is_nan_key in Hs. unfold fkey in Hs.
    destruct (Prim2SF s); try discriminate.
    destruct (Prim2SF x); discriminate. }
  destruct (not_nan_key _ Hx) as [a Ha], (not_nan_key _ Hy) as [b Hb],
           (not_nan_key _ Hs) as [c Hc].
  apply (eqb_key _ _ _ _ Ha Hc) in Hxs. apply (eqb_key _ _ _ _ Hb Hc) in Hys.
  subst. apply (ltb_false_iff _ _ _ _ Ha Hb). unfold key_lt. lia.
Qed.

Lemma ltb_false_leb x y :
  is_nan x = false -> is_nan y = false ->
  (x <? y) = false -> (y <=? x) = true.
Proof.
  intros Hx Hy.
  destruct (not_nan_key _ Hx) as [a Ha], (not_nan_key _ Hy) as [b Hb].
  rewrite (ltb_false_iff _ _ _ _ Ha Hb), (leb_key _ _ _ _ Hb Ha). tauto.
Qed.

(** *** Arithmetic on zeros *)

(** [x] is [0.0] or [-0.0]. *)
Lemma eqb_zero_iff x : (x =? 0) = true <-> exists s, Prim2SF x = S754_zero s.
Proof.
  rewrite FloatAxioms.eqb_spec. unfold SFeqb.
  change (Prim2SF 0) with (S754_zero false).
  destruct (Prim2SF x) as [s|s| |s m e]; simpl; split;
    try discriminate; eauto; try (intros [s' H]; discriminate);
    destruct s; discriminate.
Qed.








End FloatFacts.

(** ** Sorting: [insert_sorted], [sort_asc] and [sort_reverse] *)
Module SortFacts.
Import Retriever.

Lemma StronglySorted_snoc {A} (R : A -> A -> Prop) l x :
  StronglySorted R l -> List.Forall (fun a => R a x) l ->
  StronglySorted R (l ++ [x]).
Proof.
  induction 1 as [|a l Hl IH Ha]; intros Hx; simpl.
  - repeat constructor.
  - inversion Hx; subst. constructor; [now apply IH|].
    apply Forall_app. split; [assumption|]. now constructor.
Qed.

Lemma StronglySorted_rev {A} (R : A -> A -> Prop) l :
  StronglySorted R l -> StronglySorted (fun a b => R b a) (rev l).
Proof.
  induction 1 as [|a l Hl IH Ha]; simpl; [constructor|].
  apply StronglySorted_snoc; [assumption|]. now apply List.Forall_rev.
Qed.

Lemma StronglySorted_lookup {A} (R : A -> A -> Prop) (l : list A) :
  StronglySorted R l ->
  forall i j x y, (i < j)%nat -> l !! i = Some x -> l !! j = Some y -> R x y.
Proof.
  induction 1 as [|a l Hl IH Ha]; intros i j x y Hij Hi Hj; [discriminate|].
  destruct j as [|j]; [lia|]. simpl in Hj.
  destruct i as [|i]; simpl in Hi.
  - injection Hi as <-. rewrite List.Forall_forall in Ha. apply Ha.
    apply list_elem_of_In. eapply list_elem_of_lookup_2. eassumption.
  - apply (IH i j); [lia|assumption|assumption].
Qed.

Lemma filter_rev {A} (p : A -> bool) (l : list A) :
  List.filter p (rev l) = rev (List.filter p l).
Proof.
  induction l as [|x l IH]; simpl; [reflexivity|].
  rewrite List.filter_app, IH. simpl. destruct (p x); simpl;
    [reflexivity|now rewrite app_nil_r].
Qed.

Lemma filter_none {A} (p : A -> bool) (l : list A) :
  List.Forall (fun b => p b = false) l -> List.filter p l = [].
Proof.
  induction 1 as [|b t Hb _ IH]; simpl; [reflexivity|]. now rewrite Hb.
Qed.

Lemma insert_sorted_perm {A} (lt : A -> A -> bool) x l :
  Permutation (insert_sorted lt x l) (x :: l).
Proof.
  induction l as [|y l IH]; simpl; [reflexivity|].
  destruct (lt x y); [reflexivity|].
  rewrite IH. apply perm_swap.
Qed.

Lemma sort_asc_perm_acc {A} (lt : A -> A -> bool) l :
  forall acc, Permutation (fold_left (fun a x => insert_sorted lt x a) l acc)
                          (acc ++ l).
Proof.
  induction l as [|x l IH]; intros acc; simpl.
  - now rewrite app_nil_r.
  - rewrite IH, insert_sorted_perm.
    change (x :: acc ++ l) with ((x :: acc) ++ l).
    rewrite (Permutation_middle acc l x). reflexivity.
Qed.

(** Sorting permutes, whatever the comparison. *)
Lemma sort_reverse_perm {A} (lt : A -> A -> bool) l :
  Permutation (sort_reverse lt l) l.
Proof.
  unfold sort_reverse, sort_asc.
  rewrite <- Permutation_rev, sort_asc_perm_acc. simpl.
  symmetry. apply Permutation_rev.
Qed.

Section StrictWeakOrder.
Context {A : Type} (lt : A -> A -> bool) (good : A -> Prop).
Hypothesis lt_irrefl : forall x, good x -> lt x x = false.
Hypothesis lt_trans : forall x y z, good x -> good y -> good z ->
  lt x y = true -> lt y z = true -> lt x z = true.
Hypothesis lt_negative_trans : forall x y z, good x -> good y -> good z ->
  lt x y = false -> lt y z = false -> lt x z = false.

(** Elements selected by [p] are pairwise incomparable. *)
Variable p : A -> bool.
Hypothesis p_class : forall x y, good x -> good y ->
  p x = true -> p y = true -> lt x y = false.

Local Abbreviation ascending := (StronglySorted (fun a b => lt b a = false)).

Lemma lt_asym x y : good x -> good y -> lt x y = true -> lt y x = false.
Proof.
  intros Hx Hy H. destruct (lt y x) eqn:E; [|reflexivity].
  rewrite <- (lt_irrefl x Hx). symmetry. now apply (lt_trans x y x).
Qed.

Lemma insert_sorted_good x l :
  good x -> List.Forall good l -> List.Forall good (insert_sorted lt x l).
Proof.
  intros Hx Hl. apply List.Forall_forall. intros y Hy.
  apply (Permutation_in _ (insert_sorted_perm lt x l)) in Hy.
  destruct Hy as [<-|Hy]; [assumption|].
  rewrite List.Forall_forall in Hl. now apply Hl.
Qed.

Lemma insert_sorted_ascending x l :
  good x -> List.Forall good l -> ascending l ->
  ascending (insert_sorted lt x l).
Proof.
  intros Hx Hl Hs. induction Hs as [|y l Hs IH Hy]; simpl.
  - repeat constructor.
  - inversion Hl as [|? ? Hgy Hgl]; subst.
    destruct (lt x y) eqn:E.
    + constructor; [now constructor|].
      constructor; [now apply lt_asym|].
      rewrite List.Forall_forall in *. intros b Hb.
      apply (lt_negative_trans b y x); auto. now apply lt_asym.
    + constructor; [now apply IH|].
      apply List.Forall_forall. intros b Hb.
      apply (Permutation_in _ (insert_sorted_perm lt x l)) in Hb.
      destruct Hb as [<-|Hb]; [assumption|].
      rewrite List.Forall_forall in Hy. now apply Hy.
Qed.

Lemma insert_sorted_filter x l :
  good x -> List.Forall good l -> ascending l ->
  List.filter p (insert_sorted lt x l) =
  if p x then List.filter p l ++ [x] else List.filter p l.
Proof.
  intros Hx Hl Hs. induction Hs as [|y l Hs IH Hy]; simpl.
  - now destruct (p x).
  - inversion Hl as [|? ? Hgy Hgl]; subst.
    destruct (lt x y) eqn:E; simpl.
    + destruct (p x) eqn:Hpx; [|reflexivity].
      assert (Hnone : List.filter p (y :: l) = []).
      { apply filter_none, List.Forall_forall. intros b Hb.
        destruct (p b) eqn:Hpb; [|reflexivity].
        exfalso. rewrite List.Forall_forall in Hgl, Hy.
        assert (Hgb : good b) by (destruct Hb as [<-|Hb]; auto).
        pose proof (p_class x b Hx Hgb Hpx Hpb) as Hxb.
        destruct Hb as [<-|Hb]; [congruence|].
        pose proof (lt_negative_trans x b y Hx Hgb Hgy Hxb (Hy b Hb)).
        congruence. }
      simpl in Hnone. rewrite Hnone. reflexivity.
    + rewrite (IH Hgl). destruct (p y), (p x); reflexivity.
Qed.

Lemma sort_asc_acc l :
  forall acc, List.Forall good l -> List.Forall good acc -> ascending acc ->
    ascending (fold_left (fun a x => insert_sorted lt x a) l acc) /\
    List.filter p (fold_left (fun a x => insert_sorted lt x a) l acc) =
      List.filter p acc ++ List.filter p l.
Proof.
  induction l as [|x l IH]; intros acc Hl Hacc Hs; simpl.
  - now rewrite app_nil_r.
  - inversion Hl as [|? ? Hx Hl']; subst.
    destruct (IH (insert_sorted lt x acc) Hl'
                (insert_sorted_good _ _ Hx Hacc)
                (insert_sorted_ascending _ _ Hx Hacc Hs)) as [Hsorted Hf].
    split; [assumption|]. rewrite Hf, insert_sorted_filter by assumption.
    destruct (p x); [|reflexivity]. now rewrite <- app_assoc.
Qed.

(** For a strict weak order, [sort_reverse] puts no element before a
    greater one, and keeps the elements of a class in their order. *)
Lemma sort_reverse_sorted l :
  List.Forall good l ->
  StronglySorted (fun a b => lt a b = false) (sort_reverse lt l).
Proof.
  intros Hl. unfold sort_reverse, sort_asc.
  apply (StronglySorted_rev (fun a b => lt b a = false)).
  apply sort_asc_acc; [now apply List.Forall_rev|constructor|constructor].
Qed.

Lemma sort_reverse_filter l :
  List.Forall good l ->
  List.filter p (sort_reverse lt l) = List.filter p l.
Proof.
  intros Hl. unfold sort_reverse, sort_asc. rewrite filter_rev.
  destruct (sort_asc_acc (rev l) [] (List.Forall_rev Hl)
              (List.Forall_nil _) (SSorted_nil _)) as [_ Hf].
  rewrite Hf. simpl. rewrite filter_rev. apply rev_involutive.
Qed.

End StrictWeakOrder.

End SortFacts.

(** ** The retriever *)
Module RetrieverFacts.
Import PyStr Store Retriever FloatFacts SortFacts.
Local Open Scope float_scope.

Abbreviation zero_or_nan x :=
  (Prim2SF x = S754_nan \/ exists s, Prim2SF x = S754_zero s).

Lemma zero_is_zero_or_nan x : (x =? 0) = true -> zero_or_nan x.
Proof. intros H. right. now apply eqb_zero_iff. Qed.

(** *** The similarity with a zero vector *)






(** *** The scan *)

Lemma score_rows_entries q rows : forall scored,
  score_rows q rows = Return scored ->
  map entry_of_scored scored = map entry_of_row rows.
Proof.
  induction rows as [|r rows IH]; simpl; intros scored.
  - now intros [= <-].
  - destruct (cosine_similarity q (c_embedding r)) as [sim|e]; simpl;
      [|discriminate].
    destruct (score_rows q rows) as [tl|e]; simpl; [|discriminate].
    intros [= <-]. simpl. f_equal. now apply IH.
Qed.



(** *** Deduplication *)

Lemma filter_filter_and {A} (p q : A -> bool) (l : list A) :
  List.filter p (List.filter q l) = List.filter (fun x => q x && p x) l.
Proof.
  induction l as [|x l IH]; simpl; [reflexivity|].
  destruct (q x); simpl; [destruct (p x)|]; now rewrite IH.
Qed.

Lemma dedupe_loop_first_occurrences cs : forall seen final_context,
  dedupe_loop cs seen final_context =
  final_context ++
  List.filter (fun y => bool_decide (y ∉ seen)) (first_occurrences cs).
Proof.
  induction cs as [|c cs IH]; intros seen final; simpl.
  - now rewrite app_nil_r.
  - destruct (decide (c ∈ seen)) as [Hin|Hout].
    + rewrite IH, bool_decide_false by tauto. f_equal.
      rewrite filter_filter_and. apply List.filter_ext. intros y.
      destruct (String.eqb_spec y c) as [->|Hne]; simpl; [|reflexivity].
      apply bool_decide_false. tauto.
    + rewrite IH, <- app_assoc, bool_decide_true by assumption. simpl.
      f_equal. f_equal. rewrite filter_filter_and. apply List.filter_ext.
      intros y. destruct (String.eqb_spec y c) as [->|Hne]; simpl.
      * apply bool_decide_false. rewrite elem_of_union, elem_of_singleton.
        tauto.
      * apply bool_decide_ext. rewrite elem_of_union, elem_of_singleton.
        tauto.
Qed.

(** The loop with [seen] keeps the first occurrence of each text. *)
Lemma dedupe_first_occurrences cs : dedupe cs = first_occurrences cs.
Proof.
  unfold dedupe. rewrite dedupe_loop_first_occurrences. simpl.
  induction (first_occurrences cs) as [|x l IH]; simpl; [reflexivity|].
  rewrite bool_decide_true by apply not_elem_of_empty. now rewrite IH.
Qed.

Lemma first_occurrences_In l x : In x (first_occurrences l) <-> In x l.
Proof.
  induction l as [|y l IH]; simpl; [tauto|].
  rewrite List.filter_In, IH. split.
  - tauto.
  - intros [->|H]; [now left|].
    destruct (String.eqb_spec x y) as [->|Hne]; [now left|right].
    split; [assumption|reflexivity].
Qed.

Lemma first_occurrences_NoDup l : List.NoDup (first_occurrences l).
Proof.
  induction l as [|y l IH]; simpl; constructor.
  - rewrite List.filter_In, String.eqb_refl. simpl. intros [_ H]. discriminate.
  - now apply List.NoDup_filter.
Qed.

(** *** Neighbours *)

Lemma nearby_neighbours d doc_id idx :
  nearby d doc_id idx = map c_text (neighbours d doc_id idx).
Proof.
  unfold nearby, neighbours, chunks_of. rewrite filter_filter_and.
  f_equal. apply List.filter_ext. intros c. now rewrite andb_assoc.
Qed.

Lemma neighbours_In d doc_id idx c :
  In c (neighbours d doc_id idx) <->
  In c (chunks d) /\ c_document_id c = doc_id /\
  (idx - 1 <= c_chunk_index c <= idx + 1)%Z.
Proof.
  unfold neighbours, chunks_of. rewrite !List.filter_In.
  rewrite String.eqb_eq, andb_true_iff, !Z.leb_le. tauto.
Qed.

(** In a document whose rows carry the indices 0 to 4, the rows within
    one position of index 2 are those at indices 1, 2 and 3. *)
Lemma neighbours_of_middle d doc_id :
  map c_chunk_index (chunks_of doc_id d) = [0; 1; 2; 3; 4]%Z ->
  neighbours d doc_id 2 = slice (chunks_of doc_id d) 1 4 /\
  map c_chunk_index (neighbours d doc_id 2) = [1; 2; 3]%Z.
Proof.
  unfold neighbours. intros H.
  destruct (chunks_of doc_id d) as [|r0 [|r1 [|r2 [|r3 [|r4 [|r5 l]]]]]];
    try discriminate.
  injection H as H0 H1 H2 H3 H4. simpl. rewrite H0, H1, H2, H3, H4.
  split; [reflexivity|]. simpl. now rewrite H1, H2, H3.
Qed.

Lemma context_chunks_neighbours d top :
  context_chunks d top =
  flat_map (fun h => s_text h ::
                     map c_text (neighbours d (s_doc_id h) (s_chunk_idx h)))
           top.
Proof.
  unfold context_chunks. apply flat_map_ext. intros h.
  now rewrite nearby_neighbours.
Qed.

(** C8. Given the ranking, [retrieve_chunks] returns the first occurrences
    of the list made, for each of the top-k hits in order, of the hit's
    text followed by the texts of the stored chunks of the same document
    whose index is within one of the hit's.  So the result has no
    duplicate, and a text is in it exactly when it is the text of a top hit
    or of such a neighbour.  In a document with the indices 0 to 4 a hit at
    index 2 has the neighbours at the indices 1, 2 and 3. *)
Theorem retrieve_expands_and_dedupes (E : env) (query : string) (k : Z)
        (w : world) (ranked : list scored) :
  rank_chunks (encode E query) (chunks (w_db w)) = Return ranked ->
  retrieve_chunks E query k w =
    Return (first_occurrences
              (flat_map
                 (fun h => s_text h ::
                    map c_text (neighbours (w_db w) (s_doc_id h) (s_chunk_idx h)))
                 (slice ranked 0 k))) /\
  (exists out,
     retrieve_chunks E query k w = Return out /\
     List.NoDup out /\
     forall t, In t out <->
       exists h, In h (slice ranked 0 k) /\
         (t = s_text h \/
          exists c, In c (chunks (w_db w)) /\
                    c_document_id c = s_doc_id h /\
                    (s_chunk_idx h - 1 <= c_chunk_index c <= s_chunk_idx h + 1)%Z /\
                    t = c_text c)) /\
  (forall doc_id,
     map c_chunk_index (chunks_of doc_id (w_db w)) = [0; 1; 2; 3; 4]%Z ->
     map c_chunk_index (neighbours (w_db w) doc_id 2) = [1; 2; 3]%Z).
Proof.
  intros Hrank.
  assert (Hret : retrieve_chunks E query k w =
                 Return (first_occurrences
                           (context_chunks (w_db w) (slice ranked 0 k)))).
  { unfold retrieve_chunks. rewrite Hrank. simpl.
    now rewrite dedupe_first_occurrences. }
  rewrite context_chunks_neighbours in Hret.
  split; [exact Hret|]. split.
  - eexists. split; [exact Hret|]. split; [apply first_occurrences_NoDup|].
    intros t. rewrite first_occurrences_In, in_flat_map. split.
    + intros (h & Hh & [<-|Ht]); exists h; (split; [assumption|]);
        [now left|right].
      apply in_map_iff in Ht as (c & <- & Hc).
      apply neighbours_In in Hc as (Hc & Hd & Hi). eauto.
    + intros (h & Hh & [->|(c & Hc & Hd & Hi & ->)]); exists h;
        (split; [assumption|]); [now left|right].
      apply in_map. apply neighbours_In. auto.
  - intros doc_id H. now apply neighbours_of_middle.
Qed.

Lemma retrieve_expands_and_dedupes_witness :
  retrieve_chunks demo_env "q" 1 five_world = Return ["t2"; "t1"; "t3"]%string.
Proof.
  pose (r := rank_chunks (encode demo_env "q") (chunks (w_db five_world))).
  assert (Hr : r = Return (match r with Return l => l | Raise _ => [] end))
    by (vm_compute; reflexivity).
  destruct (retrieve_expands_and_dedupes demo_env "q" 1 five_world _ Hr)
    as [H _].
  rewrite H. vm_compute. reflexivity.
Defined.

(** *** The ranking *)

Lemma slice_all {A} (l : list A) k : (len l <= k)%Z -> slice l 0 k = l.
Proof.
  intros H. unfold slice, clamp_index, len in *. simpl.
  destruct (Z.ltb_spec k 0) as [Hk|Hk]; [lia|].
  rewrite (Z.min_l 0), (Z.min_r k) by lia.
  rewrite Z.sub_0_r, Nat2Z.id. simpl. apply firstn_all.
Qed.

Lemma rank_chunks_sorted q rows scored :
  score_rows q rows = Return scored ->
  rank_chunks q rows = Return (sort_reverse sim_lt scored).
Proof. intros H. unfold rank_chunks. now rewrite H. Qed.

Lemma sim_lt_descending (l : list scored) :
  List.Forall (fun h => is_nan (s_sim h) = false) l ->
  StronglySorted (fun a b => sim_lt a b = false) l -> descending l.
Proof.
  intros Hgood Hs i j x y Hij Hi Hj.
  pose proof (StronglySorted_lookup _ _ Hs i j x y Hij Hi Hj) as Hlt.
  rewrite List.Forall_forall in Hgood.
  apply ltb_false_leb; [| |exact Hlt]; apply Hgood, list_elem_of_In;
    eapply list_elem_of_lookup_2; eassumption.
Qed.

(** C7 (as the code has it). When no similarity is NaN, the ranking is a
    permutation of the scanned entries (one per stored chunk, in scan
    order), in descending order of similarity, and the entries of equal
    similarity keep their scan order.  When the store holds at most [k]
    chunks, the top-k hits are the whole ranking, and the returned list
    contains the text of every stored chunk (in the order of C8, which
    need not be the ranked order). *)
Theorem ranking_descending_and_stable (E : env) (query : string) (k : Z)
        (w : world) (scored : list scored) :
  score_rows (encode E query) (chunks (w_db w)) = Return scored ->
  List.Forall (fun h => is_nan (s_sim h) = false) scored ->
  map entry_of_scored scored = map entry_of_row (chunks (w_db w)) /\
  exists ranked,
    rank_chunks (encode E query) (chunks (w_db w)) = Return ranked /\
    Permutation ranked scored /\
    descending ranked /\
    (forall s, List.filter (fun h => s_sim h =? s) ranked =
               List.filter (fun h => s_sim h =? s) scored) /\
    ((len (chunks (w_db w)) <= k)%Z ->
       slice ranked 0 k = ranked /\
       exists out,
         retrieve_chunks E query k w = Return out /\
         forall c, In c (chunks (w_db w)) -> In (c_text c) out).
Proof.
  intros Hscore Hgood.
  pose proof (score_rows_entries _ _ _ Hscore) as Hentries.
  split; [assumption|].
  exists (sort_reverse sim_lt scored).
  pose proof (sort_reverse_perm sim_lt scored) as Hperm.
  split; [now apply rank_chunks_sorted|]. split; [assumption|].
  assert (Hirr : forall x : Retriever.scored,
             is_nan (s_sim x) = false -> sim_lt x x = false)
    by (intros x _; apply ltb_irrefl).
  assert (Htr : forall x y z : Retriever.scored,
             is_nan (s_sim x) = false -> is_nan (s_sim y) = false ->
             is_nan (s_sim z) = false ->
             sim_lt x y = true -> sim_lt y z = true -> sim_lt x z = true)
    by (intros x y z; apply ltb_trans).
  assert (Hnt : forall x y z : Retriever.scored,
             is_nan (s_sim x) = false -> is_nan (s_sim y) = false ->
             is_nan (s_sim z) = false ->
             sim_lt x y = false -> sim_lt y z = false -> sim_lt x z = false)
    by (intros x y z; apply ltb_negative_trans).
  split; [|split].
  - apply sim_lt_descending.
    + rewrite List.Forall_forall in *. intros h Hh. apply Hgood.
      now apply (Permutation_in _ Hperm).
    + apply (sort_reverse_sorted sim_lt _ Hirr Htr Hnt (fun _ => false));
        [discriminate|assumption].
  - intros s.
    apply (sort_reverse_filter sim_lt _ Hirr Htr Hnt); [|assumption].
    intros x y Hx Hy Hxs Hys. now apply (eqb_not_ltb _ _ s).
  - intros Hk.
    assert (Hlen : (len (sort_reverse sim_lt scored) <= k)%Z).
    { unfold len in *. rewrite (Permutation_length Hperm).
      rewrite <- (length_map entry_of_scored), Hentries, length_map.
      assumption. }
    split; [now apply slice_all|].
    eexists. split.
    + unfold retrieve_chunks. rewrite (rank_chunks_sorted _ _ _ Hscore).
      simpl. rewrite slice_all by assumption. reflexivity.
    + intros c Hc. rewrite dedupe_first_occurrences, first_occurrences_In.
      apply (in_map entry_of_row) in Hc. rewrite <- Hentries in Hc.
      apply in_map_iff in Hc as (h & Hh & Hin).
      unfold context_chunks. apply in_flat_map. exists h. split.
      * apply (Permutation_in _ (Permutation_sym Hperm) Hin).
      * left. unfold entry_of_scored, entry_of_row in Hh. congruence.
Qed.

Lemma ranking_descending_and_stable_witness :
  exists ranked,
    rank_chunks (encode demo_env "q") (chunks (w_db tie_world)) = Return ranked /\
    descending ranked /\
    map s_text ranked = ["best"; "first"; "second"]%string.
Proof.
  pose (r := score_rows (encode demo_env "q") (chunks (w_db tie_world))).
  pose (sc := match r with Return l => l | Raise _ => [] end).
  assert (Hs : r = Return sc) by (vm_compute; reflexivity).
  assert (Hg : List.Forall (fun h => is_nan (s_sim h) = false) sc)
    by (vm_compute; repeat constructor).
  destruct (ranking_descending_and_stable demo_env "q" 5 tie_world sc Hs Hg)
    as (_ & ranked & Hrank & _ & Hdesc & _).
  exists ranked. split; [exact Hrank|]. split; [exact Hdesc|].
  vm_compute in Hrank. injection Hrank as <-. reflexivity.
Defined.

(** C7 (where the claim fails). In [reorder_world], which holds three
    chunks, retrieval with [k = 5] returns the texts in an order that is
    not the ranked one: the second chunk of the first document follows its
    neighbour.  In [zero_world] the ranking itself is not descending: the
    chunk of similarity 1 comes after the chunk whose similarity is NaN. *)
Lemma returned_order_is_not_ranked_order :
  (len (chunks (w_db reorder_world)) < 5)%Z /\
  (exists ranked,
     rank_chunks (encode demo_env "q") (chunks (w_db reorder_world))
       = Return ranked /\
     map s_text ranked = ["a0"; "b0"; "a1"]%string /\
     retrieve_chunks demo_env "q" 5 reorder_world
       = Return ["a0"; "a1"; "b0"]%string) /\
  (exists ranked,
     rank_chunks (encode demo_env "q") (chunks (w_db zero_world))
       = Return ranked /\
     map s_text ranked = ["zero"; "match"]%string /\
     ~ descending ranked).
Proof.
  split; [reflexivity|]. split.
  - eexists. split; [vm_compute; reflexivity|]. split; vm_compute; reflexivity.
  - eexists. split; [vm_compute; reflexivity|]. split; [reflexivity|].
    intros H. specialize (H 0%nat 1%nat _ _ ltac:(lia) eq_refl eq_refl).
    vm_compute in H. discriminate.
Qed.




End RetrieverFacts.

(* ================================================================== *)
(** * Further properties of the code                                  *)
(* ================================================================== *)

(** ** The chunker: shape and number of the chunks *)
Module ChunkerMore.
Import PyStr PyStrFacts Chunker ChunkerFacts.

Lemma window_loop_ends n size step :
  forall fuel s ws,
    window_loop fuel n size step s = Some ws ->
    List.Forall (fun w => snd w = window_end n size (fst w)) ws.
Proof.
  induction fuel as [|fuel IH]; intros s ws; simpl; [discriminate|].
  destruct (Z.ltb_spec s n) as [Hlt|]; [|intros [= <-]; constructor].
  destruct (Z.eqb_spec (window_end n size s) n).
  - intros [= <-]. repeat constructor.
  - destruct (window_loop fuel n size step (s + step)) as [rest|] eqn:E;
      simpl; [|discriminate].
    intros [= <-]. constructor; [reflexivity|]. now apply (IH (s + step)).
Qed.

(** The windows of [chunk_text] for a positive size, whatever the
    overlap. *)
Lemma chunk_windows_shape text size overlap :
  0 < size ->
  List.Forall
    (fun w => 0 <= fst w < snd w /\ snd w <= len (split text) /\
              snd w - fst w <= size)
    (chunk_windows text size overlap).
Proof.
  intros Hsize. unfold chunk_windows.
  pose proof (normalize_overlap_lt size overlap Hsize) as Hov.
  destruct (window_loop (S (length (split text))) (len (split text)) size
              (size - normalize_overlap size overlap) 0) as [ws|] eqn:E;
    [|constructor].
  assert (Hstep : 0 <= size - normalize_overlap size overlap) by lia.
  pose proof (window_loop_bounds _ _ _ Hsize Hstep _ _ _ (Z.le_refl 0) E) as Hb.
  pose proof (window_loop_ends _ _ _ _ _ _ E) as He.
  rewrite List.Forall_forall in *. intros w Hw.
  specialize (Hb w Hw). specialize (He w Hw). unfold window_end in He. lia.
Qed.

(** X1. For a positive window size and any overlap, every returned chunk
    is non-empty, is unchanged by [strip], is the single-space join of its
    own words, and has between 1 and [size] words, which are consecutive
    words of the text. *)
Theorem chunk_text_chunks_wellformed (text : string) (size overlap : Z) :
  0 < size ->
  exists chunks,
    chunk_text text size overlap = Return chunks /\
    List.Forall
      (fun c =>
         truthy c = true /\ strip c = c /\ join " " (split c) = c /\
         (1 <= length (split c) <= Z.to_nat size)%nat /\
         exists start,
           split c = firstn (length (split c)) (skipn start (split text)))
      chunks.
Proof.
  intros Hsize. eexists. split; [now apply chunk_text_windows|].
  pose proof (chunk_windows_shape text size overlap Hsize) as Hshape.
  apply List.Forall_map. rewrite List.Forall_forall in *.
  pose proof (split_words text) as Hw.
  intros w Hin. destruct (Hshape w Hin) as (Hb & Hn & Hwidth).
  rewrite !split_window by assumption.
  assert (Hlen : length (window_words (split text) w) = Z.to_nat (snd w - fst w))
    by (apply length_slice; lia).
  assert (Hne : window_words (split text) w <> [])
    by (intros E; rewrite E in Hlen; simpl in Hlen; lia).
  pose proof (slice_words_ok (split text) (fst w) (snd w) Hw) as Hok.
  fold (window_words (split text) w) in Hok.
  split; [|split; [|split; [|split]]].
  - destruct (window_words (split text) w) as [|x l]; [congruence|].
    apply join_truthy. now inversion Hok.
  - now apply strip_join.
  - reflexivity.
  - lia.
  - exists (Z.to_nat (fst w)). rewrite Hlen.
    apply window_words_in_range; lia.
Qed.

Lemma chunk_text_chunks_wellformed_witness :
  exists chunks,
    chunk_text "  a b   c d e " 2 5 = Return chunks /\
    List.Forall (fun c => strip c = c /\ (length (split c) <= 2)%nat) chunks.
Proof.
  destruct (chunk_text_chunks_wellformed "  a b   c d e " 2 5) as (cs & Hcs & H);
    [lia|].
  exists cs. split; [exact Hcs|].
  eapply List.Forall_impl; [|exact H]. simpl. intros c (_ & Hs & _ & Hl & _).
  split; [exact Hs|]. change (Z.to_nat 2) with 2%nat in Hl. lia.
Defined.

(** X2. A text with at least one word and at most [size] words gives
    exactly one chunk, the single-space join of all its words, whatever the
    overlap. *)
Theorem chunk_text_short_text (text : string) (size overlap : Z) :
  0 < len (split text) <= size ->
  chunk_text text size overlap = Return [join " " (split text)].
Proof.
  intros [Hn Hsize]. rewrite chunk_text_windows by lia.
  unfold chunk_windows. simpl.
  destruct (Z.ltb_spec 0 (len (split text))); [|lia].
  replace (window_end (len (split text)) size 0) with (len (split text))
    by (unfold window_end; lia).
  rewrite Z.eqb_refl. simpl. unfold window_words. simpl.
  rewrite slice_in_range by lia.
  rewrite Z.sub_0_r. change (Z.to_nat 0) with 0%nat. rewrite drop_0.
  unfold len. rewrite Nat2Z.id, firstn_all. reflexivity.
Qed.

Lemma chunk_text_short_text_witness :
  chunk_text " one  two three " 200 50 = Return ["one two three"].
Proof. apply (chunk_text_short_text " one  two three " 200 50). vm_compute. split; [reflexivity|discriminate]. Defined.

(** The number of windows from a start below [n], for a step between 1
    and the size. *)
Lemma window_loop_count n size step :
  0 < size -> 1 <= step <= size ->
  forall fuel s ws,
    window_loop fuel n size step s = Some ws -> s < n ->
    len ws = (Z.max 0 (n - size - s) + step - 1) / step + 1.
Proof.
  intros Hsize Hstep. induction fuel as [|fuel IH]; intros s ws;
    simpl; [discriminate|].
  destruct (Z.ltb_spec s n) as [Hlt|]; [|lia].
  destruct (Z.eqb_spec (window_end n size s) n) as [He|Hne].
  - intros [= <-] _. unfold window_end in He.
    rewrite Z.max_l by lia. rewrite Z.div_small by lia. reflexivity.
  - destruct (window_loop fuel n size step (s + step)) as [rest|] eqn:E;
      simpl; [|discriminate].
    intros [= <-] _. unfold window_end in Hne.
    assert (Hnext : s + step < n) by lia.
    pose proof (IH _ _ E Hnext) as Hrest. unfold len in *. simpl.
    rewrite Nat2Z.inj_succ, Hrest.
    set (m := n - size - s). assert (Hm : 0 < m) by (unfold m; lia).
    replace (n - size - (s + step)) with (m - step) by (unfold m; lia).
    rewrite (Z.max_r 0 m) by lia.
    replace (m + step - 1) with (m - 1 + 1 * step) by lia.
    rewrite Z.div_add by lia.
    destruct (Z.le_gt_cases step m) as [Hge|Hsmall].
    + rewrite Z.max_r by lia.
      replace (m - step + step - 1) with (m - 1) by lia. lia.
    + rewrite Z.max_l by lia.
      rewrite (Z.div_small (m - 1)), (Z.div_small (0 + step - 1)) by lia. lia.
Qed.

(** X3. For a positive size, an overlap in [0, size) and a text of
    [n >= 1] words, the number of chunks is
    [ceil(max(0, n - size) / step) + 1] with [step = size - overlap]. *)
Theorem chunk_text_count (text : string) (size overlap : Z) :
  0 < size -> 0 <= overlap < size -> 0 < len (split text) ->
  exists chunks,
    chunk_text text size overlap = Return chunks /\
    len chunks =
      (Z.max 0 (len (split text) - size) + (size - overlap) - 1)
        / (size - overlap) + 1.
Proof.
  intros Hsize Hov Hn. eexists. split; [now apply chunk_text_windows|].
  unfold chunk_windows. rewrite normalize_overlap_small by lia.
  destruct (window_loop_terminates (len (split text)) size (size - overlap)
              ltac:(lia) (S (length (split text))) 0) as [ws E];
    [unfold len; lia|].
  rewrite E. unfold len at 1. rewrite length_map.
  assert (Hstep : 1 <= size - overlap <= size) by lia.
  pose proof (window_loop_count _ _ _ Hsize Hstep _ _ _ E Hn) as Hc.
  rewrite Z.sub_0_r in Hc. exact Hc.
Qed.

Lemma chunk_text_count_witness :
  exists chunks,
    chunk_text "a b c d e f g h" 3 1 = Return chunks /\ len chunks = 4.
Proof.
  destruct (chunk_text_count "a b c d e f g h" 3 1) as (cs & Hcs & Hlen);
    [lia|lia|vm_compute; reflexivity|].
  exists cs. split; [exact Hcs|]. rewrite Hlen. vm_compute. reflexivity.
Defined.

(** Texts without words. *)
Lemma split_from_whitespace s :
  whitespace_only s = true <-> split_from s = (EmptyString, []).
Proof.
  induction s as [|c s IH]; simpl; [tauto|].
  destruct (split_from s) as [w ws].
  destruct (is_space c); simpl.
  - rewrite IH. unfold push_word. split.
    + now intros [= -> ->].
    + destruct (truthy w) eqn:E; [discriminate|].
      apply truthy_false in E. subst. now intros [= ->].
  - split; discriminate.
Qed.

Lemma split_nil_iff s : split s = [] <-> whitespace_only s = true.
Proof.
  rewrite split_from_whitespace. unfold split.
  destruct (split_from s) as [w ws]. unfold push_word. split.
  - destruct (truthy w) eqn:E; [discriminate|].
    apply truthy_false in E. now intros ->; subst.
  - now intros [= -> ->].
Qed.

(** X4. For a positive window size the chunker returns no chunk exactly
    when the text is empty or white space only. *)
Theorem chunk_text_empty_iff (text : string) (size overlap : Z) :
  0 < size ->
  (chunk_text text size overlap = Return [] <-> whitespace_only text = true).
Proof.
  intros Hsize. rewrite <- split_nil_iff. split.
  - intros H. destruct (split text) as [|x l] eqn:E; [reflexivity|].
    rewrite chunk_text_windows in H by assumption.
    unfold chunk_windows in H. rewrite E in H.
    pose proof (normalize_overlap_lt size overlap Hsize) as Hov.
    destruct (window_loop_terminates (len (x :: l)) size
                (size - normalize_overlap size overlap) ltac:(lia)
                (S (length (x :: l))) 0) as [ws Hws]; [unfold len; lia|].
    rewrite Hws in H.
    destruct (window_loop_head _ _ _ _ _ _ Hws) as [[Hn _]|[_ [rest ->]]].
    + unfold len in Hn. simpl in Hn. lia.
    + discriminate.
  - intros H. rewrite chunk_text_windows by assumption.
    unfold chunk_windows. rewrite H. reflexivity.
Qed.

Lemma chunk_text_empty_iff_witness :
  chunk_text "   " 200 50 = Return [] /\ chunk_text " x " 200 50 <> Return [].
Proof.
  destruct (chunk_text_empty_iff "   " 200 50) as [_ H1]; [lia|].
  destruct (chunk_text_empty_iff " x " 200 50) as [H2 _]; [lia|].
  split; [now apply H1|]. intros H. apply H2 in H. discriminate.
Defined.

(** X28. Every chunk is a fixed point of the chunker: chunking a returned
    chunk again with the same size, and any overlap, returns that chunk
    alone. *)
Theorem chunk_text_chunk_fixed_point (text : string) (size overlap : Z)
        (chunks : list string) :
  0 < size ->
  chunk_text text size overlap = Return chunks ->
  forall c overlap', In c chunks ->
    chunk_text c size overlap' = Return [c].
Proof.
  intros Hsize Hchunks c overlap' Hc.
  rewrite chunk_text_windows in Hchunks by assumption.
  injection Hchunks as <-.
  apply in_map_iff in Hc as (w & <- & Hin).
  pose proof (chunk_windows_shape text size overlap Hsize) as Hshape.
  rewrite List.Forall_forall in Hshape.
  destruct (Hshape w Hin) as (Hb & Hn & Hwidth).
  pose proof (split_words text) as Hw.
  assert (Hsplit : split (join " " (window_words (split text) w))
                   = window_words (split text) w)
    by (now apply split_window).
  assert (Hlen : length (window_words (split text) w) = Z.to_nat (snd w - fst w))
    by (apply length_slice; lia).
  set (c := join " " (window_words (split text) w)) in *.
  assert (Hwords : 0 < len (split c) <= size)
    by (rewrite Hsplit; unfold len; lia).
  assert (Hjoin : join " " (split c) = c) by now rewrite Hsplit.
  rewrite chunk_text_windows by assumption.
  unfold chunk_windows. simpl.
  destruct (Z.ltb_spec 0 (len (split c))); [|lia].
  replace (window_end (len (split c)) size 0) with (len (split c))
    by (unfold window_end; lia).
  rewrite Z.eqb_refl. simpl. unfold window_words. simpl.
  rewrite slice_in_range by lia.
  rewrite Z.sub_0_r. change (Z.to_nat 0) with 0%nat. rewrite drop_0.
  unfold len. rewrite Nat2Z.id, firstn_all. now rewrite Hjoin.
Qed.

Lemma chunk_text_chunk_fixed_point_witness :
  chunk_text "a b c" 3 1 = Return ["a b c"] /\
  chunk_text "c d e" 3 2 = Return ["c d e"].
Proof.
  assert (H : chunk_text "a b c d e" 3 1 = Return ["a b c"; "c d e"])
    by (vm_compute; reflexivity).
  split.
  - apply (chunk_text_chunk_fixed_point "a b c d e" 3 1 _ ltac:(lia) H).
    now left.
  - apply (chunk_text_chunk_fixed_point "a b c d e" 3 1 _ ltac:(lia) H).
    right. now left.
Defined.

End ChunkerMore.

(** ** The store: ingestion, re-indexing and metadata *)
Module StoreMore.
Import PyStr PyStrFacts Chunker ChunkerFacts ChunkerMore Store StoreFacts StoreOps.

Lemma known_document_In d (x : db) :
  known_document d x = true <-> exists doc, In doc (documents x) /\ d_id doc = d.
Proof.
  unfold known_document. rewrite existsb_exists.
  split; intros (doc & H1 & H2); exists doc; (split; [assumption|]);
    now apply String.eqb_eq.
Qed.

Lemma existsb_false_iff {A} (p : A -> bool) l :
  existsb p l = false <-> forall x, In x l -> p x = false.
Proof.
  induction l as [|y l IH]; simpl.
  - split; [intros _ x []|reflexivity].
  - rewrite orb_false_iff, IH. split.
    + intros [Hy Hl] x [<-|Hx]; auto.
    + intros H. split; [apply H; now left|intros x Hx; apply H; now right].
Qed.

(** What a successful [add_document_from_file] did. *)
Lemma add_document_from_file_inv E p title size overlap w doc_id n w' :
  add_document_from_file E p title size overlap w = (Return (doc_id, n), w') ->
  exists text pieces,
    w_fs w !! p = Some text /\ truthy (strip text) = true /\
    chunk_text text size overlap = Return pieces /\
    doc_id = uuid4 E (w_uuids w) /\ n = len pieces /\
    known_document doc_id (w_db w) = false /\
    documents (w_db w') =
      documents (w_db w) ++
      [Document doc_id (match title with Some t => t | None => basename p end)
                (Some p) (utcnow E)] /\
    chunks (w_db w') =
      chunks (w_db w) ++ fresh_rows E doc_id 0 pieces (S (w_uuids w)) /\
    w_fs w' = w_fs w /\ w_tmps w' = w_tmps w /\
    w_uuids w' = (S (w_uuids w) + length pieces)%nat.
Proof.
  unfold add_document_from_file. intros H.
  destruct (w_fs w !! p) as [text|] eqn:Hfs; [|discriminate].
  destruct (truthy (strip text)) eqn:Hne; simpl in H; [|discriminate].
  unfold insert_document in H. simpl in H.
  destruct (existsb _ (documents (w_db w))) eqn:Hnew; [discriminate|].
  destruct (chunk_text text size overlap) as [pieces|e] eqn:Hct; [|discriminate].
  destruct (insert_chunks _ _ _ _ _ _) as [[tx|e] k] eqn:Hins; [|discriminate].
  injection H as <- <- <-.
  apply insert_chunks_return in Hins as (Hc & Hd & Hk). simpl in Hc, Hd.
  exists text, pieces. simpl. repeat split; auto.
Qed.

Lemma nonblank_has_words text :
  truthy (strip text) = true -> split text <> [].
Proof.
  intros H Hnil. apply split_nil_iff, strip_empty_iff in Hnil.
  rewrite Hnil in H. discriminate.
Qed.

Lemma chunk_text_return_positive text size overlap pieces :
  chunk_text text size overlap = Return pieces -> 0 < size.
Proof.
  intros H. destruct (Z.le_gt_cases size 0) as [Hle|]; [|assumption].
  rewrite chunk_text_raises in H by assumption. discriminate.
Qed.

(** X5. A successful [add_document_from_file] appends one document row
    (the new id, the given title or the file's base name, the path, the
    time) and, after the rows already stored, one chunk row per chunk of
    the file's text, numbered 0, 1, ... in order; the count it returns is
    the number of these rows and is at least 1; the rows stored before are
    all kept, and the files are untouched. *)
Theorem add_document_from_file_appends (E : env) (p : string)
        (title : option string) (size overlap : Z) (w w' : world)
        (doc_id : string) (n : Z) :
  add_document_from_file E p title size overlap w = (Return (doc_id, n), w') ->
  exists text pieces,
    w_fs w !! p = Some text /\
    chunk_text text size overlap = Return pieces /\
    n = len pieces /\ 1 <= n /\
    documents (w_db w') =
      documents (w_db w) ++
      [Document doc_id (match title with Some t => t | None => basename p end)
                (Some p) (utcnow E)] /\
    chunks (w_db w') =
      chunks (w_db w) ++ fresh_rows E doc_id 0 pieces (S (w_uuids w)) /\
    map c_text (fresh_rows E doc_id 0 pieces (S (w_uuids w))) = pieces /\
    map c_chunk_index (fresh_rows E doc_id 0 pieces (S (w_uuids w))) =
      map Z.of_nat (seq 0 (Z.to_nat n)) /\
    w_fs w' = w_fs w.
Proof.
  intros H.
  apply add_document_from_file_inv in H
    as (text & pieces & Hfs & Hne & Hct & -> & -> & _ & Hd & Hc & Hf & _).
  exists text, pieces. repeat split; try assumption.
  - pose proof (chunk_text_return_positive _ _ _ _ Hct) as Hsize.
    destruct (chunk_text_some_words text size overlap Hsize
                (nonblank_has_words _ Hne)) as (c & cs & Hcs).
    rewrite Hct in Hcs. injection Hcs as ->. unfold len. simpl. lia.
  - apply fresh_rows_text.
  - rewrite fresh_rows_index. unfold len. rewrite Nat2Z.id. reflexivity.
Qed.

Lemma add_document_from_file_appends_witness :
  exists doc_id w',
    add_document_from_file demo_env "docs/notes.txt" None 2 0 notes_world
      = (Return (doc_id, 3), w') /\
    map d_title (documents (w_db w')) = ["notes.txt"]%string /\
    map c_text (chunks (w_db w')) = ["one two"; "three four"; "five"]%string.
Proof.
  pose (r := add_document_from_file demo_env "docs/notes.txt" None 2 0 notes_world).
  assert (Hr : r = (Return (uuid4 demo_env 0, 3), snd r))
    by (vm_compute; reflexivity).
  exists (uuid4 demo_env 0), (snd r). split; [exact Hr|].
  destruct (add_document_from_file_appends _ _ _ _ _ _ _ _ _ Hr)
    as (text & pieces & Hfs & Hct & _ & _ & Hd & Hc & Ht & _).
  rewrite Hd, Hc. split; [reflexivity|].
  rewrite map_app, Ht. vm_compute in Hfs. injection Hfs as <-.
  vm_compute in Hct. now injection Hct as <-.
Defined.

(** X6. When [add_document_from_file] raises, the stored tables and the
    files are as before the call, also when the error comes after the
    document row was inserted: a missing file gives [FileNotFoundError],
    and a non-positive chunk size on a readable, non-blank file with a new
    id gives the [ValueError] of the chunker and leaves no document row. *)
Theorem add_document_from_file_failure_keeps_store (E : env) (p : string)
        (title : option string) (size overlap : Z) (w : world) :
  (forall e w',
     add_document_from_file E p title size overlap w = (Raise e, w') ->
     w_db w' = w_db w /\ w_fs w' = w_fs w) /\
  (w_fs w !! p = None ->
     add_document_from_file E p title size overlap w =
     (Raise (FileNotFoundError (p +:+ " not found")), w)) /\
  (forall text,
     w_fs w !! p = Some text -> whitespace_only text = false -> size <= 0 ->
     known_document (uuid4 E (w_uuids w)) (w_db w) = false ->
     exists w',
       add_document_from_file E p title size overlap w =
       (Raise (ValueError "chunk_size_words must be > 0"), w') /\
       w_db w' = w_db w).
Proof.
  split; [|split].
  - unfold add_document_from_file. intros e w' H.
    destruct (w_fs w !! p) as [text|]; [|injection H as _ <-; auto].
    destruct (truthy (strip text)); simpl in H; [|injection H as _ <-; auto].
    destruct (insert_document _ _) as [tx|e1]; [|injection H as _ <-; auto].
    destruct (chunk_text text size overlap) as [pieces|e2];
      [|injection H as _ <-; auto].
    destruct (insert_chunks _ _ _ _ _ _) as [[tx'|e3] k]; [discriminate|].
    injection H as _ <-. auto.
  - intros Hfs. unfold add_document_from_file. now rewrite Hfs.
  - intros text Hfs Hblank Hsize Hnew. unfold add_document_from_file.
    rewrite Hfs.
    assert (Hne : truthy (strip text) = true).
    { destruct (truthy (strip text)) eqn:Hs; [reflexivity|].
      apply truthy_false, strip_empty_iff in Hs. congruence. }
    rewrite Hne. simpl. unfold insert_document. simpl.
    unfold known_document in Hnew. rewrite Hnew.
    rewrite chunk_text_raises by assumption. eauto.
Qed.

Lemma add_document_from_file_failure_keeps_store_witness :
  exists w',
    add_document_from_file demo_env "docs/notes.txt" None 0 0 notes_world =
      (Raise (ValueError "chunk_size_words must be > 0"), w') /\
    w_db w' = w_db notes_world.
Proof.
  destruct (add_document_from_file_failure_keeps_store demo_env
              "docs/notes.txt" None 0 0 notes_world) as (_ & _ & H).
  apply (H "one two  three four five"); [reflexivity|reflexivity|lia|reflexivity].
Defined.

(** *** Success with a fresh supply of ids *)

Lemma insert_chunks_succeeds E d pieces : forall idx k tx,
  known_document d tx = true ->
  (forall i j, (k <= i)%nat -> (k <= j)%nat -> uuid4 E i = uuid4 E j -> i = j) ->
  (forall j c, (k <= j)%nat -> In c (chunks tx) -> c_id c <> uuid4 E j) ->
  exists tx', insert_chunks E d idx pieces k tx = (Return tx', (k + length pieces)%nat).
Proof.
  induction pieces as [|piece rest IH]; intros idx k tx Hknown Hinj Hfresh; simpl.
  - rewrite Nat.add_0_r. eauto.
  - unfold insert_chunk. simpl.
    assert (Hpk : existsb (fun c' => (c_id c' =? uuid4 E k)%string) (chunks tx)
                  = false).
    { apply existsb_false_iff. intros c Hc. apply String.eqb_neq.
      now apply Hfresh. }
    rewrite Hpk. unfold known_document in Hknown. rewrite Hknown.
    destruct (IH (idx + 1) (S k)
                (Db (documents tx)
                    (chunks tx ++ [Chunk (uuid4 E k) d idx piece (encode E piece)])))
      as [tx' Htx'].
    + exact Hknown.
    + intros i j Hi Hj. apply Hinj; lia.
    + intros j c Hj Hc. simpl in Hc. apply in_app_iff in Hc as [Hc|[<-|[]]].
      * apply Hfresh; [lia|assumption].
      * simpl. intros Heq. apply Hinj in Heq; lia.
    + exists tx'. rewrite Htx'. f_equal. lia.
Qed.

Lemma nonblank_truthy text :
  whitespace_only text = false -> truthy (strip text) = true.
Proof.
  intros H. destruct (truthy (strip text)) eqn:Hs; [reflexivity|].
  apply truthy_false, strip_empty_iff in Hs. congruence.
Qed.

(** X7. With a supply of ids that is fresh for the store, ingesting a
    readable file that is not blank with a positive chunk size succeeds and
    returns the next id of the supply. *)
Theorem add_document_from_file_succeeds (E : env) (p text : string)
        (title : option string) (size overlap : Z) (w : world) :
  w_fs w !! p = Some text -> whitespace_only text = false -> 0 < size ->
  fresh_uuids E (w_uuids w) (w_db w) ->
  exists n w',
    add_document_from_file E p title size overlap w =
    (Return (uuid4 E (w_uuids w), n), w').
Proof.
  intros Hfs Hblank Hsize (Hinj & Hdocs & Hchunks).
  unfold add_document_from_file. rewrite Hfs, (nonblank_truthy _ Hblank). simpl.
  unfold insert_document. simpl.
  assert (Hnew : existsb (fun d' => (d_id d' =? uuid4 E (w_uuids w))%string)
                         (documents (w_db w)) = false).
  { apply existsb_false_iff. intros x Hx. apply String.eqb_neq.
    now apply Hdocs. }
  rewrite Hnew.
  destruct (chunk_text_returns text size overlap Hsize) as [pieces ->].
  match goal with
  | |- context [insert_chunks E ?d 0 pieces ?k ?tx] =>
      destruct (insert_chunks_succeeds E d pieces 0 k tx) as [tx' Htx']
  end.
  - unfold known_document. simpl. rewrite existsb_app. simpl.
    rewrite String.eqb_refl. now rewrite orb_true_r.
  - intros i j Hi Hj. apply Hinj; lia.
  - intros j c Hj Hc. simpl in Hc. apply Hchunks; [lia|assumption].
  - rewrite Htx'. eauto.
Qed.

Lemma str_of_nat_inj a b : str_of_nat a = str_of_nat b -> a = b.
Proof.
  unfold str_of_nat. intros H.
  apply (f_equal NilEmpty.uint_of_string) in H. rewrite !NilEmpty.usu in H.
  injection H as H. now apply Unsigned.to_uint_inj.
Qed.

Lemma demo_uuid4_inj i j : uuid4 demo_env i = uuid4 demo_env j -> i = j.
Proof. simpl. intros H. injection H as H. now apply str_of_nat_inj. Qed.

Lemma add_document_from_file_succeeds_witness :
  exists n w',
    add_document_from_file demo_env "docs/notes.txt" None 2 0 notes_world =
    (Return ("uuid-0"%string, n), w').
Proof.
  apply (add_document_from_file_succeeds demo_env "docs/notes.txt"
           "one two  three four five" None 2 0 notes_world);
    [reflexivity|reflexivity|lia|].
  split; [|split].
  - intros i j _ _. apply demo_uuid4_inj.
  - intros j x _ [].
  - intros j c _ [].
Defined.

(** What a successful [reindex_document] did. *)
Lemma reindex_document_inv E d new_file_path size overlap w n w' :
  reindex_document E d new_file_path size overlap w = (Return n, w') ->
  exists p text pieces,
    match new_file_path with
    | Some q => q = p
    | None => select_path d (w_db w) = Some (Some p)
    end /\
    w_fs w !! p = Some text /\
    chunk_text text size overlap = Return pieces /\ n = len pieces /\
    chunks (w_db w') =
      chunks_not_of d (w_db w) ++ fresh_rows E d 0 pieces (w_uuids w) /\
    documents (w_db w') = documents (w_db w) /\
    w_fs w' = w_fs w /\ w_tmps w' = w_tmps w.
Proof.
  unfold reindex_document. intros H.
  assert (Hres : exists p,
    match new_file_path with
    | Some q => q = p
    | None => select_path d (w_db w) = Some (Some p)
    end /\
    match w_fs w !! p with
    | Some text =>
        match chunk_text text size overlap with
        | Return chunks =>
            match insert_chunks E d 0 chunks (w_uuids w)
                    (delete_chunks d (w_db w)) with
            | (Return tx, k) => (Return (len chunks), set_db (set_uuids w k) tx)
            | (Raise e, k) => (Raise e, set_uuids w k)
            end
        | Raise e => (Raise e, w)
        end
    | None => (Raise (FileNotFoundError (p +:+ " not found")), w)
    end = (Return n, w')).
  { destruct new_file_path as [q|]; [eauto|].
    destruct (select_path d (w_db w)) as [[q|]|]; try discriminate. eauto. }
  clear H. destruct Hres as (p & Hp & H).
  destruct (w_fs w !! p) as [text|] eqn:Hfs; [|discriminate].
  destruct (chunk_text text size overlap) as [pieces|e] eqn:Hct; [|discriminate].
  destruct (insert_chunks _ _ _ _ _ _) as [[tx|e] k] eqn:Hins; [|discriminate].
  injection H as <- <-.
  apply insert_chunks_return in Hins as (Hc & Hd & _). simpl in Hc, Hd.
  exists p, text, pieces. simpl. repeat split; auto.
Qed.

(** X8. With a supply of ids that is fresh for the store, re-indexing a
    stored document from a readable file (the new one, or the one at the
    stored path) with a positive chunk size succeeds. *)
Theorem reindex_document_succeeds (E : env) (d p text : string)
        (new_file_path : option string) (size overlap : Z) (w : world) :
  known_document d (w_db w) = true ->
  match new_file_path with
  | Some q => q = p
  | None => select_path d (w_db w) = Some (Some p)
  end ->
  w_fs w !! p = Some text -> 0 < size ->
  fresh_uuids E (w_uuids w) (w_db w) ->
  exists n w',
    reindex_document E d new_file_path size overlap w = (Return n, w').
Proof.
  intros Hknown Hp Hfs Hsize (Hinj & _ & Hchunks).
  unfold reindex_document.
  assert (Hres : match new_file_path with
                 | Some q => Return (Some q)
                 | None =>
                     match select_path d (w_db w) with
                     | Some path => Return path
                     | None => Raise (ValueError "document_id not found")
                     end
                 end = Return (Some p)).
  { destruct new_file_path as [q|]; [now subst|now rewrite Hp]. }
  rewrite Hres, Hfs.
  destruct (chunk_text_returns text size overlap Hsize) as [pieces ->].
  destruct (insert_chunks_succeeds E d pieces 0 (w_uuids w)
              (delete_chunks d (w_db w))) as [tx' Htx'].
  - exact Hknown.
  - exact Hinj.
  - intros j c Hj Hc. simpl in Hc. apply List.filter_In in Hc as [Hc _].
    now apply Hchunks.
  - rewrite Htx'. eauto.
Qed.

Lemma reindex_document_succeeds_witness :
  exists n w', reindex_document demo_env "doc-1" None 2 0 stale_world = (Return n, w').
Proof.
  apply (reindex_document_succeeds demo_env "doc-1" "notes.txt"
           "hello world again" None 2 0 stale_world);
    [reflexivity|reflexivity|reflexivity|lia|].
  split; [|split].
  - intros i j _ _. apply demo_uuid4_inj.
  - intros j x _ Hx. simpl in Hx.
    destruct Hx as [<-|[<-|[]]]; simpl; discriminate.
  - intros j c _ Hc. simpl in Hc.
    destruct Hc as [<-|[<-|[<-|[<-|[]]]]]; simpl; discriminate.
Defined.

(** *** Ingestion followed by re-indexing *)

Lemma fresh_rows_content E d idx pieces : forall k k',
  map row_content (fresh_rows E d idx pieces k) =
  map row_content (fresh_rows E d idx pieces k').
Proof.
  revert idx. induction pieces as [|piece rest IH]; intros idx k k'; simpl;
    [reflexivity|]. f_equal. apply IH.
Qed.

Lemma filter_unknown_document d (x : db) :
  known_document d x = false ->
  List.filter (fun doc => (d_id doc =? d)%string) (documents x) = [].
Proof.
  unfold known_document. intros H. apply SortFacts.filter_none.
  apply List.Forall_forall. now apply existsb_false_iff.
Qed.

Lemma select_path_appended d (x : db) doc :
  known_document d x = false -> d_id doc = d ->
  select_path d (Db (documents x ++ [doc]) (chunks x)) = Some (d_path doc).
Proof.
  intros Hnew Hid. unfold select_path. simpl.
  rewrite List.filter_app, (filter_unknown_document _ _ Hnew). simpl.
  now rewrite Hid, String.eqb_refl.
Qed.

Lemma chunks_of_unreferenced d (l : list chunk) (x : db) :
  known_document d x = false ->
  (forall c, In c l -> known_document (c_document_id c) x = true) ->
  List.filter (fun c => (c_document_id c =? d)%string) l = [].
Proof.
  intros Hnew Hfk. apply SortFacts.filter_none. apply List.Forall_forall.
  intros c Hc. apply String.eqb_neq. intros Heq.
  specialize (Hfk c Hc). congruence.
Qed.

(** X9. When every stored chunk belongs to a stored document, ingesting a
    file and then re-indexing the new document from its stored path, with
    the same sizes, gives the same count and rows with the same document,
    indices, texts and embeddings; only the row ids differ, and the rows of
    the other documents are the ones stored before the ingestion. *)
Theorem ingest_then_reindex_same_rows (E : env) (p : string)
        (title : option string) (size overlap : Z) (w w1 w2 : world)
        (d : string) (n m : Z) :
  (forall c, In c (chunks (w_db w)) ->
             known_document (c_document_id c) (w_db w) = true) ->
  add_document_from_file E p title size overlap w = (Return (d, n), w1) ->
  reindex_document E d None size overlap w1 = (Return m, w2) ->
  m = n /\
  map row_content (chunks_of d (w_db w2)) =
    map row_content (chunks_of d (w_db w1)) /\
  chunks_not_of d (w_db w2) = chunks (w_db w).
Proof.
  intros Hfk Hadd Hre.
  apply add_document_from_file_inv in Hadd
    as (text & pieces & Hfs & _ & Hct & Hid & -> & Hnew & Hd & Hc & Hfs1 & _).
  apply reindex_document_inv in Hre
    as (p' & text' & pieces' & Hp & Hfs' & Hct' & -> & Hc2 & _).
  assert (Hsel : select_path d (w_db w1) = Some (Some p)).
  { destruct (w_db w1) as [docs1 chunks1]. simpl in *. subst docs1.
    change (Db (documents (w_db w) ++ _) chunks1)
      with (Db (documents (Db (documents (w_db w)) chunks1) ++
                [Document d
                   match title with Some t => t | None => basename p end
                   (Some p) (utcnow E)])
               (chunks (Db (documents (w_db w)) chunks1))).
    now apply select_path_appended. }
  rewrite Hsel in Hp. injection Hp as <-.
  rewrite Hfs1, Hfs in Hfs'. injection Hfs' as <-.
  rewrite Hct in Hct'. injection Hct' as <-.
  pose proof (chunks_of_unreferenced d _ _ Hnew Hfk) as Hold.
  assert (Hothers : List.filter
            (fun c => negb (c_document_id c =? d)%string) (chunks (w_db w))
            = chunks (w_db w)).
  { apply List.forallb_filter_id. apply forallb_forall. intros c Hin.
    apply negb_true_iff, String.eqb_neq. intros Heq.
    specialize (Hfk c Hin). congruence. }
  assert (Hnot_fresh : forall k,
            List.filter (fun c => negb (c_document_id c =? d)%string)
                        (fresh_rows E d 0 pieces k) = []).
  { intros k. apply SortFacts.filter_none. apply List.Forall_forall.
    intros c Hin.
    pose proof (fresh_rows_document E d 0 pieces k) as Hall.
    rewrite List.Forall_forall in Hall. rewrite (Hall c Hin).
    now rewrite String.eqb_refl. }
  unfold chunks_not_of in Hc2.
  rewrite Hc, List.filter_app, Hothers, Hnot_fresh, app_nil_r in Hc2.
  split; [reflexivity|]. unfold chunks_of, chunks_not_of.
  rewrite Hc2, Hc, !List.filter_app, Hold, !filter_document_fresh.
  rewrite Hothers, Hnot_fresh, app_nil_r. simpl.
  split; [apply fresh_rows_content|reflexivity].
Qed.

Lemma ingest_then_reindex_same_rows_witness :
  exists d w1 w2,
    add_document_from_file demo_env "docs/notes.txt" None 2 0 notes_world
      = (Return (d, 3), w1) /\
    reindex_document demo_env d None 2 0 w1 = (Return 3, w2) /\
    map row_content (chunks_of d (w_db w2)) =
      map row_content (chunks_of d (w_db w1)).
Proof.
  pose (r1 := add_document_from_file demo_env "docs/notes.txt" None 2 0 notes_world).
  pose (r2 := reindex_document demo_env (uuid4 demo_env 0) None 2 0 (snd r1)).
  assert (H1 : r1 = (Return (uuid4 demo_env 0, 3), snd r1))
    by (vm_compute; reflexivity).
  assert (H2 : r2 = (Return 3, snd r2)) by (vm_compute; reflexivity).
  exists (uuid4 demo_env 0), (snd r1), (snd r2).
  split; [exact H1|]. split; [exact H2|].
  apply (ingest_then_reindex_same_rows demo_env "docs/notes.txt" None 2 0
           notes_world (snd r1) (snd r2) (uuid4 demo_env 0) 3 3);
    [intros c []|exact H1|exact H2].
Defined.

(** *** Pasted text and its temporary file *)

Lemma add_document_from_file_raise_keeps E p title size overlap w e w' :
  add_document_from_file E p title size overlap w = (Raise e, w') ->
  w_db w' = w_db w /\ w_fs w' = w_fs w /\ w_tmps w' = w_tmps w.
Proof.
  unfold add_document_from_file. intros H.
  destruct (w_fs w !! p) as [text|]; [|injection H as _ <-; auto].
  destruct (truthy (strip text)); simpl in H; [|injection H as _ <-; auto].
  destruct (insert_document _ _) as [tx|e1]; [|injection H as _ <-; auto].
  destruct (chunk_text text size overlap) as [pieces|e2];
    [|injection H as _ <-; auto].
  destruct (insert_chunks _ _ _ _ _ _) as [[tx'|e3] k]; [discriminate|].
  injection H as _ <-. auto.
Qed.

(** X10. After pasted text was ingested, the document's stored path is
    the temporary file, which has been removed: re-indexing the document
    from its stored path raises [FileNotFoundError], whatever the sizes. *)
Theorem pasted_text_cannot_be_reindexed (E : env) (text title : string)
        (size overlap : Z) (w w' : world) (msg : string) :
  whitespace_only text = false ->
  add_document_from_text E text title size overlap w = (Return msg, w') ->
  select_path (uuid4 E (w_uuids w)) (w_db w') = Some (Some (mktemp E (w_tmps w))) /\
  w_fs w' !! mktemp E (w_tmps w) = None /\
  forall size' overlap',
    reindex_document E (uuid4 E (w_uuids w)) None size' overlap' w' =
    (Raise (FileNotFoundError (mktemp E (w_tmps w) +:+ " not found")), w').
Proof.
  intros Hblank H. unfold add_document_from_text in H.
  rewrite (nonblank_truthy _ Hblank) in H. simpl in H.
  destruct (add_document_from_file _ _ _ _ _ _) as [[[d n]|e] w1] eqn:Hadd;
    [|discriminate].
  injection H as _ <-.
  apply add_document_from_file_inv in Hadd
    as (text' & pieces & _ & _ & _ & Hid & _ & Hnew & Hd & _).
  simpl in Hid, Hnew. subst d.
  assert (Hsel : select_path (uuid4 E (w_uuids w)) (w_db w1)
                 = Some (Some (mktemp E (w_tmps w)))).
  { destruct (w_db w1) as [docs1 chunks1]. simpl in Hd. subst docs1.
    change (Db (documents (w_db w) ++ ?l) chunks1)
      with (Db (documents (Db (documents (w_db w)) chunks1) ++ l)
               (chunks (Db (documents (w_db w)) chunks1))).
    now apply select_path_appended. }
  assert (Hgone : delete (mktemp E (w_tmps w)) (w_fs w1) !! mktemp E (w_tmps w)
                  = None) by apply lookup_delete_eq.
  split; [exact Hsel|]. split; [exact Hgone|].
  intros size' overlap'. now apply reindex_missing_file.
Qed.

Lemma pasted_text_cannot_be_reindexed_witness :
  exists msg w',
    add_document_from_text demo_env "some pasted words" "pasted_text" 200 50
      empty_world = (Return msg, w') /\
    reindex_document demo_env "uuid-0" None 200 50 w' =
      (Raise (FileNotFoundError "/tmp/tmp0.txt not found"), w').
Proof.
  pose (r := add_document_from_text demo_env "some pasted words" "pasted_text"
               200 50 empty_world).
  assert (Hr : r = (Return (match fst r with Return s => s | Raise _ => EmptyString end),
                    snd r)) by (vm_compute; reflexivity).
  eexists _, (snd r). split; [exact Hr|].
  destruct (pasted_text_cannot_be_reindexed demo_env "some pasted words"
              "pasted_text" 200 50 empty_world (snd r) _ eq_refl Hr)
    as (_ & _ & H).
  exact (H 200 50).
Defined.

(** X11. When [add_document_from_text] raises, nothing is stored and the
    temporary file it wrote is still there. *)
Theorem add_document_from_text_failure_leaves_temp_file (E : env)
        (text title : string) (size overlap : Z) (w w' : world) (e : exn) :
  add_document_from_text E text title size overlap w = (Raise e, w') ->
  w_db w' = w_db w /\
  w_fs w' = <[mktemp E (w_tmps w) := text]> (w_fs w) /\
  w_fs w' !! mktemp E (w_tmps w) = Some text.
Proof.
  unfold add_document_from_text. intros H.
  destruct (truthy (strip text)); simpl in H; [|discriminate].
  destruct (add_document_from_file _ _ _ _ _ _) as [[[d n]|e1] w1] eqn:Hadd;
    [discriminate|].
  injection H as _ <-.
  apply add_document_from_file_raise_keeps in Hadd as (Hdb & Hfs & _).
  simpl in Hdb, Hfs. rewrite Hfs.
  split; [assumption|]. split; [reflexivity|]. apply lookup_insert_eq.
Qed.

Lemma add_document_from_text_failure_leaves_temp_file_witness :
  exists w',
    add_document_from_text demo_env "some pasted words" "pasted_text" 0 0
      empty_world = (Raise (ValueError "chunk_size_words must be > 0"), w') /\
    w_fs w' !! "/tmp/tmp0.txt" = Some "some pasted words"%string.
Proof.
  pose (r := add_document_from_text demo_env "some pasted words" "pasted_text"
               0 0 empty_world).
  assert (Hr : r = (Raise (ValueError "chunk_size_words must be > 0"), snd r))
    by (vm_compute; reflexivity).
  exists (snd r). split; [exact Hr|].
  destruct (add_document_from_text_failure_leaves_temp_file _ _ _ _ _ _ _ _ Hr)
    as (_ & _ & H).
  exact H.
Defined.

(** *** Metadata *)

Lemma update_documents_ids d title path (l : list document) :
  map d_id (map (fun x => if (d_id x =? d)%string
                          then set_fields title path x else x) l) = map d_id l.
Proof.
  rewrite map_map. apply map_ext. intros x.
  now destruct (d_id x =? d)%string.
Qed.

Lemma filter_length_pos {A} (p : A -> bool) l :
  (0 <? length (List.filter p l))%nat = existsb p l.
Proof.
  induction l as [|x l IH]; simpl; [reflexivity|].
  destruct (p x); simpl; [reflexivity|assumption].
Qed.

(** X12. [update_document_metadata] returns true exactly when a title or
    a path is given and the document exists.  It never changes the chunks,
    the files, the ids, their order or the upload times; a row with
    another id is unchanged, and in a row with the id only the given
    fields change.  When it returns false the documents are unchanged. *)
Theorem update_document_metadata_effect (d : string) (title path : option string)
        (w : world) :
  fst (update_document_metadata d title path w) =
    (match title, path with None, None => false | _, _ => true end
     && known_document d (w_db w)) /\
  chunks (w_db (snd (update_document_metadata d title path w))) = chunks (w_db w) /\
  w_fs (snd (update_document_metadata d title path w)) = w_fs w /\
  documents (w_db (snd (update_document_metadata d title path w))) =
    map (fun x => if (d_id x =? d)%string
                  then Document (d_id x)
                         (match title with Some t => t | None => d_title x end)
                         (match path with Some q => Some q | None => d_path x end)
                         (d_uploaded_at x)
                  else x)
        (documents (w_db w)) /\
  map d_id (documents (w_db (snd (update_document_metadata d title path w)))) =
    map d_id (documents (w_db w)) /\
  map d_uploaded_at (documents (w_db (snd (update_document_metadata d title path w)))) =
    map d_uploaded_at (documents (w_db w)) /\
  (fst (update_document_metadata d title path w) = false ->
   documents (w_db (snd (update_document_metadata d title path w))) =
     documents (w_db w)).
Proof.
  assert (Hid : forall l : list document,
            map (fun x => if (d_id x =? d)%string
                          then set_fields None None x else x) l = l).
  { intros l. rewrite <- (map_id l) at 2. apply map_ext. intros [i t q u].
    simpl. now destruct (i =? d)%string. }
  assert (Hunknown : forall l : list document,
            existsb (fun x => (d_id x =? d)%string) l = false ->
            map (fun x => if (d_id x =? d)%string
                          then set_fields title path x else x) l = l).
  { intros l H. rewrite <- (map_id l) at 2. apply map_ext_in. intros x Hx.
    rewrite existsb_false_iff in H. now rewrite (H x Hx). }
  assert (Htimes : forall l : list document,
            map d_uploaded_at
                (map (fun x => if (d_id x =? d)%string
                               then set_fields title path x else x) l)
            = map d_uploaded_at l).
  { intros l. rewrite map_map. apply map_ext. intros x.
    now destruct (d_id x =? d)%string. }
  unfold update_document_metadata, known_document.
  destruct title as [t|], path as [q|]; simpl;
    rewrite ?filter_length_pos, ?update_documents_ids, ?Htimes, ?Hid;
    repeat split; auto; try (intros H; now apply Hunknown).
Qed.

(** X13. After the path of a stored document was updated, the stored path
    is the new one, and re-indexing without a file reads it: the call
    behaves as the call with the new path as the file. *)
Theorem update_path_then_reindex (E : env) (d : string)
        (title : option string) (q : string) (size overlap : Z) (w : world) :
  known_document d (w_db w) = true ->
  fst (update_document_metadata d title (Some q) w) = true /\
  select_path d (w_db (snd (update_document_metadata d title (Some q) w)))
    = Some (Some q) /\
  reindex_document E d None size overlap
    (snd (update_document_metadata d title (Some q) w)) =
  reindex_document E d (Some q) size overlap
    (snd (update_document_metadata d title (Some q) w)).
Proof.
  intros Hknown.
  assert (Hsel : select_path d
            (w_db (snd (update_document_metadata d title (Some q) w)))
            = Some (Some q)).
  { unfold update_document_metadata, select_path, known_document in *.
    destruct title as [t|]; simpl;
      induction (documents (w_db w)) as [|x l IH]; simpl in *;
      try discriminate;
      destruct (String.eqb_spec (d_id x) d) as [Heq|Hne]; simpl;
      rewrite ?Heq, ?String.eqb_refl; try reflexivity;
      (destruct (String.eqb_spec (d_id x) d); [contradiction|]);
      now apply IH. }
  split; [|split; [exact Hsel|]].
  - unfold update_document_metadata, known_document in *.
    destruct title; simpl; now rewrite filter_length_pos.
  - unfold reindex_document. now rewrite Hsel.
Qed.

Lemma update_path_then_reindex_witness :
  select_path "id-2"
    (w_db (snd (update_document_metadata "id-2" None (Some "fresh.txt")
                  two_docs_world))) = Some (Some "fresh.txt"%string) /\
  fst (reindex_document demo_env "id-2" None 200 50
         (snd (update_document_metadata "id-2" None (Some "fresh.txt")
                 two_docs_world))) = Return 1.
Proof.
  destruct (update_path_then_reindex demo_env "id-2" None "fresh.txt" 200 50
              two_docs_world eq_refl) as (_ & Hsel & Hre).
  split; [exact Hsel|]. rewrite Hre. vm_compute. reflexivity.
Defined.

(** *** The choices of the document selector *)

Lemma no_paren_append a b :
  no_paren (a +:+ b) = no_paren a && no_paren b.
Proof.
  induction a as [|c a IH]; [now rewrite append_nil_l|].
  rewrite append_cons. simpl. rewrite IH. now rewrite andb_assoc.
Qed.

Lemma after_last_paren_label t i :
  no_paren i = true -> after_last_paren (label t i) = i +:+ ")".
Proof.
  intros Hi. unfold label.
  assert (Htail : no_paren (i +:+ ")") = true).
  { rewrite no_paren_append, Hi. reflexivity. }
  induction t as [|c t IH].
  - rewrite append_nil_l.
    change (" (" +:+ i +:+ ")") with (String " " (String "(" (i +:+ ")"))).
    cbn [after_last_paren no_paren]. rewrite Htail. reflexivity.
  - rewrite append_cons. cbn [after_last_paren].
    replace (no_paren (t +:+ " (" +:+ i +:+ ")")) with false; [exact IH|].
    rewrite no_paren_append.
    change (" (" +:+ i +:+ ")") with (String " " (String "(" (i +:+ ")"))).
    simpl. now rewrite andb_false_r.
Qed.

Lemma append_inj_l a b (c : ascii) :
  a +:+ String c "" = b +:+ String c "" -> a = b.
Proof.
  revert b. induction a as [|x a IH]; intros [|y b];
    rewrite ?append_nil_l, ?append_cons; intros H.
  - reflexivity.
  - injection H as _ H. destruct b; rewrite ?append_nil_l, ?append_cons in H;
      discriminate.
  - injection H as _ H. destruct a; rewrite ?append_nil_l, ?append_cons in H;
      discriminate.
  - injection H as -> H. f_equal. now apply IH.
Qed.

Lemma label_id_inj t i t' i' :
  no_paren i = true -> no_paren i' = true ->
  label t i = label t' i' -> i = i'.
Proof.
  intros Hi Hi' H. apply (f_equal after_last_paren) in H.
  rewrite !after_last_paren_label in H by assumption.
  now apply append_inj_l in H.
Qed.

Lemma find_app_first {A} (p : A -> bool) (l l' : list A) :
  List.find p (l ++ l') =
  match List.find p l with Some x => Some x | None => List.find p l' end.
Proof.
  induction l as [|x l IH]; simpl; [reflexivity|].
  now destruct (p x).
Qed.

Lemma list_documents_fold (l : list document) : forall (m : gmap string string) k,
  fold_left (fun m d => <[label (d_title d) (d_id d) := d_id d]> m) l m !! k =
  match List.find (fun d => bool_decide (label (d_title d) (d_id d) = k)) (rev l) with
  | Some d => Some (d_id d)
  | None => m !! k
  end.
Proof.
  induction l as [|x l IH]; intros m k; simpl; [reflexivity|].
  rewrite IH, find_app_first.
  destruct (List.find _ (rev l)) as [d|]; [reflexivity|]. simpl.
  destruct (bool_decide_reflect (label (d_title x) (d_id x) = k)) as [<-|Hne].
  - now rewrite lookup_insert_eq.
  - now rewrite lookup_insert_ne.
Qed.

(** X14. Every choice that [list_documents] offers is the label
    [title (id)] of a stored document and stands for that document's id.
    When no id contains an opening parenthesis (the ids are uuid4
    strings), every stored document is offered under its own label and
    the label selects its own id, whatever the titles are. *)
Theorem list_documents_selects (w : world) :
  (forall x, In x (documents (w_db w)) -> no_paren (d_id x) = true) ->
  (forall k v, list_documents w !! k = Some v ->
     exists x, In x (documents (w_db w)) /\
               k = label (d_title x) (d_id x) /\ v = d_id x) /\
  (forall x, In x (documents (w_db w)) ->
     list_documents w !! label (d_title x) (d_id x) = Some (d_id x)).
Proof.
  intros Hids. unfold list_documents.
  assert (Hfrom : forall k v,
    fold_left (fun m d => <[label (d_title d) (d_id d) := d_id d]> m)
      (documents (w_db w)) (∅ : gmap string string) !! k = Some v ->
    exists x, In x (documents (w_db w)) /\
              k = label (d_title x) (d_id x) /\ v = d_id x).
  { intros k v. rewrite list_documents_fold.
    destruct (List.find _ _) as [d|] eqn:Hfind.
    - intros [= <-]. apply find_some in Hfind as [Hin Hk].
      apply bool_decide_eq_true in Hk. apply in_rev in Hin. eauto.
    - rewrite lookup_empty. discriminate. }
  split; [exact Hfrom|].
  intros x Hx. rewrite list_documents_fold.
  destruct (List.find _ _) as [d|] eqn:Hfind.
  - apply find_some in Hfind as [Hin Hk].
    apply bool_decide_eq_true in Hk. apply in_rev in Hin.
    f_equal. eapply label_id_inj; eauto.
  - apply in_rev in Hx. apply (find_none _ _ Hfind x) in Hx as Hno.
    apply bool_decide_eq_false in Hno. now contradiction Hno.
Qed.

Lemma list_documents_selects_witness :
  list_documents two_docs_world !! "notes (old) (id-2)"%string
    = Some "id-2"%string.
Proof.
  assert (Hids : forall x, In x (documents (w_db two_docs_world)) ->
                           no_paren (d_id x) = true).
  { intros x [<-|[<-|[]]]; reflexivity. }
  destruct (list_documents_selects two_docs_world Hids) as [_ H].
  apply (H (Document "id-2" "notes (old)" None "2024-12-31 23:59:59")).
  simpl. auto.
Defined.

(** *** Updating a document with pasted text *)

Lemma reindex_new_file_returns E d p text size overlap w :
  known_document d (w_db w) = true ->
  w_fs w !! p = Some text -> 0 < size ->
  fresh_uuids E (w_uuids w) (w_db w) ->
  exists pieces w',
    chunk_text text size overlap = Return pieces /\
    reindex_document E d (Some p) size overlap w = (Return (len pieces), w').
Proof.
  intros Hknown Hfs Hsize (Hinj & _ & Hchunks).
  unfold reindex_document. rewrite Hfs.
  destruct (chunk_text_returns text size overlap Hsize) as [pieces Hp].
  rewrite Hp.
  destruct (insert_chunks_succeeds E d pieces 0 (w_uuids w)
              (delete_chunks d (w_db w))) as [tx' Htx'].
  - exact Hknown.
  - exact Hinj.
  - intros j c Hj Hc. simpl in Hc. apply List.filter_In in Hc as [Hc _].
    now apply Hchunks.
  - rewrite Htx'. eauto.
Qed.

Lemma reindex_document_raise_keeps E d new_file_path size overlap w e w' :
  reindex_document E d new_file_path size overlap w = (Raise e, w') ->
  w_db w' = w_db w /\ w_fs w' = w_fs w /\ w_tmps w' = w_tmps w.
Proof.
  unfold reindex_document. intros H.
  destruct (match new_file_path with
            | Some p => Return (Some p)
            | None => _
            end) as [[p|]|e0]; try (injection H as _ <-; now auto).
  destruct (w_fs w !! p) as [text|]; [|injection H as _ <-; now auto].
  destruct (chunk_text text size overlap) as [pieces|e1];
    [|injection H as _ <-; now auto].
  destruct (insert_chunks _ _ _ _ _ _) as [[tx|e2] k];
    [discriminate|injection H as _ <-; now auto].
Qed.

(** X15. Updating a stored document with pasted text (no file, text not
    blank, positive chunk size, fresh ids) succeeds: the rows of the
    document are replaced by the rows of the chunks of the pasted text,
    the rows of the other documents and the documents table are kept, the
    message counts the chunks, and the temporary file that carried the
    text is gone from the file system. *)
Theorem handle_update_with_text (E : env) (d new_text : string)
        (size overlap : Z) (w : world) :
  known_document d (w_db w) = true ->
  truthy (strip new_text) = true -> 0 < size ->
  fresh_uuids E (w_uuids w) (w_db w) ->
  exists pieces w',
    chunk_text new_text size overlap = Return pieces /\
    handle_update E d new_text None size overlap w =
      (Return ("🔄 Updated document " +:+ d +:+ " with "
               +:+ str_of_int (len pieces) +:+ " chunks from new text."), w') /\
    documents (w_db w') = documents (w_db w) /\
    chunks (w_db w') =
      chunks_not_of d (w_db w) ++ fresh_rows E d 0 pieces (w_uuids w) /\
    w_fs w' = delete (mktemp E (w_tmps w)) (w_fs w) /\
    w_tmps w' = S (w_tmps w).
Proof.
  intros Hknown Htext Hsize Hfresh.
  unfold handle_update. rewrite Htext.
  set (tmp := mktemp E (w_tmps w)).
  set (w1 := set_tmps (set_fs w (<[tmp := new_text]> (w_fs w))) (S (w_tmps w))).
  destruct (reindex_new_file_returns E d tmp new_text size overlap w1)
    as (pieces & w2 & Hp & Hre); try assumption.
  { unfold w1. simpl. apply lookup_insert_eq. }
  rewrite Hre.
  apply reindex_document_inv in Hre
    as (p & text & pieces' & <- & Hfs & Hp' & _ & Hc & Hd & Hfs' & Htmps).
  unfold w1 in Hfs. simpl in Hfs. rewrite lookup_insert_eq in Hfs.
  injection Hfs as <-. rewrite Hp in Hp'. injection Hp' as <-.
  exists pieces. eexists. split; [exact Hp|]. split; [reflexivity|].
  simpl. rewrite Hd, Hc, Hfs', Htmps. unfold w1. simpl.
  rewrite delete_insert_eq. auto.
Qed.

Lemma handle_update_with_text_witness :
  exists w',
    handle_update demo_env "id-2" "brand new words" None 2 0 two_docs_world =
      (Return "🔄 Updated document id-2 with 2 chunks from new text."%string, w') /\
    map c_text (chunks (w_db w')) = ["one"; "brand new"; "words"]%string /\
    w_fs w' = delete "/tmp/tmp0.txt"%string (w_fs two_docs_world).
Proof.
  destruct (handle_update_with_text demo_env "id-2" "brand new words" 2 0
              two_docs_world) as (pieces & w' & Hp & Hre & _ & Hc & Hfs & _);
    [reflexivity|reflexivity|lia| |].
  - split; [|split].
    + intros i j _ _. apply demo_uuid4_inj.
    + intros j x _ Hx. simpl in Hx.
      destruct Hx as [<-|[<-|[]]]; simpl; discriminate.
    + intros j c _ Hc. simpl in Hc.
      destruct Hc as [<-|[]]; simpl; discriminate.
  - assert (Hpieces : pieces = ["brand new"; "words"]%string).
    { vm_compute in Hp. now injection Hp. }
    subst pieces. exists w'. split; [exact Hre|]. split; [|exact Hfs].
    rewrite Hc. reflexivity.
Defined.

(** X16. Whatever its arguments and its outcome, [handle_update] leaves
    the documents table as it was; when it raises, the chunks are as
    before as well, and in the pasted-text case the temporary file is
    still there, holding the text. *)
Theorem handle_update_keeps_documents (E : env) (d new_text : string)
        (new_file : option string) (size overlap : Z) (w : world) :
  documents (w_db (snd (handle_update E d new_text new_file size overlap w)))
    = documents (w_db w) /\
  (forall e, fst (handle_update E d new_text new_file size overlap w) = Raise e ->
     w_db (snd (handle_update E d new_text new_file size overlap w)) = w_db w /\
     (new_file = None ->
      w_fs (snd (handle_update E d new_text new_file size overlap w))
        = <[mktemp E (w_tmps w) := new_text]> (w_fs w))).
Proof.
  unfold handle_update. destruct new_file as [name|].
  - destruct (reindex_document E d (Some name) size overlap w) as [[n|e0] w1]
      eqn:Hre; simpl.
    + apply reindex_document_inv in Hre
        as (p & text & pieces & _ & _ & _ & _ & _ & Hd & _).
      split; [now rewrite Hd|]. discriminate.
    + apply reindex_document_raise_keeps in Hre as (Hdb & _).
      split; [now rewrite Hdb|]. intros e _. split; [exact Hdb|discriminate].
  - destruct (truthy (strip new_text)); [|simpl; split; [reflexivity|discriminate]].
    set (w1 := set_tmps _ _).
    destruct (reindex_document E d _ size overlap w1) as [[n|e0] w2]
      eqn:Hre; simpl.
    + apply reindex_document_inv in Hre
        as (p & text & pieces & _ & _ & _ & _ & _ & Hd & _).
      split; [now rewrite Hd|]. discriminate.
    + apply reindex_document_raise_keeps in Hre as (Hdb & Hfs & _).
      split; [now rewrite Hdb|]. intros e _. split; [exact Hdb|].
      intros _. now rewrite Hfs.
Qed.

(** *** The constraints of the schema *)

Lemma existsb_id_false {A} (f : A -> string) (l : list A) (i : string) :
  existsb (fun x => (f x =? i)%string) l = false -> ~ In i (map f l).
Proof.
  intros H Hin. apply in_map_iff in Hin as (x & <- & Hx).
  rewrite existsb_false_iff in H. specialize (H x Hx).
  now rewrite String.eqb_refl in H.
Qed.

Lemma NoDup_map_snoc {A} (f : A -> string) (l : list A) (x : A) :
  List.NoDup (map f l) -> ~ In (f x) (map f l) -> List.NoDup (map f (l ++ [x])).
Proof.
  intros Hnd Hx. rewrite map_app. simpl.
  induction (map f l) as [|y m IH]; simpl.
  - constructor; [auto|constructor].
  - inversion Hnd as [|? ? Hy Hm]; subst. constructor.
    + rewrite in_app_iff. simpl. intros [H|[H|[]]]; [contradiction|].
      apply Hx. left. congruence.
    + apply IH; [assumption|]. intros H. apply Hx. now right.
Qed.

Lemma NoDup_map_filter {A} (f : A -> string) (p : A -> bool) (l : list A) :
  List.NoDup (map f l) -> List.NoDup (map f (List.filter p l)).
Proof.
  induction l as [|x l IH]; simpl; [auto|].
  intros Hnd. inversion Hnd as [|? ? Hx Hl]; subst.
  destruct (p x); simpl; [|now apply IH].
  constructor; [|now apply IH].
  intros Hin. apply Hx. apply in_map_iff in Hin as (y & Hy & Hin).
  apply List.filter_In in Hin as [Hin _]. apply in_map_iff. eauto.
Qed.

Lemma insert_document_wellformed x tx tx' :
  wellformed tx -> insert_document x tx = Return tx' -> wellformed tx'.
Proof.
  intros (Hd & Hc & Hfk). unfold insert_document.
  destruct (existsb _ (documents tx)) eqn:Hpk; [discriminate|].
  intros [= <-]. split; [|split]; simpl.
  - apply NoDup_map_snoc; [assumption|]. now apply existsb_id_false.
  - assumption.
  - intros c Hin. specialize (Hfk c Hin). unfold known_document in *. simpl.
    rewrite existsb_app, Hfk. reflexivity.
Qed.

Lemma insert_chunk_wellformed c tx tx' :
  wellformed tx -> insert_chunk c tx = Return tx' -> wellformed tx'.
Proof.
  intros (Hd & Hc & Hfk). unfold insert_chunk.
  destruct (existsb _ (chunks tx)) eqn:Hpk; [discriminate|].
  destruct (existsb _ (documents tx)) eqn:Hdoc; [|discriminate].
  intros [= <-]. split; [|split]; simpl.
  - assumption.
  - apply NoDup_map_snoc; [assumption|]. now apply existsb_id_false.
  - intros c' Hin. apply in_app_iff in Hin as [Hin|[<-|[]]].
    + apply (Hfk c' Hin).
    + exact Hdoc.
Qed.

Lemma insert_chunks_wellformed E d pieces : forall idx k tx tx' k',
  wellformed tx ->
  insert_chunks E d idx pieces k tx = (Return tx', k') -> wellformed tx'.
Proof.
  induction pieces as [|piece rest IH]; intros idx k tx tx' k' Hwf; simpl.
  - now intros [= <- _].
  - destruct (insert_chunk _ tx) as [tx1|e] eqn:Hins; [|discriminate].
    apply IH. eapply insert_chunk_wellformed; eassumption.
Qed.

Lemma delete_chunks_wellformed d tx :
  wellformed tx -> wellformed (delete_chunks d tx).
Proof.
  intros (Hd & Hc & Hfk). split; [|split]; simpl.
  - assumption.
  - now apply NoDup_map_filter.
  - intros c Hin. apply List.filter_In in Hin as [Hin _]. apply (Hfk c Hin).
Qed.

Lemma add_document_from_file_wellformed E p title size overlap w :
  wellformed (w_db w) ->
  wellformed (w_db (snd (add_document_from_file E p title size overlap w))).
Proof.
  intros Hwf. unfold add_document_from_file.
  destruct (w_fs w !! p) as [text|]; [|assumption].
  destruct (truthy (strip text)); simpl; [|assumption].
  destruct (insert_document _ _) as [tx|e] eqn:Hdoc; [|assumption].
  destruct (chunk_text text size overlap) as [pieces|e]; [|assumption].
  destruct (insert_chunks _ _ _ _ _ _) as [[tx'|e] k] eqn:Hins; [|assumption].
  simpl. eapply insert_chunks_wellformed; [|eassumption].
  eapply insert_document_wellformed; eassumption.
Qed.

Lemma reindex_document_wellformed E d new_file_path size overlap w :
  wellformed (w_db w) ->
  wellformed (w_db (snd (reindex_document E d new_file_path size overlap w))).
Proof.
  intros Hwf. unfold reindex_document.
  destruct (match new_file_path with
            | Some p => Return (Some p)
            | None => _
            end) as [[p|]|e0]; try assumption.
  destruct (w_fs w !! p) as [text|]; [|assumption].
  destruct (chunk_text text size overlap) as [pieces|e]; [|assumption].
  destruct (insert_chunks _ _ _ _ _ _) as [[tx'|e] k] eqn:Hins; [|assumption].
  simpl. eapply insert_chunks_wellformed; [|eassumption].
  now apply delete_chunks_wellformed.
Qed.

Lemma update_documents_known d t q i (l : list document) :
  existsb (fun x => (d_id x =? i)%string)
          (map (fun x => if (d_id x =? d)%string
                         then set_fields t q x else x) l)
  = existsb (fun x => (d_id x =? i)%string) l.
Proof.
  induction l as [|x l IH]; simpl; [reflexivity|]. rewrite IH. f_equal.
  now destruct (d_id x =? d)%string.
Qed.

(** X26. The constraints of the schema are an invariant of the store:
    when the document ids and the chunk ids are unique and every chunk
    references a stored document, the same holds after each of the calls
    that write to the store, whatever their arguments and whether they
    return or raise. *)
Theorem store_stays_wellformed (E : env) (w : world) :
  wellformed (w_db w) ->
  (forall p title size overlap,
     wellformed (w_db (snd (add_document_from_file E p title size overlap w)))) /\
  (forall text title size overlap,
     wellformed (w_db (snd (add_document_from_text E text title size overlap w)))) /\
  (forall d new_file_path size overlap,
     wellformed
       (w_db (snd (reindex_document E d new_file_path size overlap w)))) /\
  (forall d title path,
     wellformed (w_db (snd (update_document_metadata d title path w)))) /\
  (forall d new_text new_file size overlap,
     wellformed
       (w_db (snd (handle_update E d new_text new_file size overlap w)))).
Proof.
  intros Hwf. split; [|split; [|split; [|split]]].
  - intros. now apply add_document_from_file_wellformed.
  - intros text title size overlap. unfold add_document_from_text.
    destruct (truthy (strip text)); simpl; [|assumption].
    set (w1 := set_tmps _ _).
    pose proof (add_document_from_file_wellformed E (mktemp E (w_tmps w))
                  (Some title) size overlap w1 Hwf) as H.
    destruct (add_document_from_file _ _ _ _ _ w1) as [[[doc_id n]|e] w2];
      exact H.
  - intros. now apply reindex_document_wellformed.
  - intros d title path. destruct Hwf as (Hd & Hc & Hfk).
    assert (Hids : forall t q,
              map d_id (map (fun x => if (d_id x =? d)%string
                                      then set_fields t q x else x)
                            (documents (w_db w)))
              = map d_id (documents (w_db w)))
      by (intros; apply update_documents_ids).
    pose proof (fun t q i =>
                  update_documents_known d t q i (documents (w_db w)))
      as Hknown.
    unfold update_document_metadata.
    destruct title as [t|], path as [q|]; simpl;
      try (unfold wellformed; simpl; rewrite Hids;
           split; [assumption|split; [assumption|]];
           intros c Hin; unfold known_document; simpl;
           rewrite Hknown; now apply Hfk).
    now repeat split.
  - intros d new_text new_file size overlap. unfold handle_update.
    destruct new_file as [name|].
    + pose proof (reindex_document_wellformed E d (Some name) size overlap w Hwf)
        as H.
      destruct (reindex_document _ _ _ _ _ w) as [[n|e] w1]; exact H.
    + destruct (truthy (strip new_text)); [|assumption].
      set (w1 := set_tmps _ _).
      pose proof (reindex_document_wellformed E d
                    (Some (mktemp E (w_tmps w))) size overlap w1 Hwf) as H.
      destruct (reindex_document _ _ _ _ _ w1) as [[n|e] w2]; exact H.
Qed.

Lemma store_stays_wellformed_witness :
  wellformed (w_db (snd (reindex_document demo_env "id-2" (Some "fresh.txt")
                           200 50 two_docs_world))).
Proof.
  apply (store_stays_wellformed demo_env two_docs_world).
  split; [|split].
  - simpl. repeat constructor; simpl; intuition discriminate.
  - simpl. repeat constructor; simpl; intuition discriminate.
  - intros c Hin. simpl in Hin. destruct Hin as [<-|[]]. reflexivity.
Defined.

(** *** Re-indexing twice *)

(** X27. Re-indexing is idempotent up to the row ids: a second
    [reindex_document] with the same arguments returns the same count,
    leaves the rows of the document with the same content (document id,
    index, text, embedding) and leaves the rows of the other documents as
    the first call left them. *)
Theorem reindex_twice_same_rows (E : env) (d : string)
        (new_file_path : option string) (size overlap : Z)
        (w w1 w2 : world) (n m : Z) :
  reindex_document E d new_file_path size overlap w = (Return n, w1) ->
  reindex_document E d new_file_path size overlap w1 = (Return m, w2) ->
  m = n /\
  map row_content (chunks_of d (w_db w2)) =
    map row_content (chunks_of d (w_db w1)) /\
  chunks_not_of d (w_db w2) = chunks_not_of d (w_db w1) /\
  documents (w_db w2) = documents (w_db w).
Proof.
  intros H1 H2.
  apply reindex_document_inv in H1
    as (p & text & pieces & Hp & Hfs & Hpieces & -> & Hc & Hd & Hfs1 & _).
  apply reindex_document_inv in H2
    as (p' & text' & pieces' & Hp' & Hfs' & Hpieces' & -> & Hc' & Hd' & _).
  assert (p' = p) as ->.
  { destruct new_file_path as [q|]; [congruence|].
    unfold select_path in *. rewrite Hd in Hp'. congruence. }
  rewrite Hfs1, Hfs in Hfs'. injection Hfs' as <-.
  rewrite Hpieces in Hpieces'. injection Hpieces' as <-.
  assert (Hnot_fresh : forall k,
            List.filter (fun c => negb (c_document_id c =? d)%string)
                        (fresh_rows E d 0 pieces k) = []).
  { intros k. apply SortFacts.filter_none. apply List.Forall_forall.
    intros c Hin.
    pose proof (fresh_rows_document E d 0 pieces k) as Hall.
    rewrite List.Forall_forall in Hall. rewrite (Hall c Hin).
    now rewrite String.eqb_refl. }
  assert (Hidem : forall l : list chunk,
            List.filter (fun c => negb (c_document_id c =? d)%string)
              (List.filter (fun c => negb (c_document_id c =? d)%string) l)
            = List.filter (fun c => negb (c_document_id c =? d)%string) l).
  { intros l. induction l as [|c l IH]; simpl; [reflexivity|].
    destruct (negb (c_document_id c =? d)%string) eqn:Hc0; simpl;
      [now rewrite Hc0, IH|exact IH]. }
  assert (Hview : forall x k,
            chunks x = chunks_not_of d (w_db w) ++ fresh_rows E d 0 pieces k ->
            chunks_of d x = fresh_rows E d 0 pieces k /\
            chunks_not_of d x = chunks_not_of d (w_db w)).
  { intros x k Hx. unfold chunks_of, chunks_not_of in *. rewrite Hx.
    rewrite !List.filter_app, filter_document_fresh, filter_document_others.
    rewrite Hidem, Hnot_fresh, app_nil_r. auto. }
  destruct (Hview _ _ Hc) as [Hof1 Hnot1].
  rewrite Hnot1 in Hc'.
  destruct (Hview _ _ Hc') as [Hof2 Hnot2].
  split; [reflexivity|]. rewrite Hof1, Hof2, Hnot1, Hnot2.
  split; [apply fresh_rows_content|]. split; [reflexivity|congruence].
Qed.

Lemma reindex_twice_same_rows_witness :
  exists w1 w2,
    reindex_document demo_env "id-2" (Some "fresh.txt") 1 0 two_docs_world
      = (Return 2, w1) /\
    reindex_document demo_env "id-2" (Some "fresh.txt") 1 0 w1 = (Return 2, w2) /\
    map row_content (chunks_of "id-2" (w_db w2)) =
      map row_content (chunks_of "id-2" (w_db w1)).
Proof.
  pose (r1 := reindex_document demo_env "id-2" (Some "fresh.txt") 1 0
                two_docs_world).
  assert (H1 : r1 = (Return 2, snd r1)) by (vm_compute; reflexivity).
  pose (r2 := reindex_document demo_env "id-2" (Some "fresh.txt") 1 0 (snd r1)).
  assert (H2 : r2 = (Return 2, snd r2)) by (vm_compute; reflexivity).
  exists (snd r1), (snd r2). split; [exact H1|]. split; [exact H2|].
  apply (reindex_twice_same_rows demo_env "id-2" (Some "fresh.txt") 1 0
           two_docs_world (snd r1) (snd r2) 2 2 H1 H2).
Defined.

End StoreMore.

(** ** The retriever *)
Module RetrieverMore.
Import PyStr PyStrFacts ChunkerFacts Store Retriever FloatFacts SortFacts RetrieverFacts.
Local Open Scope float_scope.

(** *** When retrieval fails *)


Lemma retrieve_chunks_scored E query k w :
  retrieve_chunks E query k w =
  match score_rows (encode E query) (chunks (w_db w)) with
  | Return scored =>
      Return (dedupe (context_chunks (w_db w)
                        (slice (sort_reverse sim_lt scored) 0 k)))
  | Raise e => Raise e
  end.
Proof.
  unfold retrieve_chunks, rank_chunks.
  now destruct (score_rows _ _).
Qed.


(** *** What retrieval returns *)

Lemma In_firstn_skipn {A} (x : A) n : forall m l,
  In x (firstn n (skipn m l)) -> In x l.
Proof.
  intros m l H.
  rewrite <- (firstn_skipn m l). apply in_or_app. right.
  rewrite <- (firstn_skipn n (skipn m l)). apply in_or_app. now left.
Qed.

Lemma In_slice {A} (l : list A) i j x : In x (slice l i j) -> In x l.
Proof. unfold slice. apply In_firstn_skipn. Qed.

Lemma nearby_stored d doc_id idx t :
  In t (nearby d doc_id idx) -> exists c, In c (chunks d) /\ c_text c = t.
Proof.
  unfold nearby. intros H. apply in_map_iff in H as (c & Ht & Hc).
  apply List.filter_In in Hc as [Hc _]. eauto.
Qed.

Lemma scored_stored q rows scored h :
  score_rows q rows = Return scored -> In h scored ->
  exists c, In c rows /\ c_text c = s_text h.
Proof.
  intros Hs Hh. apply score_rows_entries in Hs.
  apply (in_map entry_of_scored) in Hh. rewrite Hs in Hh.
  apply in_map_iff in Hh as (c & Hc & Hin). exists c. split; [exact Hin|].
  unfold entry_of_row, entry_of_scored in Hc. congruence.
Qed.

(** X18. The texts that [retrieve_chunks] returns are pairwise distinct
    and each of them is the text of a stored chunk; with [k = 0], or with
    no chunk stored, the list is empty. *)
Theorem retrieve_chunks_texts_stored (E : env) (query : string) (k : Z)
        (w : world) (out : list string) :
  retrieve_chunks E query k w = Return out ->
  List.NoDup out /\
  (forall t, In t out -> exists c, In c (chunks (w_db w)) /\ c_text c = t) /\
  (k = 0%Z -> out = []) /\
  (chunks (w_db w) = [] -> out = []).
Proof.
  rewrite retrieve_chunks_scored.
  destruct (score_rows _ _) as [scored|e] eqn:Hs; [|discriminate].
  intros [= <-]. rewrite dedupe_first_occurrences.
  split; [apply first_occurrences_NoDup|]. split; [|split].
  - intros t Ht. apply (proj1 (first_occurrences_In _ _)) in Ht.
    unfold context_chunks in Ht. apply in_flat_map in Ht as (h & Hh & Ht).
    destruct Ht as [<-|Ht]; [|now apply nearby_stored in Ht].
    apply In_slice in Hh.
    apply (Permutation_in _ (sort_reverse_perm sim_lt scored)) in Hh.
    eapply scored_stored; eassumption.
  - intros ->. unfold slice, clamp_index. simpl.
    replace (Z.min 0 (len (sort_reverse sim_lt scored)) - _)%Z with 0%Z
      by (pose proof (len_nonneg (sort_reverse sim_lt scored)); lia).
    reflexivity.
  - intros Hempty. rewrite Hempty in Hs. simpl in Hs. injection Hs as <-.
    unfold slice. simpl. now rewrite firstn_nil.
Qed.

Lemma retrieve_chunks_texts_stored_witness :
  exists out,
    retrieve_chunks demo_env "q" 1 five_world = Return out /\
    List.NoDup out /\
    forall t, In t out ->
      exists c, In c (chunks (w_db five_world)) /\ c_text c = t.
Proof.
  pose (r := retrieve_chunks demo_env "q" 1 five_world).
  pose (out := match r with Return l => l | Raise _ => [] end).
  assert (Hr : r = Return out) by (vm_compute; reflexivity).
  destruct (retrieve_chunks_texts_stored demo_env "q" 1 five_world out Hr)
    as (Hnd & Hin & _).
  exists out. auto.
Defined.

(** X19. A negative [k] does not fail and does not mean "nothing": the
    slice [similarities[:k]] drops the last [-k] entries of the ranking,
    so the call returns what the call with [k] increased by the number of
    stored chunks returns (with 0 when that is negative). *)
Theorem retrieve_chunks_negative_k (E : env) (query : string) (k : Z)
        (w : world) :
  (k < 0)%Z ->
  retrieve_chunks E query k w =
  retrieve_chunks E query (Z.max 0 (len (chunks (w_db w)) + k)) w.
Proof.
  intros Hk. rewrite !retrieve_chunks_scored.
  destruct (score_rows _ _) as [scored|e] eqn:Hs; [|reflexivity].
  assert (Hlen : len (sort_reverse sim_lt scored) = len (chunks (w_db w))).
  { unfold len. rewrite (Permutation_length (sort_reverse_perm sim_lt scored)).
    apply score_rows_entries in Hs.
    now rewrite <- (length_map entry_of_scored), Hs, length_map. }
  do 2 f_equal. unfold slice, clamp_index. rewrite Hlen.
  pose proof (len_nonneg (chunks (w_db w))) as Hn.
  destruct (Z.ltb_spec k 0) as [_|]; [|lia].
  destruct (Z.ltb_spec (Z.max 0 (len (chunks (w_db w)) + k)) 0) as [|_]; [lia|].
  do 2 f_equal. lia.
Qed.

Lemma retrieve_chunks_negative_k_witness :
  retrieve_chunks demo_env "q" (-4) five_world = Return ["t2"; "t1"; "t3"]%string.
Proof.
  rewrite (retrieve_chunks_negative_k demo_env "q" (-4) five_world); [|lia].
  vm_compute. reflexivity.
Defined.

(** *** Symmetry of the similarity *)




(** *** The best hit *)

Lemma filter_head {A} (p : A -> bool) (l : list A) h rest :
  List.filter p l = h :: rest ->
  exists i, l !! i = Some h /\
            forall j y, (j < i)%nat -> l !! j = Some y -> p y = false.
Proof.
  induction l as [|x l IH]; simpl; [discriminate|].
  destruct (p x) eqn:Hx.
  - intros [= -> _]. exists 0%nat. split; [reflexivity|]. intros j y Hj. lia.
  - intros H. destruct (IH H) as (i & Hi & Hbefore). exists (S i).
    split; [exact Hi|]. intros [|j] y Hj; simpl.
    + now intros [= <-].
    + apply Hbefore. lia.
Qed.

Lemma leb_not_eqb_ltb x y :
  is_nan x = false -> is_nan y = false ->
  (x <=? y) = true -> (x =? y) = false -> (x <? y) = true.
Proof.
  intros Hx Hy Hle Hne.
  destruct (not_nan_key _ Hx) as [a Ha], (not_nan_key _ Hy) as [b Hb].
  rewrite (leb_key _ _ _ _ Ha Hb) in Hle.
  rewrite (ltb_key _ _ _ _ Ha Hb).
  assert (Hab : a <> b).
  { intros Hab. apply (eqb_key _ _ _ _ Ha Hb) in Hab. congruence. }
  destruct a as [[a1 a2] a3], b as [[b1 b2] b3]. unfold key_lt in *.
  simpl in *.
  assert (a1 <> b1 \/ a2 <> b2 \/ a3 <> b3)%Z as Hd.
  { destruct (Z.eq_dec a1 b1), (Z.eq_dec a2 b2), (Z.eq_dec a3 b3); subst;
      try tauto. }
  lia.
Qed.

Lemma eqb_refl_not_nan x : is_nan x = false -> (x =? x) = true.
Proof.
  intros Hx. destruct (not_nan_key _ Hx) as [a Ha].
  now apply (eqb_key _ _ _ _ Ha Ha).
Qed.

(** X21. When no similarity is NaN, some chunk is stored and [k >= 1], the
    first text returned is the text of the best chunk: the entry of the
    scan whose similarity is greater than or equal to every other one and
    strictly greater than that of every entry scanned before it. *)
Theorem best_chunk_comes_first (E : env) (query : string) (k : Z)
        (w : world) (scored : list scored) :
  score_rows (encode E query) (chunks (w_db w)) = Return scored ->
  List.Forall (fun h => is_nan (s_sim h) = false) scored ->
  scored <> [] -> (1 <= k)%Z ->
  exists i h out,
    scored !! i = Some h /\
    (forall j y, scored !! j = Some y -> (s_sim y <=? s_sim h) = true) /\
    (forall j y, (j < i)%nat -> scored !! j = Some y ->
                 (s_sim y <? s_sim h) = true) /\
    retrieve_chunks E query k w = Return (s_text h :: out).
Proof.
  intros Hs Hgood Hne Hk.
  pose proof (sort_reverse_perm sim_lt scored) as Hperm.
  assert (Hirr : forall x : Retriever.scored,
             is_nan (s_sim x) = false -> sim_lt x x = false)
    by (intros x _; apply ltb_irrefl).
  assert (Htr : forall x y z : Retriever.scored,
             is_nan (s_sim x) = false -> is_nan (s_sim y) = false ->
             is_nan (s_sim z) = false ->
             sim_lt x y = true -> sim_lt y z = true -> sim_lt x z = true)
    by (intros x y z; apply ltb_trans).
  assert (Hnt : forall x y z : Retriever.scored,
             is_nan (s_sim x) = false -> is_nan (s_sim y) = false ->
             is_nan (s_sim z) = false ->
             sim_lt x y = false -> sim_lt y z = false -> sim_lt x z = false)
    by (intros x y z; apply ltb_negative_trans).
  assert (Hsorted : StronglySorted (fun a b => sim_lt a b = false)
                                   (sort_reverse sim_lt scored)).
  { apply (sort_reverse_sorted sim_lt _ Hirr Htr Hnt (fun _ => false));
      [discriminate|assumption]. }
  destruct (sort_reverse sim_lt scored) as [|h rest] eqn:Hranked.
  { apply Permutation_nil in Hperm. contradiction. }
  pose proof (proj1 (List.Forall_forall _ _) Hgood) as Hgood'.
  assert (Hh : is_nan (s_sim h) = false).
  { apply Hgood', (Permutation_in _ Hperm). now left. }
  assert (Hstable :
    List.filter (fun x => s_sim x =? s_sim h) (h :: rest) =
    List.filter (fun x => s_sim x =? s_sim h) scored).
  { rewrite <- Hranked.
    apply (sort_reverse_filter sim_lt _ Hirr Htr Hnt); [|assumption].
    intros x y Hx Hy Hxs Hys. now apply (eqb_not_ltb _ _ (s_sim h)). }
  simpl in Hstable. rewrite (eqb_refl_not_nan _ Hh) in Hstable.
  symmetry in Hstable. apply filter_head in Hstable as (i & Hi & Hbefore).
  assert (Hmax : forall y, In y scored -> (s_sim y <=? s_sim h) = true).
  { intros y Hy. apply (Permutation_in _ (Permutation_sym Hperm)) in Hy.
    inversion Hsorted as [|? ? _ Hall]; subst.
    destruct Hy as [<-|Hy].
    - apply ltb_false_leb; try assumption. apply ltb_irrefl.
    - rewrite List.Forall_forall in Hall.
      apply ltb_false_leb; [assumption| |now apply Hall].
      apply Hgood', (Permutation_in _ Hperm). now right. }
  assert (Hslice : exists top, slice (h :: rest) 0 k = h :: top).
  { unfold slice, clamp_index.
    destruct (Z.ltb_spec k 0) as [|_]; [lia|].
    pose proof (len_nonneg rest) as Hrest.
    assert (Hlen : len (h :: rest) = (len rest + 1)%Z)
      by (unfold len; simpl length; lia).
    rewrite Hlen. simpl.
    replace (Z.to_nat (Z.min 0 (len rest + 1))) with 0%nat by lia.
    destruct (Z.to_nat (Z.min k (len rest + 1) - Z.min 0 (len rest + 1)))
      as [|n] eqn:Hn; [lia|].
    simpl. eauto. }
  destruct Hslice as [top Hslice].
  exists i, h.
  eexists. split; [exact Hi|]. split; [|split].
  - intros j y Hy. apply Hmax, list_elem_of_In.
    eapply list_elem_of_lookup_2; eassumption.
  - intros j y Hj Hy.
    assert (Hin : In y scored)
      by (apply list_elem_of_In; eapply list_elem_of_lookup_2; eassumption).
    apply leb_not_eqb_ltb; auto. eapply Hbefore; eassumption.
  - rewrite retrieve_chunks_scored, Hs, Hranked, dedupe_first_occurrences.
    rewrite Hslice. simpl. reflexivity.
Qed.

Lemma best_chunk_comes_first_witness :
  exists out,
    retrieve_chunks demo_env "q" 1 tie_world = Return ("best"%string :: out).
Proof.
  pose (r := score_rows (encode demo_env "q") (chunks (w_db tie_world))).
  pose (sc := match r with Return l => l | Raise _ => [] end).
  assert (Hs : r = Return sc) by (vm_compute; reflexivity).
  assert (Hg : List.Forall (fun h => is_nan (s_sim h) = false) sc)
    by (vm_compute; repeat constructor).
  assert (Hne : sc <> []) by (vm_compute; discriminate).
  destruct (best_chunk_comes_first demo_env "q" 1 tie_world sc Hs Hg Hne)
    as (i & h & out & _ & _ & _ & Hre); [lia|].
  exists out. rewrite Hre.
  assert (Hv : retrieve_chunks demo_env "q" 1 tie_world = Return ["best"%string])
    by (vm_compute; reflexivity).
  rewrite Hv in Hre. injection Hre as <- <-. reflexivity.
Defined.

End RetrieverMore.

(** ** The uploader *)
Module UploaderFacts.
Import PyStr ChunkerFacts Uploader.
Local Open Scope nat_scope.

(** *** The batches *)

Lemma attempts_five : range 0 MAX_RETRIES 1 = [0; 1; 2; 3; 4].
Proof. reflexivity. Qed.

Lemma batch_at_firstn {V} (rows : list (list V)) i :
  batch_at rows i = firstn BATCH_SIZE (skipn i rows).
Proof.
  unfold batch_at, slice, clamp_index, len, BATCH_SIZE.
  destruct (Z.ltb_spec (Z.of_nat i) 0) as [|_]; [lia|].
  destruct (Z.ltb_spec (Z.of_nat (i + 50)) 0) as [|_]; [lia|].
  destruct (Nat.le_gt_cases (length rows) i) as [Hle|Hlt].
  - replace (Z.to_nat (Z.min (Z.of_nat i) (Z.of_nat (length rows))))
      with (length rows) by lia.
    rewrite (skipn_all2 (n := length rows)), (skipn_all2 (n := i)) by lia.
    now rewrite !firstn_nil.
  - replace (Z.to_nat (Z.min (Z.of_nat i) (Z.of_nat (length rows)))) with i
      by lia.
    destruct (Nat.le_gt_cases (i + 50) (length rows)) as [Hfull|Hpart].
    + f_equal. lia.
    + rewrite !firstn_all2; [reflexivity| |]; rewrite length_skipn; lia.
Qed.

Lemma length_batch_at {V} (rows : list (list V)) i :
  length (batch_at rows i) = Nat.min BATCH_SIZE (length rows - i).
Proof. now rewrite batch_at_firstn, length_firstn, length_skipn. Qed.

Lemma range_loop_seq total : forall fuel i,
  total - i <= fuel ->
  range_loop fuel i total BATCH_SIZE =
  map (fun j => i + j * BATCH_SIZE) (seq 0 (batch_count (total - i))).
Proof.
  unfold batch_count, BATCH_SIZE.
  induction fuel as [|fuel IH]; intros i Hfuel; cbn [range_loop].
  - replace (total - i) with 0 by lia. reflexivity.
  - destruct (Nat.ltb_spec i total) as [Hlt|Hge].
    + rewrite IH by lia.
      replace ((total - i + 50 - 1) / 50)
        with (S ((total - (i + 50) + 50 - 1) / 50)).
      * cbn [seq map]. f_equal; [lia|]. rewrite <- seq_shift, map_map.
        apply map_ext. intros j. lia.
      * destruct (Nat.le_gt_cases 50 (total - i)) as [Hbig|Hsmall].
        -- replace (total - i + 50 - 1) with (total - (i + 50) + 50 - 1 + 1 * 50)
             by lia.
           rewrite Nat.div_add by lia. lia.
        -- replace (total - (i + 50) + 50 - 1) with 49 by lia.
           rewrite (Nat.div_small 49 50) by lia.
           apply (Nat.div_unique _ 50 1 (total - i - 1)); lia.
    + replace (total - i) with 0 by lia. reflexivity.
Qed.

Lemma range_batches total :
  range 0 total BATCH_SIZE =
  map (fun j => j * BATCH_SIZE) (seq 0 (batch_count total)).
Proof.
  unfold range. rewrite range_loop_seq by lia.
  now rewrite Nat.sub_0_r.
Qed.

Lemma range_nonempty total :
  0 < total ->
  range 0 total BATCH_SIZE =
  0 :: range_loop (total - 1) BATCH_SIZE total BATCH_SIZE.
Proof.
  intros H. unfold range. destruct total as [|t]; [lia|].
  cbn [range_loop]. change (0 <? S t) with true. cbn iota.
  now rewrite Nat.sub_succ, Nat.sub_0_r.
Qed.

Lemma batches_concat_from {V} (rows : list (list V)) : forall fuel i,
  length rows - i <= fuel ->
  concat (map (batch_at rows) (range_loop fuel i (length rows) BATCH_SIZE))
  = skipn i rows.
Proof.
  induction fuel as [|fuel IH]; intros i Hfuel; simpl.
  - rewrite skipn_all2 by lia. reflexivity.
  - destruct (Nat.ltb_spec i (length rows)) as [Hlt|Hge].
    + simpl. rewrite IH by (unfold BATCH_SIZE; lia).
      rewrite batch_at_firstn.
      rewrite <- (firstn_skipn BATCH_SIZE (skipn i rows)) at 2.
      f_equal. rewrite skipn_skipn. f_equal. lia.
    + rewrite skipn_all2 by lia. reflexivity.
Qed.

Lemma batch_count_bounds total :
  (batch_count total - 1) * BATCH_SIZE < total + (if total =? 0 then 1 else 0)
  /\ total <= batch_count total * BATCH_SIZE.
Proof.
  unfold batch_count, BATCH_SIZE.
  pose proof (Nat.div_mod (total + 50 - 1) 50 ltac:(lia)) as Hdm.
  pose proof (Nat.mod_upper_bound (total + 50 - 1) 50 ltac:(lia)) as Hub.
  set (q := (total + 50 - 1) / 50) in *.
  set (m := (total + 50 - 1) mod 50) in *.
  destruct (Nat.eqb_spec total 0) as [H0|Hne]; split; nia.
Qed.

(** X22. The batches that [upload_table] sends are a partition of the
    rows in order: concatenated they give the rows back; there are
    [ceil(total / 50)] of them, none is empty, and each holds 50 rows but
    the last, which holds the rest. *)
Theorem batches_partition_rows {V : Type} (rows : list (list V)) :
  concat (batches rows) = rows /\
  length (batches rows) = batch_count (length rows) /\
  (forall j b, batches rows !! j = Some b ->
     1 <= length b <= BATCH_SIZE /\
     (S j < length (batches rows) -> length b = BATCH_SIZE) /\
     (S j = length (batches rows) ->
      length b = length rows - j * BATCH_SIZE)).
Proof.
  unfold batches. split; [|split].
  - unfold range. now rewrite batches_concat_from by lia.
  - now rewrite length_map, range_batches, length_map, length_seq.
  - intros j b Hb. rewrite length_map, range_batches, length_map, length_seq.
    rewrite range_batches, map_map in Hb.
    rewrite list_lookup_fmap in Hb.
    destruct (seq 0 (batch_count (length rows)) !! j) as [j'|] eqn:Hj;
      [|discriminate].
    apply lookup_seq in Hj as [-> Hlt]. simpl in Hb. injection Hb as <-.
    rewrite length_batch_at.
    pose proof (batch_count_bounds (length rows)) as [Hlo Hhi].
    destruct (Nat.eqb_spec (length rows) 0) as [H0|Hpos].
    { rewrite H0 in Hlt. unfold batch_count in Hlt. simpl in Hlt. lia. }
    unfold BATCH_SIZE in *. nia.
Qed.

(** *** One batch *)

Section Service.
Context {V : Type} (service : nat -> outcome).

Lemma attempt_loop_accepted attempts (records : list (gmap string V)) r :
  attempts <> [] -> service (r_calls r) = Accepted ->
  attempt_loop service attempts records r = (Return tt, stored (called r) records).
Proof.
  intros Hne Hs. destruct attempts as [|a rest]; [contradiction|].
  simpl. now rewrite Hs.
Qed.

Lemma attempt_loop_outcome (records : list (gmap string V)) r :
  (forall n e, service n <> Failed e) ->
  exists r',
    attempt_loop service [0; 1; 2; 3; 4] records r = (Return tt, r') /\
    r_progress r' = r_progress r /\
    r_calls r <= r_calls r' <= r_calls r + MAX_RETRIES /\
    r_sleeps r <= r_sleeps r' <= r_sleeps r + (MAX_RETRIES - 1) /\
    ((r_rows r' = r_rows r ++ records /\ r_skipped r' = r_skipped r) \/
     (r_rows r' = r_rows r /\ r_skipped r' = S (r_skipped r) /\
      r_calls r' = r_calls r + MAX_RETRIES /\
      forall n, n < MAX_RETRIES -> service (r_calls r + n) = HTTPError)).
Proof.
  intros Hnofail. unfold MAX_RETRIES.
  simpl attempt_loop.
  destruct (service (r_calls r)) as [| |e] eqn:H0;
    [eexists; split; [reflexivity|]; simpl; repeat split; try lia; left; auto
    | |now apply Hnofail in H0].
  simpl.
  destruct (service (S (r_calls r))) as [| |e] eqn:H1;
    [eexists; split; [reflexivity|]; simpl; repeat split; try lia; left; auto
    | |now apply Hnofail in H1].
  simpl.
  destruct (service (S (S (r_calls r)))) as [| |e] eqn:H2;
    [eexists; split; [reflexivity|]; simpl; repeat split; try lia; left; auto
    | |now apply Hnofail in H2].
  simpl.
  destruct (service (S (S (S (r_calls r))))) as [| |e] eqn:H3;
    [eexists; split; [reflexivity|]; simpl; repeat split; try lia; left; auto
    | |now apply Hnofail in H3].
  simpl.
  destruct (service (S (S (S (S (r_calls r)))))) as [| |e] eqn:H4;
    [eexists; split; [reflexivity|]; simpl; repeat split; try lia; left; auto
    | |now apply Hnofail in H4].
  eexists; split; [reflexivity|]; simpl; repeat split; try lia.
  right. repeat split; try lia.
  intros n Hn.
  destruct n as [|[|[|[|[|n]]]]]; try lia;
    rewrite ?Nat.add_0_r;
    repeat (rewrite Nat.add_succ_r, ?Nat.add_0_r); assumption.
Qed.

(** *** All batches *)

Lemma batch_loop_accepted columns (rows : list (list V)) : forall starts r,
  (forall n, r_calls r <= n -> service n = Accepted) ->
  exists r',
    batch_loop service columns rows starts r = (Return tt, r') /\
    r_rows r' =
      r_rows r ++ records_of columns (concat (map (batch_at rows) starts)) /\
    r_calls r' = r_calls r + length starts /\
    r_sleeps r' = r_sleeps r /\ r_skipped r' = r_skipped r /\
    r_progress r' =
      r_progress r ++
      map (fun i => Nat.min (i + BATCH_SIZE) (length rows)) starts.
Proof.
  induction starts as [|i starts IH]; intros r Hs; cbn [batch_loop].
  - eexists. split; [reflexivity|].
    unfold records_of. simpl. rewrite !app_nil_r. repeat split; lia.
  - rewrite attempts_five, attempt_loop_accepted by (discriminate || auto).
    edestruct IH as (r' & Hrun & Hrows & Hcalls & Hsl & Hsk & Hpr);
      [|rewrite Hrun].
    { simpl. intros n Hn. apply Hs. lia. }
    exists r'. split; [reflexivity|]. simpl in *.
    rewrite Hrows, Hcalls, Hsl, Hsk, Hpr. unfold records_of.
    rewrite map_app, <- !app_assoc. repeat split; lia.
Qed.

Lemma batch_loop_outcome columns (rows : list (list V)) : forall starts r,
  (forall n e, service n <> Failed e) ->
  exists kept r',
    sublist kept starts /\
    batch_loop service columns rows starts r = (Return tt, r') /\
    r_rows r' =
      r_rows r ++ records_of columns (concat (map (batch_at rows) kept)) /\
    r_calls r <= r_calls r' <= r_calls r + MAX_RETRIES * length starts /\
    r_sleeps r' <= r_sleeps r + (MAX_RETRIES - 1) * length starts /\
    r_skipped r' + length kept = r_skipped r + length starts /\
    r_progress r' =
      r_progress r ++
      map (fun i => Nat.min (i + BATCH_SIZE) (length rows)) starts.
Proof.
  intros starts r Hnofail. revert r.
  induction starts as [|i starts IH]; intros r; cbn [batch_loop].
  - exists [], r. split; [constructor|]. split; [reflexivity|].
    unfold records_of. simpl. rewrite !app_nil_r. repeat split; lia.
  - rewrite attempts_five.
    destruct (attempt_loop_outcome (records_of columns (batch_at rows i)) r
                Hnofail) as (r1 & Hrun1 & Hpr1 & Hcalls1 & Hsl1 & Hcase).
    rewrite Hrun1.
    destruct (IH (reported r1 (Nat.min (i + BATCH_SIZE) (length rows))))
      as (kept & r' & Hsub & Hrun & Hrows & Hcalls & Hsl & Hsk & Hpr).
    simpl in Hrows, Hcalls, Hsl, Hsk, Hpr.
    unfold MAX_RETRIES in *.
    destruct Hcase as [[Hrows1 Hsk1]|(Hrows1 & Hsk1 & _)].
    + exists (i :: kept), r'. split; [now constructor|].
      split; [exact Hrun|]. simpl.
      rewrite Hrows, Hrows1, Hpr, Hpr1. unfold records_of.
      rewrite map_app, <- !app_assoc. repeat split; lia.
    + exists kept, r'. split; [now constructor|].
      split; [exact Hrun|]. simpl.
      rewrite Hrows, Hrows1, Hpr, Hpr1, <- !app_assoc.
      repeat split; lia.
Qed.

Lemma attempt_loop_down (records : list (gmap string V)) r :
  (forall n, n < MAX_RETRIES -> service (r_calls r + n) = HTTPError) ->
  attempt_loop service [0; 1; 2; 3; 4] records r =
  (Return tt,
   Remote (r_calls r + MAX_RETRIES) (r_rows r) (r_sleeps r + (MAX_RETRIES - 1))
          (S (r_skipped r)) (r_progress r)).
Proof.
  unfold MAX_RETRIES. intros Hdown.
  pose proof (Hdown 0 ltac:(lia)) as H0.
  pose proof (Hdown 1 ltac:(lia)) as H1.
  pose proof (Hdown 2 ltac:(lia)) as H2.
  pose proof (Hdown 3 ltac:(lia)) as H3.
  pose proof (Hdown 4 ltac:(lia)) as H4.
  replace (r_calls r + 0) with (r_calls r) in H0 by lia.
  replace (r_calls r + 1) with (S (r_calls r)) in H1 by lia.
  replace (r_calls r + 2) with (S (S (r_calls r))) in H2 by lia.
  replace (r_calls r + 3) with (S (S (S (r_calls r)))) in H3 by lia.
  replace (r_calls r + 4) with (S (S (S (S (r_calls r))))) in H4 by lia.
  simpl. rewrite H0. simpl. rewrite H1. simpl. rewrite H2. simpl. rewrite H3.
  simpl. rewrite H4. simpl. unfold skipped, slept, called. simpl.
  do 2 f_equal; lia.
Qed.

End Service.

Lemma progress_lines total :
  map (fun i => Nat.min (i + BATCH_SIZE) total) (range 0 total BATCH_SIZE) =
  map (fun j => Nat.min ((j + 1) * BATCH_SIZE) total) (seq 0 (batch_count total)).
Proof.
  rewrite range_batches, map_map. apply map_ext. intros j. f_equal. lia.
Qed.

(** X23. When the service accepts every call, [upload_table] returns
    after one call per batch, without a sleep or a batch given up, and the
    remote table has gained the records of all the rows, in order. *)
Theorem upload_table_all_accepted {V : Type} (service : nat -> outcome)
        (columns : list string) (rows : list (list V)) (r : remote) :
  (forall n, r_calls r <= n -> service n = Accepted) ->
  exists r',
    upload_table service columns rows r = (Return tt, r') /\
    r_rows r' = r_rows r ++ records_of columns rows /\
    r_calls r' = r_calls r + batch_count (length rows) /\
    r_sleeps r' = r_sleeps r /\ r_skipped r' = r_skipped r.
Proof.
  intros Hs. unfold upload_table.
  destruct (batch_loop_accepted service columns rows
              (range 0 (length rows) BATCH_SIZE) r Hs)
    as (r' & Hrun & Hrows & Hcalls & Hsl & Hsk & _).
  exists r'. split; [exact Hrun|].
  unfold range in Hrows at 1. rewrite batches_concat_from in Hrows by lia.
  rewrite range_batches, length_map, length_seq in Hcalls.
  auto.
Qed.

Lemma upload_table_all_accepted_witness :
  exists r',
    upload_table always_accepts ["id"; "title"]%string
      [["1"; "a"]; ["2"; "b"]]%string (Remote 0 [] 0 0 [])
    = (Return tt, r') /\
    r_rows r' = records_of ["id"; "title"]%string [["1"; "a"]; ["2"; "b"]]%string /\
    r_calls r' = 1.
Proof.
  destruct (upload_table_all_accepted always_accepts ["id"; "title"]%string
              [["1"; "a"]; ["2"; "b"]]%string (Remote 0 [] 0 0 []))
    as (r' & Hrun & Hrows & Hcalls & _); [reflexivity|].
  exists r'. split; [exact Hrun|]. split; [exact Hrows|exact Hcalls].
Defined.

(** X24. When the service only ever accepts a call or fails it with
    [HTTPError], [upload_table] returns without raising, whatever the
    failures.  Each batch is stored whole and once, or not at all: the
    remote table gains the records of some of the batches, in order.  At
    most 5 calls and 4 sleeps are made per batch, every batch is either
    kept or counted as given up, and the progress lines are those of a run
    without failures. *)
Theorem upload_table_survives_http_errors {V : Type} (service : nat -> outcome)
        (columns : list string) (rows : list (list V)) (r : remote) :
  (forall n e, service n <> Failed e) ->
  exists kept r',
    sublist kept (batches rows) /\
    upload_table service columns rows r = (Return tt, r') /\
    r_rows r' = r_rows r ++ records_of columns (concat kept) /\
    r_calls r <= r_calls r' <=
      r_calls r + MAX_RETRIES * batch_count (length rows) /\
    r_sleeps r' <= r_sleeps r + (MAX_RETRIES - 1) * batch_count (length rows) /\
    r_skipped r' + length kept = r_skipped r + batch_count (length rows) /\
    r_progress r' =
      r_progress r ++
      map (fun j => Nat.min ((j + 1) * BATCH_SIZE) (length rows))
          (seq 0 (batch_count (length rows))).
Proof.
  intros Hnofail. unfold upload_table.
  destruct (batch_loop_outcome service columns rows
              (range 0 (length rows) BATCH_SIZE) r Hnofail)
    as (kept & r' & Hsub & Hrun & Hrows & Hcalls & Hsl & Hsk & Hpr).
  exists (map (batch_at rows) kept), r'.
  split; [now apply (fmap_sublist (batch_at rows))|]. split; [exact Hrun|].
  rewrite progress_lines in Hpr.
  rewrite range_batches, length_map, length_seq in Hcalls, Hsl, Hsk.
  rewrite length_map. auto.
Qed.

Lemma upload_table_survives_http_errors_witness :
  exists kept r',
    sublist kept (batches [["1"]; ["2"]]%string) /\
    upload_table down_at_first ["id"]%string [["1"]; ["2"]]%string
      (Remote 0 [] 0 0 []) = (Return tt, r') /\
    r_rows r' = records_of ["id"]%string (concat kept) /\
    r_progress r' = [2].
Proof.
  destruct (upload_table_survives_http_errors down_at_first ["id"]%string
              [["1"]; ["2"]]%string (Remote 0 [] 0 0 []))
    as (kept & r' & Hsub & Hrun & Hrows & _ & _ & _ & Hpr).
  - intros n e. unfold down_at_first. destruct (n <? MAX_RETRIES); discriminate.
  - exists kept, r'. auto.
Defined.

(** X25. A batch whose five calls all fail with [HTTPError] is given up
    and the upload goes on: when the first five calls fail and every later
    one is accepted, [upload_table] returns normally, the remote table
    gains the records of all the rows but the first 50, one batch is
    counted as given up, and the progress lines are the same as those of a
    run in which every call is accepted. *)
Theorem upload_table_skips_failed_batch {V : Type} (service : nat -> outcome)
        (columns : list string) (rows : list (list V)) (r : remote) :
  rows <> [] ->
  (forall n, n < MAX_RETRIES -> service (r_calls r + n) = HTTPError) ->
  (forall n, MAX_RETRIES <= n -> service (r_calls r + n) = Accepted) ->
  exists r',
    upload_table service columns rows r = (Return tt, r') /\
    r_rows r' = r_rows r ++ records_of columns (skipn BATCH_SIZE rows) /\
    r_skipped r' = S (r_skipped r) /\
    r_calls r' = r_calls r + MAX_RETRIES + (batch_count (length rows) - 1) /\
    r_progress r' =
      r_progress (snd (upload_table always_accepts columns rows r)).
Proof.
  intros Hne Hdown Hup.
  assert (Hpos : 0 < length rows) by (destruct rows; simpl; [contradiction|lia]).
  pose proof (range_batches (length rows)) as Hcount.
  apply (f_equal (@length nat)) in Hcount.
  rewrite length_map, length_seq in Hcount.
  destruct (batch_loop_accepted always_accepts columns rows
              (range 0 (length rows) BATCH_SIZE) r)
    as (rc & Hrunc & _ & _ & _ & _ & Hprc); [reflexivity|].
  unfold upload_table. rewrite Hrunc. simpl snd. rewrite Hprc.
  rewrite range_nonempty in * by assumption.
  set (rest := range_loop (length rows - 1) BATCH_SIZE (length rows) BATCH_SIZE)
    in *.
  cbn [batch_loop]. rewrite attempts_five.
  rewrite (attempt_loop_down service) by assumption.
  edestruct (batch_loop_accepted service columns rows rest)
    as (r' & Hrun & Hrows & Hcalls & Hsl & Hsk & Hpr); [|rewrite Hrun].
  { simpl. intros n Hn. replace n with (r_calls r + (n - r_calls r)) by lia.
    apply Hup. lia. }
  exists r'. split; [reflexivity|]. simpl in Hrows, Hcalls, Hsk, Hcount.
  unfold reported in Hpr. cbn [r_progress] in Hpr.
  unfold rest in Hrows.
  rewrite (batches_concat_from rows) in Hrows by (unfold BATCH_SIZE; lia).
  split; [exact Hrows|]. split; [exact Hsk|]. split; [lia|].
  rewrite Hpr. cbn [map]. now rewrite <- app_assoc.
Qed.

Lemma upload_table_skips_failed_batch_witness :
  exists r',
    upload_table down_at_first ["id"]%string
      (map (fun n => [n]) (seq 0 51)) (Remote 0 [] 0 0 [])
    = (Return tt, r') /\
    r_rows r' = records_of ["id"]%string [[50]] /\
    r_skipped r' = 1 /\ r_calls r' = 6.
Proof.
  destruct (upload_table_skips_failed_batch down_at_first ["id"]%string
              (map (fun n => [n]) (seq 0 51)) (Remote 0 [] 0 0 []))
    as (r' & Hrun & Hrows & Hsk & Hcalls & _).
  - discriminate.
  - intros n Hn. unfold down_at_first. simpl.
    now destruct (Nat.ltb_spec n MAX_RETRIES); [|lia].
  - intros n Hn. unfold down_at_first. simpl.
    now destruct (Nat.ltb_spec n MAX_RETRIES); [lia|].
  - exists r'. split; [exact Hrun|]. split; [exact Hrows|].
    split; [exact Hsk|exact Hcalls].
Defined.

(** *** An error that is not an [HTTPError] *)

Lemma firstn_plus {A} (l : list A) : forall a b,
  firstn (a + b) l = firstn a l ++ firstn b (skipn a l).
Proof.
  induction l as [|x l IH]; intros a b.
  - now rewrite skipn_nil, !firstn_nil.
  - destruct a as [|a]; simpl; [reflexivity|]. now rewrite IH.
Qed.

Lemma batches_prefix {V} (rows : list (list V)) j :
  concat (map (batch_at rows) (map (fun k => k * BATCH_SIZE) (seq 0 j)))
  = firstn (j * BATCH_SIZE) rows.
Proof.
  induction j as [|j IH]; [reflexivity|].
  rewrite seq_S, !map_app, concat_app, IH. cbn [map concat].
  rewrite app_nil_r, batch_at_firstn. change (0 + j) with j.
  replace (S j * BATCH_SIZE) with (j * BATCH_SIZE + BATCH_SIZE) by lia.
  now rewrite firstn_plus.
Qed.

Lemma batch_loop_abort {V} (service : nat -> outcome) columns
      (rows : list (list V)) e : forall starts r j,
  j < length starts ->
  (forall n, n < j -> service (r_calls r + n) = Accepted) ->
  service (r_calls r + j) = Failed e ->
  exists r',
    batch_loop service columns rows starts r = (Raise e, r') /\
    r_rows r' =
      r_rows r ++
      records_of columns (concat (map (batch_at rows) (firstn j starts))) /\
    r_calls r' = r_calls r + S j /\
    r_sleeps r' = r_sleeps r /\ r_skipped r' = r_skipped r.
Proof.
  induction starts as [|i starts IH]; intros r j Hj Hacc Hfail;
    [simpl in Hj; lia|].
  cbn [batch_loop]. rewrite attempts_five.
  destruct j as [|j].
  - rewrite Nat.add_0_r in Hfail. cbn [attempt_loop]. rewrite Hfail.
    eexists. split; [reflexivity|]. simpl. unfold records_of. simpl.
    rewrite app_nil_r. repeat split; lia.
  - pose proof (Hacc 0 ltac:(lia)) as H0. rewrite Nat.add_0_r in H0.
    rewrite attempt_loop_accepted by (discriminate || assumption).
    edestruct (IH (reported (stored (called r)
                               (records_of columns (batch_at rows i)))
                            (Nat.min (i + BATCH_SIZE) (length rows))) j)
      as (r' & Hrun & Hrows & Hcalls & Hsl & Hsk).
    + simpl in Hj. lia.
    + simpl. intros n Hn. assert (Hn' : S n < S j) by lia.
      specialize (Hacc (S n) Hn'). now rewrite Nat.add_succ_r in Hacc.
    + simpl. now rewrite Nat.add_succ_r in Hfail.
    + exists r'. split; [exact Hrun|]. simpl in *.
      rewrite Hrows, Hcalls, Hsl, Hsk. unfold records_of.
      rewrite map_app, <- app_assoc. repeat split; lia.
Qed.

(** X29. An exception of the service that is not an [HTTPError] is not
    retried and ends the upload: when the first [j] calls are accepted and
    the next one raises, with batches still to send, [upload_table] raises
    that exception after [j + 1] calls, and the remote table has gained
    the records of the first [50 * j] rows only. *)
Theorem upload_table_other_error_aborts {V : Type} (service : nat -> outcome)
        (columns : list string) (rows : list (list V)) (r : remote)
        (e : exn) (j : nat) :
  j < batch_count (length rows) ->
  (forall n, n < j -> service (r_calls r + n) = Accepted) ->
  service (r_calls r + j) = Failed e ->
  exists r',
    upload_table service columns rows r = (Raise e, r') /\
    r_rows r' = r_rows r ++ records_of columns (firstn (j * BATCH_SIZE) rows) /\
    r_calls r' = r_calls r + j + 1 /\
    r_sleeps r' = r_sleeps r /\ r_skipped r' = r_skipped r.
Proof.
  intros Hj Hacc Hfail. unfold upload_table.
  destruct (batch_loop_abort service columns rows e
              (range 0 (length rows) BATCH_SIZE) r j)
    as (r' & Hrun & Hrows & Hcalls & Hsl & Hsk); try assumption.
  { now rewrite range_batches, length_map, length_seq. }
  exists r'. split; [exact Hrun|].
  rewrite range_batches, firstn_map in Hrows.
  replace (take j (seq 0 (batch_count (length rows)))) with (seq 0 j) in Hrows.
  - rewrite batches_prefix in Hrows. repeat split; try assumption. lia.
  - replace (batch_count (length rows))
      with (j + (batch_count (length rows) - j)) by lia.
    rewrite seq_app, take_app_length'; [reflexivity|]. now rewrite length_seq.
Qed.

Lemma upload_table_other_error_aborts_witness :
  exists r',
    upload_table
      (fun n => if n =? 1 then Failed (IntegrityError "duplicate key") else Accepted)
      ["id"]%string (map (fun n => [n]) (seq 0 51)) (Remote 0 [] 0 0 [])
    = (Raise (IntegrityError "duplicate key"), r') /\
    length (r_rows r') = 50 /\ r_calls r' = 2.
Proof.
  destruct (upload_table_other_error_aborts
              (fun n => if n =? 1 then Failed (IntegrityError "duplicate key")
                        else Accepted)
              ["id"]%string (map (fun n => [n]) (seq 0 51)) (Remote 0 [] 0 0 [])
              (IntegrityError "duplicate key") 1)
    as (r' & Hrun & Hrows & Hcalls & _).
  - vm_compute. lia.
  - intros n Hn. simpl. destruct n as [|n]; [reflexivity|lia].
  - reflexivity.
  - exists r'. split; [exact Hrun|]. split; [|exact Hcalls].
    rewrite Hrows. reflexivity.
Defined.

End UploaderFacts.
